(** * NNEF to TensorFlow pre-conversion passes

    A shallow embedding of
    [nnef_tools/conversion/tensorflow/nnef_to_tf_passes.py]:
    the padding arithmetic, the padding resolver [_get_paddings], and the two
    graph rewrites [_transform_extract_padding] and
    [_transform_extract_bias_add], with the properties of the specification
    stated and settled over them. *)

From Stdlib Require Import ZArith Lia Ascii.
From stdpp Require Import base option list strings gmap.

Open Scope Z_scope.

(** ** Python exceptions and results *)

Inductive error : Type :=
  | KeyError
  | TypeError
  | IndexError
  | AssertionError
  | ValueError
  | OverflowError.

Inductive result (A : Type) : Type :=
  | Ok (a : A)
  | Err (e : error).

Arguments Ok {A} a.
Arguments Err {A} e.

(** ** Python string helpers *)

(** [str.lower()] on the ASCII range. *)
Definition lower_ascii (c : ascii) : ascii :=
  let n := nat_of_ascii c in
  if ((65 <=? n)%nat && (n <=? 90)%nat)%bool then ascii_of_nat (n + 32) else c.

Fixpoint lower (s : string) : string :=
  match s with
  | EmptyString => EmptyString
  | String c s' => String (lower_ascii c) (lower s')
  end.

(** [needle in hay] for strings: substring containment. *)
Fixpoint str_in (needle hay : string) : bool :=
  String.prefix needle hay ||
  match hay with
  | EmptyString => false
  | String _ hay' => str_in needle hay'
  end.

(** ** Python arithmetic: [t / 2] under [from __future__ import division]

    With true division, [t / 2] on an integer [t] is the binary64 float
    nearest to the exact quotient (ties to even), and raises [OverflowError]
    when that float would be infinite.  Every such float is a half-integer, so
    it is represented here by the integer [m] with value [m / 2]: [m] is [t]
    rounded to 53 significant bits. *)

Module PyFloat.

Definition round53 (t : Z) : Z :=
  let a := Z.abs t in
  let e := Z.log2 a + 1 - 53 in
  if e <=? 0 then t
  else
    let q := a / 2 ^ e in
    let r := a mod 2 ^ e in
    let h := 2 ^ (e - 1) in
    let q' := if ((h <? r) || ((r =? h) && Z.odd q))%bool then q + 1 else q in
    Z.sgn t * (q' * 2 ^ e).

(** [t / 2]: the result is the number of halves of the float obtained. *)
Definition true_div2 (t : Z) : result Z :=
  let m := round53 t in
  if Z.abs m <? 2 ^ 1025 then Ok m else Err OverflowError.

(** [math.floor] and [math.ceil] of the float [m / 2]. *)
Definition floor (m : Z) : Z := m / 2.
Definition ceil (m : Z) : Z := - ((- m) / 2).

End PyFloat.

(** ** Padding arithmetic *)

Definition _calculate_padding_elem
    (upscaled_size downscaled_size filter_size stride dilation : Z)
    : result (Z * Z) :=
  let dilated_filter_size := (filter_size - 1) * dilation + 1 in
  let t := (downscaled_size - 1) * stride + dilated_filter_size - upscaled_size in
  match PyFloat.true_div2 t with
  | Ok h => Ok (PyFloat.floor h, PyFloat.ceil h)
  | Err e => Err e
  end.

(** The list comprehension over [zip] of the five sequences: it stops at the
    shortest one, and the first failing element aborts the whole list. *)
Fixpoint _calculate_padding
    (upscaled_shape downscaled_shape filter_shape strides dilations : list Z)
    : result (list (Z * Z)) :=
  match upscaled_shape, downscaled_shape, filter_shape, strides, dilations with
  | i :: us, o :: ds, f :: fs, s :: ss, d :: dls =>
      match _calculate_padding_elem i o f s d with
      | Ok p =>
          match _calculate_padding us ds fs ss dls with
          | Ok ps => Ok (p :: ps)
          | Err e => Err e
          end
      | Err e => Err e
      end
  | _, _, _, _, _ => Ok []
  end.

(** The total padding of one dimension, as the source computes it. *)
Definition padding_total (U D F S L : Z) : Z :=
  (D - 1) * S + ((F - 1) * L + 1) - U.

(** ** The IR: tensors, operations, graph

    Modelled from the spec: the classes [NNEFTensor], [NNEFOperation] and
    [NNEFGraph] of [nnef_tools.io.nnef.nnef_graph] are not part of the
    sources at hand.  Following sections 3 and 9 of the specification the
    graph is an arena: it owns the tensors and the operations, an object's
    identity is its position in the arena, and operations hold tensor
    handles.  Nothing is ever removed by these passes, so handles are
    stable. *)

(** Attribute values, as the NNEF schema types the attributes read here:
    strings ([border], the rewritten [padding]), integer lists ([size],
    [stride], [dilation], the [orig_..._shape]s) and lists of integer pairs
    ([padding]). *)
Inductive attr : Type :=
  | AStr (s : string)
  | AInts (l : list Z)
  | APairs (l : list (Z * Z)).

Record NNEFTensor : Type := mkTensor {
  tensor_name : option string;
  shape : list Z;
  dtype : string;
  is_constant : bool;
  data : list Z
}.

Definition rank (t : NNEFTensor) : nat := length (shape t).

Record NNEFOperation : Type := mkOperation {
  name : string;
  inputs : list nat;
  outputs : list nat;
  attribs : gmap string attr
}.

Record NNEFGraph : Type := mkGraph {
  tensors : list NNEFTensor;
  operations : list NNEFOperation
}.

(** ** Statements of the passes: state and exceptions

    A statement runs on the graph and either returns a value or raises; the
    graph it leaves behind is kept in both cases, since an exception does not
    undo the mutations made before it. *)

Definition M (A : Type) : Type := NNEFGraph → result A * NNEFGraph.

Definition ret {A} (a : A) : M A := λ g, (Ok a, g).

Definition bind {A B} (m : M A) (k : A → M B) : M B :=
  λ g, match m g with
       | (Ok a, g') => k a g'
       | (Err e, g') => (Err e, g')
       end.

Definition raise {A} (e : error) : M A := λ g, (Err e, g).

Definition lift {A} (r : result A) : M A := λ g, (r, g).

Definition get : M NNEFGraph := λ g, (Ok g, g).

Notation "'do' x <- m ; k" := (bind m (λ x, k))
  (at level 10, x name, m at level 100, k at level 200).
Notation "'do' ' p <- m ; k" := (bind m (λ x, match x with p => k end))
  (at level 10, p pattern, m at level 100, k at level 200).
Notation "m ;;; k" := (bind m (λ _, k))
  (at level 100, k at level 200, right associativity).

Definition assert (b : bool) : M unit :=
  if b then ret tt else raise AssertionError.

(** *** Graph primitives

    Modelled from the spec: the accessors and mutators of the IR library
    (section 6). *)

(** Dereference an operation or tensor handle. *)
Definition get_op (i : nat) : M NNEFOperation :=
  λ g, match operations g !! i with
       | Some o => (Ok o, g)
       | None => (Err IndexError, g)
       end.

Definition get_tensor (t : nat) : M NNEFTensor :=
  λ g, match tensors g !! t with
       | Some x => (Ok x, g)
       | None => (Err IndexError, g)
       end.

(** In-place update of the operation behind a handle. *)
Definition modify_op (i : nat) (f : NNEFOperation → NNEFOperation) : M unit :=
  λ g, match operations g !! i with
       | Some o => (Ok tt, mkGraph (tensors g) (<[i := f o]> (operations g)))
       | None => (Err IndexError, g)
       end.

(** [nnefop.attribs[key] = v] *)
Definition set_attrib (i : nat) (key : string) (v : attr) : M unit :=
  modify_op i (λ o, mkOperation (name o) (inputs o) (outputs o) (<[key := v]> (attribs o))).

(** [nnefop.inputs = ts] *)
Definition set_inputs (i : nat) (ts : list nat) : M unit :=
  modify_op i (λ o, mkOperation (name o) ts (outputs o) (attribs o)).

(** [nnefop.outputs = ts] *)
Definition set_outputs (i : nat) (ts : list nat) : M unit :=
  modify_op i (λ o, mkOperation (name o) (inputs o) ts (attribs o)).

(** [NNEFTensor(graph=g, ...)]: the new tensor joins the graph; its handle
    is returned. *)
Definition new_tensor (t : NNEFTensor) : M nat :=
  λ g, (Ok (length (tensors g)), mkGraph (tensors g ++ [t]) (operations g)).

(** [NNEFOperation(graph=g, ...)]: the new operation joins the graph. *)
Definition new_operation (o : NNEFOperation) : M nat :=
  λ g, (Ok (length (operations g)), mkGraph (tensors g) (operations g ++ [o])).

(** [nnefop.attribs[key]] *)
Definition attrib (o : NNEFOperation) (key : string) : result attr :=
  match attribs o !! key with
  | Some v => Ok v
  | None => Err KeyError
  end.

Definition as_str (v : attr) : result string :=
  match v with AStr s => Ok s | _ => Err TypeError end.

Definition as_ints (v : attr) : result (list Z) :=
  match v with
  | AInts l => Ok l
  | APairs [] => Ok []
  | _ => Err TypeError
  end.

Definition as_pairs (v : attr) : result (list (Z * Z)) :=
  match v with
  | APairs l => Ok l
  | AInts [] => Ok []
  | _ => Err TypeError
  end.

(** [seq[k]] on a tuple or list. *)
Definition index {A} (l : list A) (k : nat) : result A :=
  match l !! k with
  | Some x => Ok x
  | None => Err IndexError
  end.

(** The [output] (resp. [input]) property of an operation: its only output
    (resp. input). *)
Definition output (o : NNEFOperation) : result nat :=
  match outputs o with
  | [t] => Ok t
  | _ => Err AssertionError
  end.

Definition input (o : NNEFOperation) : result nat :=
  match inputs o with
  | [t] => Ok t
  | _ => Err AssertionError
  end.

(** Modelled from the spec: [utils.recursive_any(arr, pred)] of
    [nnef_tools.core.utils], true when some leaf of the nested sequence
    satisfies the predicate; here on a list of pairs. *)
Definition recursive_any (arr : list (Z * Z)) (pred : Z → bool) : bool :=
  existsb (λ p, pred p.1 || pred p.2) arr.

(** [a, b = tuple(seq)[:2]] and [a, b, c = seq[:3]]: unpacking a slice. *)
Definition unpack2 (l : list nat) : result (nat * nat) :=
  match take 2 l with
  | [a; b] => Ok (a, b)
  | _ => Err ValueError
  end.

Definition unpack3 (l : list nat) : result (nat * nat * nat) :=
  match take 3 l with
  | [a; b; c] => Ok (a, b, c)
  | _ => Err ValueError
  end.

(** ** The padding resolver *)

Module _InOpPadding.
Definition VALID : string := "VALID".
Definition SAME : string := "SAME".
End _InOpPadding.

Record _InOpAndOutOfOpPadding : Type := mk_Paddings {
  in_op : string;
  out_of_op : option (list (Z * Z))
}.

Definition positive (x : Z) : bool := 0 <? x.

(** [_calculate_padding(...)] with the [strides] and [dilations] read from
    the attributes, as every branch of the resolver does. *)
Definition calculate_with_attribs (nnefop : NNEFOperation)
    (upscaled_shape downscaled_shape filter_shape : list Z)
    : result (list (Z * Z)) :=
  match attrib nnefop "stride" with
  | Err e => Err e
  | Ok sv =>
    match as_ints sv with
    | Err e => Err e
    | Ok strides =>
      match attrib nnefop "dilation" with
      | Err e => Err e
      | Ok dv =>
        match as_ints dv with
        | Err e => Err e
        | Ok dilations =>
            _calculate_padding upscaled_shape downscaled_shape filter_shape
                               strides dilations
        end
      end
    end
  end.

Definition attrib_ints (nnefop : NNEFOperation) (key : string) : result (list Z) :=
  match attrib nnefop key with
  | Ok v => as_ints v
  | Err e => Err e
  end.

Definition str_elem (s : string) (l : list string) : bool :=
  existsb (String.eqb s) l.

(** The padding implied by the shapes, computed per operator kind when the
    stored padding is empty (the inner [if len(nnefpadding) == 0] block).
    In the [conv] and [deconv] branches the source slices the tensor objects
    themselves ([input[2:]], [output[2:]]) rather than their shapes; a tensor
    of the data model is not a sequence, so these branches raise. *)
Definition implied_padding (nnefop : NNEFOperation) : M (list (Z * Z)) :=
  if String.eqb (name nnefop) "conv" then
    do '(input, filter) <- lift (unpack2 (inputs nnefop));
    do output <- lift (output nnefop);
    raise TypeError
  else if String.eqb (name nnefop) "deconv" then
    do '(input, filter) <- lift (unpack2 (inputs nnefop));
    do output <- lift (output nnefop);
    raise TypeError
  else if str_elem (name nnefop)
            ["argmax_pool"; "max_pool_with_index"; "max_pool"; "avg_pool"] then
    do i <- lift (input nnefop);
    do input <- get_tensor i;
    do o <- lift (output nnefop);
    do output <- get_tensor o;
    do size <- lift (attrib_ints nnefop "size");
    lift (calculate_with_attribs nnefop (shape input) (shape output) size)
  else if String.eqb (name nnefop) "conv_grad_filter" then
    do '(i, o) <- lift (unpack2 (inputs nnefop));
    do orig_input <- get_tensor i;
    do output_grad <- get_tensor o;
    do orig_filter_shape <- lift (attrib_ints nnefop "orig_filter_shape");
    lift (calculate_with_attribs nnefop (drop 2 (shape orig_input))
            (drop 2 (shape output_grad)) orig_filter_shape)
  else if String.eqb (name nnefop) "avg_pool_grad" then
    do o <- lift (index (inputs nnefop) 0);
    do orig_input_shape <- lift (attrib_ints nnefop "orig_input_shape");
    do output_grad <- get_tensor o;
    do size <- lift (attrib_ints nnefop "size");
    lift (calculate_with_attribs nnefop orig_input_shape (shape output_grad) size)
  else if String.eqb (name nnefop) "max_pool_grad" then
    do '(i, o) <- lift (unpack2 (inputs nnefop));
    do orig_input <- get_tensor i;
    do orig_output <- get_tensor o;
    do size <- lift (attrib_ints nnefop "size");
    lift (calculate_with_attribs nnefop (shape orig_input) (shape orig_output) size)
  else if String.eqb (name nnefop) "max_pool_grad_with_index" then
    do '(i, _, o) <- lift (unpack3 (inputs nnefop));
    do orig_input <- get_tensor i;
    do output_grad <- get_tensor o;
    do size <- lift (attrib_ints nnefop "size");
    lift (calculate_with_attribs nnefop (shape orig_input) (shape output_grad) size)
  else
    raise AssertionError.

(** [_get_paddings(nnefop)], on the operation behind handle [i].  A
    [padding] attribute that is not a list of pairs, or a [border] that is
    not a string, is outside the NNEF schema and raises here. *)
Definition _get_paddings (i : nat) : M _InOpAndOutOfOpPadding :=
  do nnefop <- get_op i;
  do pv <- lift (attrib nnefop "padding");
  do nnefpadding <- lift (as_pairs pv);
  do bv <- lift (attrib nnefop "border");
  do border <- lift (as_str bv);
  let nnefborder := lower border in
  if (length nnefpadding =? 0)%nat && str_in "pool" (name nnefop)
     && String.eqb nnefborder "ignore" then
    ret (mk_Paddings _InOpPadding.SAME None)
  else if (length nnefpadding =? 0)%nat && str_in "conv" (name nnefop)
          && String.eqb nnefborder "constant" then
    ret (mk_Paddings _InOpPadding.SAME None)
  else if negb (recursive_any nnefpadding positive) then
    ret (mk_Paddings _InOpPadding.VALID None)
  else
    do nnefpadding <- (if (length nnefpadding =? 0)%nat
                       then implied_padding nnefop
                       else ret nnefpadding);
    if recursive_any nnefpadding positive then
      if str_in "conv" (name nnefop) then
        ret (mk_Paddings _InOpPadding.VALID (Some ([(0, 0); (0, 0)] ++ nnefpadding)))
      else
        ret (mk_Paddings _InOpPadding.VALID (Some nnefpadding))
    else
      ret (mk_Paddings _InOpPadding.VALID None).

(** ** The rewrites *)

Definition forward_ops : list string :=
  ["conv"; "argmax_pool"; "max_pool_with_index"; "max_pool"; "avg_pool"].

Definition backward_ops : list string :=
  ["deconv"; "conv_grad_filter"; "max_pool_grad_with_index"; "avg_pool_grad";
   "max_pool_grad"].

Definition supported_ops : list string := forward_ops ++ backward_ops.

(** A [for] loop over a snapshot of handles: the first exception ends it. *)
Fixpoint for_each (l : list nat) (body : nat → M unit) : M unit :=
  match l with
  | [] => ret tt
  | i :: l' => body i;;; for_each l' body
  end.

(** [list(g.operations)]: the operations present when the loop starts. *)
Definition snapshot (g : NNEFGraph) : list nat := seq 0 (length (operations g)).

(** [zip(input.shape, separate_padding)] in the shape comprehension. *)
Definition padded_shape (sh : list Z) (pads : list (Z * Z)) : list Z :=
  zip_with (λ s pq, s + pq.1 + pq.2) sh pads.

(** The body of the loop of [_transform_extract_padding]. *)
Definition extract_padding_body (h : nat) : M unit :=
  do nnefop <- get_op h;
  if str_elem (name nnefop) supported_ops then
    do p <- _get_paddings h;
    set_attrib h "padding" (AStr (in_op p));;;
    (if str_elem (name nnefop) backward_ops
     then assert (bool_decide (out_of_op p = None))
     else ret tt);;;
    match out_of_op p with
    | Some separate_padding =>
        do nnefop <- get_op h;
        do i <- lift (index (inputs nnefop) 0);
        do input <- get_tensor i;
        do border <- lift (attrib nnefop "border");
        do out <- new_tensor (mkTensor None
                                (padded_shape (shape input) separate_padding)
                                (dtype input) false []);
        do pad_op <- new_operation
             (mkOperation "box" [i] [out]
                (<["size" := AInts (replicate (rank input) 1)]>
                 (<["border" := border]>
                  (<["padding" := APairs separate_padding]> ∅))));
        do pad <- get_op pad_op;
        do pad_output <- lift (output pad);
        do nnefop <- get_op h;
        set_inputs h ([pad_output] ++ drop 1 (inputs nnefop))
    | None => ret tt
    end
  else ret tt.

Definition _transform_extract_padding : M unit :=
  do g <- get;
  for_each (snapshot g) extract_padding_body.

(** [bias.data == [0]] *)
Definition is_zero_data (d : list Z) : bool := bool_decide (d = [0]).

(** The body of the loop of [_transform_extract_bias_add]. *)
Definition extract_bias_add_body (h : nat) : M unit :=
  do nnefop <- get_op h;
  if str_elem (name nnefop) ["conv"; "deconv"]
     && (3 <=? length (inputs nnefop))%nat then
    do b <- lift (index (inputs nnefop) 2);
    set_inputs h (take 2 (inputs nnefop));;;
    do bias <- get_tensor b;
    if negb (is_constant bias && is_zero_data (data bias)) then
      do nnefop <- get_op h;
      do o <- lift (output nnefop);
      do output_with_bias <- get_tensor o;
      do output_without_bias <- new_tensor
           (mkTensor None (shape output_with_bias) (dtype output_with_bias)
                     false []);
      set_outputs h [output_without_bias];;;
      do _ <- new_operation
           (mkOperation "_bias_add" [output_without_bias; b] [o] ∅);
      ret tt
    else ret tt
  else ret tt.

Definition _transform_extract_bias_add : M unit :=
  do g <- get;
  for_each (snapshot g) extract_bias_add_body.

(** Running a statement: the outcome and the graph left behind. *)
Definition outcome {A} (m : M A) (g : NNEFGraph) : result A := (m g).1.
Definition final {A} (m : M A) (g : NNEFGraph) : NNEFGraph := (m g).2.

(** The decision of the resolver as a function of the operator's name, its
    stored padding and its lower-cased border; [_get_paddings_resolve] below
    shows that [_get_paddings] computes exactly this. *)
Definition resolve (nm : string) (pads : list (Z * Z)) (nnefborder : string)
    : _InOpAndOutOfOpPadding :=
  if (length pads =? 0)%nat && str_in "pool" nm && String.eqb nnefborder "ignore"
  then mk_Paddings _InOpPadding.SAME None
  else if (length pads =? 0)%nat && str_in "conv" nm
          && String.eqb nnefborder "constant"
  then mk_Paddings _InOpPadding.SAME None
  else if negb (recursive_any pads positive)
  then mk_Paddings _InOpPadding.VALID None
  else if str_in "conv" nm
  then mk_Paddings _InOpPadding.VALID (Some ([(0, 0); (0, 0)] ++ pads))
  else mk_Paddings _InOpPadding.VALID (Some pads).

(** An operation with one attribute rewritten, and with its inputs
    replaced. *)
Definition with_attrib (o : NNEFOperation) (key : string) (v : attr) : NNEFOperation :=
  mkOperation (name o) (inputs o) (outputs o) (<[key := v]> (attribs o)).

Definition with_inputs (o : NNEFOperation) (ts : list nat) : NNEFOperation :=
  mkOperation (name o) ts (outputs o) (attribs o).

Definition with_outputs (o : NNEFOperation) (ts : list nat) : NNEFOperation :=
  mkOperation (name o) (inputs o) ts (attribs o).

(** The padding operator built for descriptor [d] ahead of tensor [i]. *)
Definition pad_operation (i out : nat) (input : NNEFTensor) (border : attr)
    (d : list (Z * Z)) : NNEFOperation :=
  mkOperation "box" [i] [out]
    (<["size" := AInts (replicate (rank input) 1)]>
     (<["border" := border]>
      (<["padding" := APairs d]> ∅))).

(** Its output tensor. *)
Definition pad_tensor (input : NNEFTensor) (d : list (Z * Z)) : NNEFTensor :=
  mkTensor None (padded_shape (shape input) d) (dtype input) false [].

(** A statement that only reads the graph. *)
Definition readonly {A} (m : M A) : Prop := ∀ g, (m g).2 = g.

(** What a loop body may change when it runs on handle [k]: tensors are only
    appended, operations are only appended or, for the handles in [ks],
    updated in place. *)
Definition frame (ks : list nat) (g g' : NNEFGraph) : Prop :=
  tensors g `prefix_of` tensors g' ∧
  (length (operations g) ≤ length (operations g'))%nat ∧
  ∀ j, j ∉ ks → (j < length (operations g))%nat →
       operations g' !! j = operations g !! j.

(** A statement whose effect on every graph stays within [frame ks]. *)
Definition framed {A} (ks : list nat) (m : M A) : Prop :=
  ∀ g, frame ks g (m g).2.

(** ** The entry point

    [generate_missing_names] and [assert_consistent] are methods of the IR
    library, not part of the sources at hand: they are the two parameters of
    the entry point. *)

Section PreConversion.

Variables generate_missing_names assert_consistent : M unit.

Definition pre_conversion_pass : M unit :=
  _transform_extract_padding;;;
  _transform_extract_bias_add;;;
  generate_missing_names;;;
  assert_consistent.

End PreConversion.

(** ** What the passes keep

    The relations between the graph a pass receives and the graph it leaves,
    whatever its outcome. *)

(** The operators the bias pass rewrites. *)
Definition has_bias (o : NNEFOperation) : Prop :=
  In (name o) ["conv"; "deconv"] ∧ (3 ≤ length (inputs o))%nat.

(** What the padding pass may change of an operation: its padding attribute
    and its first input, and nothing at all on an unsupported one. *)
Definition padding_keeps (o o' : NNEFOperation) : Prop :=
  name o' = name o ∧
  outputs o' = outputs o ∧
  drop 1 (inputs o') = drop 1 (inputs o) ∧
  length (inputs o') = length (inputs o) ∧
  (∀ key, key ≠ "padding" → attribs o' !! key = attribs o !! key) ∧
  (¬ In (name o) supported_ops → o' = o).

Definition padding_inv (g g' : NNEFGraph) : Prop :=
  tensors g `prefix_of` tensors g' ∧
  (∀ j o, operations g !! j = Some o →
          ∃ o', operations g' !! j = Some o' ∧ padding_keeps o o') ∧
  (∀ j o', (length (operations g) ≤ j)%nat → operations g' !! j = Some o' →
           ∃ i out x border d,
             o' = pad_operation i out x border d ∧
             (length (tensors g) ≤ out)%nat ∧
             tensors g' !! out = Some (pad_tensor x d) ∧
             tensors g' !! i = Some x) ∧
  (∀ t x, (length (tensors g) ≤ t)%nat → tensors g' !! t = Some x →
          tensor_name x = None ∧ is_constant x = false) ∧
  (length (operations g') + length (tensors g)
   = length (operations g) + length (tensors g'))%nat.

(** What the bias pass may change of an operation: its inputs beyond the
    second are dropped and its output replaced, and nothing at all on an
    operator without a bias input. *)
Definition bias_keeps (o o' : NNEFOperation) : Prop :=
  name o' = name o ∧
  attribs o' = attribs o ∧
  take 2 (inputs o') = take 2 (inputs o) ∧
  (inputs o' = inputs o ∨ inputs o' = take 2 (inputs o)) ∧
  (outputs o' = outputs o ∨ ∃ t, outputs o' = [t]) ∧
  (¬ has_bias o → o' = o).

Definition bias_inv (g g' : NNEFGraph) : Prop :=
  tensors g `prefix_of` tensors g' ∧
  (∀ j o, operations g !! j = Some o →
          ∃ o', operations g' !! j = Some o' ∧ bias_keeps o o') ∧
  (∀ j o', (length (operations g) ≤ j)%nat → operations g' !! j = Some o' →
           ∃ fresh b out t,
             o' = mkOperation "_bias_add" [fresh; b] [out] ∅ ∧
             (length (tensors g) ≤ fresh)%nat ∧
             tensors g' !! out = Some t ∧
             tensors g' !! fresh
               = Some (mkTensor None (shape t) (dtype t) false [])) ∧
  (∀ t x, (length (tensors g) ≤ t)%nat → tensors g' !! t = Some x →
          tensor_name x = None ∧ is_constant x = false) ∧
  (length (operations g') + length (tensors g)
   = length (operations g) + length (tensors g'))%nat.

(** What an iteration needs to find to complete: for the padding pass, typed
    attributes, no positive stored padding on a backward operator, and a
    first input in the graph where a padding operator must be built; for the
    bias pass, a bias tensor in the graph and, unless it is the constant
    [[0]], a single output in the graph. *)
Definition padding_ready (g : NNEFGraph) (h : nat) : Prop :=
  ∃ o, operations g !! h = Some o ∧
       (In (name o) supported_ops →
        ∃ pads b,
          attribs o !! "padding" = Some (APairs pads) ∧
          attribs o !! "border" = Some (AStr b) ∧
          (recursive_any pads positive = true →
           In (name o) forward_ops ∧
           ∃ i x, inputs o !! 0%nat = Some i ∧ tensors g !! i = Some x)).

Definition bias_ready (g : NNEFGraph) (h : nat) : Prop :=
  ∃ o, operations g !! h = Some o ∧
       (has_bias o →
        ∃ b bias,
          inputs o !! 2%nat = Some b ∧ tensors g !! b = Some bias ∧
          ((is_constant bias = true ∧ data bias = [0]) ∨
           ∃ out t, outputs o = [out] ∧ tensors g !! out = Some t)).

(** The operators ahead of which the padding pass builds a padding
    operator: forward ones whose stored padding has a positive entry. *)
Definition needs_padding (o : NNEFOperation) : bool :=
  str_elem (name o) forward_ops &&
  match attribs o !! "padding" with
  | Some pv =>
      match as_pairs pv with
      | Ok pads => recursive_any pads positive
      | Err _ => false
      end
  | None => false
  end.

(** The operators after which the bias pass builds a [_bias_add]:
    convolutions and deconvolutions with a third input that is not the
    constant [[0]]. *)
Definition splits_bias (g : NNEFGraph) (o : NNEFOperation) : bool :=
  str_elem (name o) ["conv"; "deconv"] && (3 <=? length (inputs o))%nat &&
  match inputs o !! 2%nat with
  | Some b =>
      match tensors g !! b with
      | Some bias => negb (is_constant bias && is_zero_data (data bias))
      | None => false
      end
  | None => false
  end.

(** ** Sample graphs

    Small graphs on which the statements below are run. *)

Module Sample.

Definition tensor (sh : list Z) : NNEFTensor :=
  mkTensor (Some "t") sh "scalar" false [].

Definition constant (sh : list Z) (d : list Z) : NNEFTensor :=
  mkTensor (Some "c") sh "scalar" true d.

Definition attrs (padding : list (Z * Z)) (border : string) (size : list Z)
    : gmap string attr :=
  <["padding" := APairs padding]>
    (<["border" := AStr border]>
      (<["size" := AInts size]>
        (<["stride" := AInts (replicate (length size) 1)]>
          (<["dilation" := AInts (replicate (length size) 1)]> ∅)))).

(** A 3x3 convolution with stored padding 1 and a bias input. *)
Definition conv_op : NNEFOperation :=
  mkOperation "conv" [0; 1; 2]%nat [3%nat] (attrs [(1, 1); (1, 1)] "constant" [1; 1]).

Definition conv_zero_bias : NNEFGraph :=
  mkGraph [tensor [1; 3; 10; 10]; tensor [8; 3; 3; 3]; constant [1; 8] [0];
           tensor [1; 8; 10; 10]]
          [conv_op].

Definition conv_with_bias : NNEFGraph :=
  mkGraph [tensor [1; 3; 10; 10]; tensor [8; 3; 3; 3]; tensor [1; 8];
           tensor [1; 8; 10; 10]]
          [conv_op].

(** A 1x1 convolution with no stored padding. *)
Definition pointwise (border : string) : NNEFGraph :=
  mkGraph [tensor [1; 3; 10; 10]; tensor [8; 3; 1; 1]; tensor [1; 8; 10; 10]]
          [mkOperation "conv" [0; 1]%nat [2%nat] (attrs [] border [1; 1])].

(** A pooling operator and a pooling gradient with no stored padding. *)
Definition pooling (nm border : string) (padding : list (Z * Z)) : NNEFGraph :=
  mkGraph [tensor [1; 1; 5; 5]; tensor [1; 1; 5; 5]; tensor [1; 1; 5; 5];
           tensor [1; 1; 5; 5]]
          [mkOperation nm [0; 1; 2]%nat [3%nat] (attrs padding border [1; 1; 3; 3])].

(** A deconvolution with stored padding 1. *)
Definition deconv : NNEFGraph :=
  mkGraph [tensor [1; 8; 10; 10]; tensor [8; 3; 3; 3]; tensor [1; 3; 10; 10]]
          [mkOperation "deconv" [0; 1]%nat [2%nat]
             (attrs [(1, 1); (1, 1)] "constant" [1; 1])].

(** A pooling gradient whose stored padding crops, and one with no stored
    padding whose shapes imply a padding of 1. *)
Definition pool_grad_cropped : NNEFGraph :=
  pooling "max_pool_grad" "constant" [(0, 0); (0, 0); (-1, 0); (-1, 0)].

Definition pool_grad_auto : NNEFGraph :=
  pooling "max_pool_grad" "constant" [].

(** The padding and border of [conv_op], the border in capitals, on a
    convolution with other inputs and sizes. *)
Definition conv_upper : NNEFGraph :=
  mkGraph [tensor [1; 1; 4; 4]; tensor [2; 2]; tensor [7]]
          [mkOperation "conv" [2; 0]%nat [1%nat]
             (attrs [(1, 1); (1, 1)] "CONSTANT" [5; 5])].

(** A convolution with no attribute at all. *)
Definition bare : NNEFGraph :=
  mkGraph [tensor [1; 3; 10; 10]; tensor [8; 3; 3; 3]; tensor [1; 8; 10; 10]]
          [mkOperation "conv" [0; 1]%nat [2%nat] ∅].

(** A pooling operator with a stored padding and no input. *)
Definition no_input : NNEFGraph :=
  mkGraph [tensor [1; 1; 5; 5]]
          [mkOperation "max_pool" [] [0%nat]
             (attrs [(0, 0); (0, 0); (1, 1); (1, 1)] "ignore" [1; 1; 3; 3])].

End Sample.

(** * Properties *)

(** ** Padding arithmetic *)

Section Arithmetic.

Lemma round53_exact (t : Z) : Z.abs t <= 2 ^ 53 → PyFloat.round53 t = t.
Proof.
  intros Ht. unfold PyFloat.round53.
  destruct (Z.eq_dec (Z.abs t) (2 ^ 53)) as [E | NE].
  - destruct (Z.abs_eq_or_opp t) as [H | H]; rewrite H in E.
    + subst t. vm_compute. reflexivity.
    + assert (t = - 2 ^ 53) as -> by lia. vm_compute. reflexivity.
  - assert (Hlt : Z.abs t < 2 ^ 53) by lia.
    assert (Hlog : Z.log2 (Z.abs t) < 53).
    { destruct (Z.eq_dec (Z.abs t) 0) as [E0 | N0].
      - rewrite E0. simpl. lia.
      - apply Z.log2_lt_pow2; lia. }
    destruct (Z.leb_spec (Z.log2 (Z.abs t) + 1 - 53) 0); [reflexivity | lia].
Qed.

Lemma true_div2_exact (t : Z) : Z.abs t <= 2 ^ 53 → PyFloat.true_div2 t = Ok t.
Proof.
  intros Ht. unfold PyFloat.true_div2. rewrite round53_exact by assumption.
  assert (2 ^ 53 < 2 ^ 1025) by (apply Z.pow_lt_mono_r; lia).
  destruct (Z.ltb_spec (Z.abs t) (2 ^ 1025)); [reflexivity | lia].
Qed.

Lemma floor_ceil_sum (m : Z) : PyFloat.floor m + PyFloat.ceil m = m.
Proof.
  unfold PyFloat.floor, PyFloat.ceil.
  pose proof (Z.div_mod m 2). pose proof (Z.mod_pos_bound m 2).
  pose proof (Z.div_mod (- m) 2). pose proof (Z.mod_pos_bound (- m) 2). lia.
Qed.

Lemma floor_ceil_gap (m : Z) :
  PyFloat.ceil m - PyFloat.floor m = 0 ∨ PyFloat.ceil m - PyFloat.floor m = 1.
Proof.
  unfold PyFloat.floor, PyFloat.ceil.
  pose proof (Z.div_mod m 2). pose proof (Z.mod_pos_bound m 2).
  pose proof (Z.div_mod (- m) 2). pose proof (Z.mod_pos_bound (- m) 2). lia.
Qed.

Lemma floor_spec (m : Z) : 2 * PyFloat.floor m <= m < 2 * PyFloat.floor m + 2.
Proof.
  unfold PyFloat.floor.
  pose proof (Z.div_mod m 2). pose proof (Z.mod_pos_bound m 2). lia.
Qed.

Lemma ceil_spec (m : Z) : 2 * PyFloat.ceil m - 2 < m <= 2 * PyFloat.ceil m.
Proof.
  unfold PyFloat.ceil.
  pose proof (Z.div_mod (- m) 2). pose proof (Z.mod_pos_bound (- m) 2). lia.
Qed.

Lemma _calculate_padding_elem_exact (U D F S L : Z) :
  Z.abs (padding_total U D F S L) <= 2 ^ 53 →
  _calculate_padding_elem U D F S L =
    Ok (PyFloat.floor (padding_total U D F S L),
        PyFloat.ceil (padding_total U D F S L)).
Proof.
  intros Ht. unfold _calculate_padding_elem.
  fold (padding_total U D F S L).
  rewrite true_div2_exact by assumption. reflexivity.
Qed.

End Arithmetic.

(** C2 (as stated, refuted): with a filter size of [2^53 + 1] the total
    padding is [2^53 + 1]; the float quotient [total / 2] rounds to [2^52],
    so [before] and [after] are both [2^52], and their sum is not the
    total. *)
Lemma C2_counterexample :
  ∃ before after,
    _calculate_padding_elem 0 1 (2 ^ 53 + 1) 1 1 = Ok (before, after) ∧
    before + after ≠ padding_total 0 1 (2 ^ 53 + 1) 1 1.
Proof.
  exists (2 ^ 52), (2 ^ 52). split.
  - vm_compute. reflexivity.
  - vm_compute. discriminate.
Qed.

(** C2 (amended): for all integer inputs whose total padding
    [total = (D - 1) * S + ((F - 1) * L + 1) - U] is at most [2^53] in
    absolute value (so that the float quotient [total / 2] is exact), the
    per-dimension computation returns [(before, after)] with
    [before = floor(total / 2)], [after = ceil(total / 2)],
    [before + after = total] and [after - before] equal to 0 or 1. *)
Theorem C2_padding_elem_floor_ceil (U D F S L : Z) :
  Z.abs (padding_total U D F S L) <= 2 ^ 53 →
  ∃ before after,
    _calculate_padding_elem U D F S L = Ok (before, after) ∧
    2 * before <= padding_total U D F S L < 2 * before + 2 ∧
    2 * after - 2 < padding_total U D F S L <= 2 * after ∧
    before + after = padding_total U D F S L ∧
    (after - before = 0 ∨ after - before = 1).
Proof.
  intros Ht.
  exists (PyFloat.floor (padding_total U D F S L)),
         (PyFloat.ceil (padding_total U D F S L)).
  split; [by apply _calculate_padding_elem_exact |].
  split; [apply floor_spec |].
  split; [apply ceil_spec |].
  split; [apply floor_ceil_sum | apply floor_ceil_gap].
Qed.

Lemma C2_padding_elem_floor_ceil_witness :
  Z.abs (padding_total 10 10 3 1 1) <= 2 ^ 53 ∧
  ∃ before after,
    _calculate_padding_elem 10 10 3 1 1 = Ok (before, after) ∧
    2 * before <= padding_total 10 10 3 1 1 < 2 * before + 2 ∧
    2 * after - 2 < padding_total 10 10 3 1 1 <= 2 * after ∧
    before + after = padding_total 10 10 3 1 1 ∧
    (after - before = 0 ∨ after - before = 1).
Proof.
  split.
  - vm_compute. discriminate.
  - apply (C2_padding_elem_floor_ceil 10 10 3 1 1). vm_compute. discriminate.
Defined.

(** ** The statement monad *)

Section Monad.

Context {A B : Type}.

Lemma bind_Ok (m : M A) (k : A → M B) g a g' :
  m g = (Ok a, g') → bind m k g = k a g'.
Proof. intros H. unfold bind. by rewrite H. Qed.

Lemma bind_Err (m : M A) (k : A → M B) g e g' :
  m g = (Err e, g') → bind m k g = (Err e, g').
Proof. intros H. unfold bind. by rewrite H. Qed.

Lemma bind_inv_Ok (m : M A) (k : A → M B) g b g' :
  bind m k g = (Ok b, g') → ∃ a g1, m g = (Ok a, g1) ∧ k a g1 = (Ok b, g').
Proof.
  unfold bind. destruct (m g) as [[a | e] g1]; [eauto | discriminate].
Qed.

Lemma readonly_ret (a : A) : readonly (ret a).
Proof. by intros g. Qed.

Lemma readonly_raise (e : error) : readonly (@raise A e).
Proof. by intros g. Qed.

Lemma readonly_lift (r : result A) : readonly (lift r).
Proof. by intros g. Qed.

Lemma readonly_bind (m : M A) (k : A → M B) :
  readonly m → (∀ a, readonly (k a)) → readonly (bind m k).
Proof.
  intros Hm Hk g. unfold bind. specialize (Hm g).
  destruct (m g) as [[a | e] g1]; simpl in *; subst g1; [apply Hk | done].
Qed.

End Monad.

Lemma readonly_get_op i : readonly (get_op i).
Proof. intros g. unfold get_op. by destruct (operations g !! i). Qed.

Lemma readonly_get_tensor t : readonly (get_tensor t).
Proof. intros g. unfold get_tensor. by destruct (tensors g !! t). Qed.

Lemma readonly_if {A} (b : bool) (m1 m2 : M A) :
  readonly m1 → readonly m2 → readonly (if b then m1 else m2).
Proof. by destruct b. Qed.

Create HintDb readonly.
#[local] Hint Resolve readonly_ret readonly_raise readonly_lift
  readonly_get_op readonly_get_tensor : readonly.

Ltac readonly_tac :=
  repeat first
    [ apply readonly_bind; [| intros ? ]
    | apply readonly_if
    | match goal with |- readonly (match ?x with _ => _ end) => destruct x end
    | solve [ auto with readonly ] ].

Lemma readonly_implied_padding o : readonly (implied_padding o).
Proof. unfold implied_padding. readonly_tac. Qed.

Lemma readonly__get_paddings h : readonly (_get_paddings h).
Proof.
  unfold _get_paddings. readonly_tac.
Qed.

(** ** Graph primitives *)

Lemma get_op_Ok g i o : operations g !! i = Some o → get_op i g = (Ok o, g).
Proof. intros H. unfold get_op. by rewrite H. Qed.

Lemma get_tensor_Ok g t x : tensors g !! t = Some x → get_tensor t g = (Ok x, g).
Proof. intros H. unfold get_tensor. by rewrite H. Qed.

Lemma set_attrib_Ok g i o key v :
  operations g !! i = Some o →
  set_attrib i key v g =
    (Ok tt, mkGraph (tensors g) (<[i := with_attrib o key v]> (operations g))).
Proof. intros H. unfold set_attrib, modify_op. by rewrite H. Qed.

Lemma set_inputs_Ok g i o ts :
  operations g !! i = Some o →
  set_inputs i ts g =
    (Ok tt, mkGraph (tensors g) (<[i := with_inputs o ts]> (operations g))).
Proof. intros H. unfold set_inputs, modify_op. by rewrite H. Qed.

Lemma set_outputs_Ok g i o ts :
  operations g !! i = Some o →
  set_outputs i ts g =
    (Ok tt, mkGraph (tensors g) (<[i := with_outputs o ts]> (operations g))).
Proof. intros H. unfold set_outputs, modify_op. by rewrite H. Qed.

Lemma lift_Ok {A} (r : result A) (a : A) g : r = Ok a → lift r g = (Ok a, g).
Proof. by intros ->. Qed.

Lemma str_elem_In s l : str_elem s l = true ↔ In s l.
Proof.
  unfold str_elem. rewrite existsb_exists. split.
  - intros (x & Hx & E). apply String.eqb_eq in E. by subst.
  - intros H. exists s. split; [done | apply String.eqb_refl].
Qed.

Lemma str_elem_not_In s l : str_elem s l = false ↔ ¬ In s l.
Proof.
  rewrite <- str_elem_In. destruct (str_elem s l); split; congruence.
Qed.

(** ** The resolver *)

(** The resolver never reaches the shape arithmetic: an empty stored padding
    has no positive entry, so the third branch returns before it. *)
Lemma _get_paddings_resolve g h o pads b :
  operations g !! h = Some o →
  attribs o !! "padding" = Some (APairs pads) →
  attribs o !! "border" = Some (AStr b) →
  _get_paddings h g = (Ok (resolve (name o) pads (lower b)), g).
Proof.
  intros Hop Hp Hb. unfold _get_paddings.
  rewrite (bind_Ok _ _ _ _ _ (get_op_Ok _ _ _ Hop)).
  unfold attrib. rewrite Hp, Hb. unfold bind at 1 2 3 4. cbn [lift as_pairs as_str].
  unfold resolve.
  destruct ((length pads =? 0)%nat && str_in "pool" (name o)
            && String.eqb (lower b) "ignore"); [done |].
  destruct ((length pads =? 0)%nat && str_in "conv" (name o)
            && String.eqb (lower b) "constant"); [done |].
  destruct (recursive_any pads positive) eqn:Hany; [| done].
  cbn [negb].
  destruct pads as [| p pads']; [discriminate |].
  cbn [length Nat.eqb]. unfold bind, ret. rewrite Hany.
  by destruct (str_in "conv" (name o)).
Qed.

Lemma resolve_in_op nm pads b :
  in_op (resolve nm pads b) = _InOpPadding.VALID ∨
  in_op (resolve nm pads b) = _InOpPadding.SAME.
Proof.
  unfold resolve.
  repeat match goal with |- context [if ?c then _ else _] => destruct c end;
    auto.
Qed.

Lemma resolve_descriptor nm pads b :
  out_of_op (resolve nm pads b) ≠ None ↔ recursive_any pads positive = true.
Proof.
  unfold resolve.
  destruct pads as [| p pads'].
  - cbn. repeat match goal with |- context [if ?c then _ else _] => destruct c end;
      cbn; split; congruence.
  - cbn [length Nat.eqb andb].
    destruct (recursive_any (p :: pads') positive); cbn [negb].
    + destruct (str_in "conv" nm); cbn; split; congruence.
    + cbn. split; congruence.
Qed.

(** ** One iteration of the padding pass *)

Lemma forward_not_backward nm : In nm forward_ops → str_elem nm backward_ops = false.
Proof.
  intros H. cbn in H.
  repeat (destruct H as [<- | H]; [reflexivity |]). contradiction.
Qed.

Lemma forward_supported nm : In nm forward_ops → str_elem nm supported_ops = true.
Proof. intros H. apply str_elem_In. unfold supported_ops. apply in_or_app. auto. Qed.

Lemma backward_supported nm : In nm backward_ops → str_elem nm supported_ops = true.
Proof. intros H. apply str_elem_In. unfold supported_ops. apply in_or_app. auto. Qed.

Lemma resolve_Some_in_op nm pads b d :
  out_of_op (resolve nm pads b) = Some d →
  in_op (resolve nm pads b) = _InOpPadding.VALID.
Proof.
  unfold resolve.
  repeat match goal with |- context [if ?c then _ else _] => destruct c end;
    cbn; congruence.
Qed.

Section PaddingStep.

Variables (g : NNEFGraph) (h : nat) (o : NNEFOperation).
Variables (pads : list (Z * Z)) (b : string).
Hypothesis Hop : operations g !! h = Some o.
Hypothesis Hp : attribs o !! "padding" = Some (APairs pads).
Hypothesis Hb : attribs o !! "border" = Some (AStr b).

Let p := resolve (name o) pads (lower b).
Let o1 := with_attrib o "padding" (AStr (in_op p)).
Let g1 := mkGraph (tensors g) (<[h := o1]> (operations g)).

Lemma step_g1_lookup : operations g1 !! h = Some o1.
Proof.
  unfold g1. cbn. apply list_lookup_insert_eq. by eapply lookup_lt_Some.
Qed.

Lemma extract_padding_body_prefix :
  str_elem (name o) supported_ops = true →
  extract_padding_body h g =
    ((if str_elem (name o) backward_ops
      then assert (bool_decide (out_of_op p = None)) else ret tt);;;
     match out_of_op p with
     | Some separate_padding =>
         do nnefop <- get_op h;
         do i <- lift (index (inputs nnefop) 0);
         do input <- get_tensor i;
         do border <- lift (attrib nnefop "border");
         do out <- new_tensor (pad_tensor input separate_padding);
         do pad_op <- new_operation
              (pad_operation i out input border separate_padding);
         do pad <- get_op pad_op;
         do pad_output <- lift (output pad);
         do nnefop <- get_op h;
         set_inputs h ([pad_output] ++ drop 1 (inputs nnefop))
     | None => ret tt
     end) g1.
Proof using Hop Hp Hb.
  intros Hs. unfold extract_padding_body.
  rewrite (bind_Ok _ _ _ _ _ (get_op_Ok _ _ _ Hop)). rewrite Hs.
  rewrite (bind_Ok _ _ _ _ _ (_get_paddings_resolve _ _ _ _ _ Hop Hp Hb)).
  rewrite (bind_Ok _ _ _ _ _ (set_attrib_Ok _ _ _ _ _ Hop)).
  reflexivity.
Qed.

(** No descriptor: only the padding attribute is written. *)
Lemma extract_padding_body_None :
  str_elem (name o) supported_ops = true →
  out_of_op p = None →
  extract_padding_body h g = (Ok tt, g1).
Proof using Hop Hp Hb.
  intros Hs Hn. rewrite (extract_padding_body_prefix Hs).
  rewrite Hn. unfold bind.
  by destruct (str_elem (name o) backward_ops).
Qed.

(** A descriptor on a backward operator: the assertion fails, after the
    attribute was written. *)
Lemma extract_padding_body_backward_Some d :
  In (name o) backward_ops →
  out_of_op p = Some d →
  extract_padding_body h g = (Err AssertionError, g1).
Proof using Hop Hp Hb.
  intros Hbk Hd.
  rewrite (extract_padding_body_prefix (backward_supported _ Hbk)).
  rewrite Hd. unfold bind.
  apply str_elem_In in Hbk. by rewrite Hbk.
Qed.

(** A descriptor on a forward operator: the padding operator and its
    output tensor are appended, and the first input is rewired. *)
Lemma extract_padding_body_forward_Some d i rest x :
  In (name o) forward_ops →
  out_of_op p = Some d →
  inputs o = i :: rest →
  tensors g !! i = Some x →
  extract_padding_body h g =
    (Ok tt,
     mkGraph (tensors g ++ [pad_tensor x d])
       (<[h := with_inputs o1 (length (tensors g) :: rest)]> (operations g)
        ++ [pad_operation i (length (tensors g)) x (AStr b) d])).
Proof using Hop Hp Hb.
  intros Hfw Hd Hin Hx.
  rewrite (extract_padding_body_prefix (forward_supported _ Hfw)).
  rewrite Hd, (forward_not_backward _ Hfw).
  pose proof step_g1_lookup as H1.
  assert (Hlt : (h < length (operations g))%nat) by by eapply lookup_lt_Some.
  unfold bind at 1. cbn [ret].
  rewrite (bind_Ok _ _ _ _ _ (get_op_Ok _ _ _ H1)).
  assert (Hi : index (inputs o1) 0 = Ok i) by (cbn; by rewrite Hin).
  rewrite (bind_Ok _ _ _ _ _ (lift_Ok _ _ _ Hi)).
  rewrite (bind_Ok _ _ _ _ _ (get_tensor_Ok g1 _ _ Hx)).
  assert (Hbd : attrib o1 "border" = Ok (AStr b)).
  { unfold attrib, o1, with_attrib. cbn [attribs].
    rewrite lookup_insert_ne by done. by rewrite Hb. }
  rewrite (bind_Ok _ _ _ _ _ (lift_Ok _ _ _ Hbd)).
  unfold bind at 1, new_tensor at 1. cbn [tensors operations g1].
  unfold bind at 1, new_operation at 1. cbn [tensors operations].
  set (pad := pad_operation _ _ _ _ _).
  set (ops1 := <[h := o1]> (operations g)).
  set (g3 := mkGraph _ (ops1 ++ [pad])).
  assert (Hpad : operations g3 !! length ops1 = Some pad).
  { cbn. rewrite lookup_app_r by lia. by rewrite Nat.sub_diag. }
  rewrite (bind_Ok _ _ _ _ _ (get_op_Ok _ _ _ Hpad)).
  unfold bind at 1. cbn [lift output outputs pad pad_operation].
  assert (Hh3 : operations g3 !! h = Some o1).
  { cbn. rewrite lookup_app_l; [exact H1 |].
    unfold ops1. by rewrite length_insert. }
  rewrite (bind_Ok _ _ _ _ _ (get_op_Ok _ _ _ Hh3)).
  rewrite (set_inputs_Ok _ _ _ _ Hh3). cbn [tensors operations g3].
  f_equal. f_equal.
  rewrite insert_app_l by (unfold ops1; by rewrite length_insert).
  unfold ops1. rewrite list_insert_insert_eq.
  cbn [inputs o1 with_attrib]. rewrite Hin. reflexivity.
Qed.

End PaddingStep.

Lemma extract_padding_body_unsupported g h o :
  operations g !! h = Some o →
  ¬ In (name o) supported_ops →
  extract_padding_body h g = (Ok tt, g).
Proof.
  intros Hop Hn. unfold extract_padding_body.
  rewrite (bind_Ok _ _ _ _ _ (get_op_Ok _ _ _ Hop)).
  apply str_elem_not_In in Hn. by rewrite Hn.
Qed.

(** ** Frames: what an iteration leaves untouched *)

Lemma frame_refl ks g : frame ks g g.
Proof. by repeat split. Qed.

Lemma frame_trans ks g g1 g2 : frame ks g g1 → frame ks g1 g2 → frame ks g g2.
Proof.
  intros (Ht1 & Hl1 & Ho1) (Ht2 & Hl2 & Ho2). repeat split.
  - by etrans.
  - lia.
  - intros j Hj Hlt. rewrite Ho2 by (done || lia). by apply Ho1.
Qed.

Lemma frame_mono ks ks' g g' : ks ⊆ ks' → frame ks g g' → frame ks' g g'.
Proof.
  intros Hsub (Ht & Hl & Ho). repeat split; [done.. |].
  intros j Hj Hlt. apply Ho; [| done]. intros Hin. by apply Hj, Hsub.
Qed.

Lemma framed_readonly {A} ks (m : M A) : readonly m → framed ks m.
Proof. intros Hm g. rewrite Hm. apply frame_refl. Qed.

Lemma framed_bind {A B} ks (m : M A) (k : A → M B) :
  framed ks m → (∀ a, framed ks (k a)) → framed ks (bind m k).
Proof.
  intros Hm Hk g. unfold bind. specialize (Hm g).
  destruct (m g) as [[a | e] g1]; cbn in *; [| done].
  eapply frame_trans; [exact Hm | apply Hk].
Qed.

Lemma framed_if {A} ks (c : bool) (m1 m2 : M A) :
  framed ks m1 → framed ks m2 → framed ks (if c then m1 else m2).
Proof. by destruct c. Qed.

Lemma framed_modify_op k f : framed [k] (modify_op k f).
Proof.
  intros g. unfold modify_op.
  destruct (operations g !! k) as [o |]; [| apply frame_refl].
  repeat split; cbn.
  - done.
  - by rewrite length_insert.
  - intros j Hj _. apply list_lookup_insert_ne. set_solver.
Qed.

Lemma framed_new_tensor ks t : framed ks (new_tensor t).
Proof.
  intros g. repeat split; cbn; [by apply prefix_app_r | done..].
Qed.

Lemma framed_new_operation ks o : framed ks (new_operation o).
Proof.
  intros g. repeat split; cbn.
  - done.
  - rewrite length_app. lia.
  - intros j _ Hlt. by apply lookup_app_l.
Qed.

Lemma framed_assert ks c : framed ks (assert c).
Proof. apply framed_readonly. unfold assert. by destruct c. Qed.

Ltac framed_tac :=
  repeat first
    [ apply framed_bind; [| intros ? ]
    | apply framed_if
    | apply framed_modify_op
    | apply framed_new_tensor
    | apply framed_new_operation
    | apply framed_assert
    | match goal with |- framed _ (match ?x with _ => _ end) => destruct x end
    | solve [ apply framed_readonly; auto using readonly__get_paddings with readonly ] ].

Lemma framed_extract_padding_body k : framed [k] (extract_padding_body k).
Proof. unfold extract_padding_body, set_attrib, set_inputs. framed_tac. Qed.

Lemma framed_extract_bias_add_body k : framed [k] (extract_bias_add_body k).
Proof.
  unfold extract_bias_add_body, set_inputs, set_outputs. framed_tac.
Qed.

(** ** Loops over a snapshot *)

Section Loop.

Variable body : nat → M unit.
Hypothesis body_framed : ∀ k, framed [k] (body k).

Lemma framed_for_each l : framed l (for_each l body).
Proof using body_framed.
  induction l as [| k l IH]; cbn [for_each].
  - apply framed_readonly, readonly_ret.
  - apply framed_bind.
    + intros g. eapply frame_mono; [| apply body_framed].
      intros x ->%list_elem_of_singleton. apply list_elem_of_here.
    + intros _ g. eapply frame_mono; [| apply IH].
      by apply list_subseteq_cons.
Qed.

Lemma for_each_app l1 l2 g :
  for_each (l1 ++ l2) body g = (for_each l1 body;;; for_each l2 body) g.
Proof.
  revert g. induction l1 as [| k l1 IH]; intros g; cbn [for_each app].
  - reflexivity.
  - unfold bind. destruct (body k g) as [[[] | e] g1]; [| done].
    rewrite IH. reflexivity.
Qed.

(** A successful loop ran the body once on every handle of the snapshot:
    on a graph where that operation is still as it was at the start, and
    leaving a result that the rest of the loop does not touch. *)
Lemma for_each_snapshot_step g g' k :
  for_each (snapshot g) body g = (Ok tt, g') →
  (k < length (operations g))%nat →
  ∃ g1 g2,
    body k g1 = (Ok tt, g2) ∧
    operations g1 !! k = operations g !! k ∧
    tensors g `prefix_of` tensors g1 ∧
    (length (operations g) ≤ length (operations g1))%nat ∧
    tensors g2 `prefix_of` tensors g' ∧
    ∀ j, j = k ∨ (length (operations g) ≤ j)%nat →
         (j < length (operations g2))%nat →
         operations g' !! j = operations g2 !! j.
Proof using body_framed.
  intros Hrun Hk. unfold snapshot in Hrun.
  set (n := length (operations g)) in *.
  assert (Hsplit : seq 0 n = seq 0 k ++ k :: seq (S k) (n - S k)).
  { replace n with (k + S (n - S k))%nat at 1 by lia.
    rewrite seq_app. reflexivity. }
  rewrite Hsplit, for_each_app in Hrun.
  apply bind_inv_Ok in Hrun as ([] & g1 & H1 & Hrun).
  cbn [for_each] in Hrun.
  apply bind_inv_Ok in Hrun as ([] & g2 & H2 & H3).
  pose proof (framed_for_each (seq 0 k) g) as (Ft1 & Fl1 & Fo1).
  pose proof (framed_for_each (seq (S k) (n - S k)) g2) as (Ft3 & Fl3 & Fo3).
  rewrite H1 in Ft1, Fl1, Fo1. rewrite H3 in Ft3, Fl3, Fo3. cbn in *.
  exists g1, g2. repeat split; try done.
  - apply Fo1; [| done]. rewrite list_elem_of_In, in_seq. lia.
  - intros j Hj Hlt. apply Fo3; [| done].
    rewrite list_elem_of_In, in_seq. fold n in Hj. lia.
Qed.

End Loop.

(** ** One iteration of the bias pass *)

Section BiasStep.

Variables (g : NNEFGraph) (h : nat) (o : NNEFOperation).
Variables (b : nat) (bias : NNEFTensor).
Hypothesis Hop : operations g !! h = Some o.
Hypothesis Hname : In (name o) ["conv"; "deconv"].
Hypothesis Hb : inputs o !! 2%nat = Some b.
Hypothesis Hbias : tensors g !! b = Some bias.

Let o1 := with_inputs o (take 2 (inputs o)).
Let g1 := mkGraph (tensors g) (<[h := o1]> (operations g)).

Lemma bias_g1_lookup : operations g1 !! h = Some o1.
Proof using Hop.
  unfold g1. cbn. apply list_lookup_insert_eq. by eapply lookup_lt_Some.
Qed.

Lemma extract_bias_add_body_prefix :
  extract_bias_add_body h g =
    (if negb (is_constant bias && is_zero_data (data bias)) then
       do nnefop <- get_op h;
       do o <- lift (output nnefop);
       do output_with_bias <- get_tensor o;
       do output_without_bias <- new_tensor
            (mkTensor None (shape output_with_bias) (dtype output_with_bias)
                      false []);
       set_outputs h [output_without_bias];;;
       do _ <- new_operation
            (mkOperation "_bias_add" [output_without_bias; b] [o] ∅);
       ret tt
     else ret tt) g1.
Proof using Hop Hname Hb Hbias.
  unfold extract_bias_add_body.
  rewrite (bind_Ok _ _ _ _ _ (get_op_Ok _ _ _ Hop)).
  apply str_elem_In in Hname. rewrite Hname.
  assert (Hlen : (3 <=? length (inputs o))%nat = true).
  { apply Nat.leb_le. apply lookup_lt_Some in Hb. lia. }
  rewrite Hlen. cbn [andb].
  assert (Hi : index (inputs o) 2 = Ok b) by (unfold index; by rewrite Hb).
  rewrite (bind_Ok _ _ _ _ _ (lift_Ok _ _ _ Hi)).
  rewrite (bind_Ok _ _ _ _ _ (set_inputs_Ok _ _ _ _ Hop)).
  rewrite (bind_Ok _ _ _ _ _ (get_tensor_Ok g1 _ _ Hbias)).
  reflexivity.
Qed.

(** A constant bias equal to [[0]]: the inputs are truncated and nothing
    else happens. *)
Lemma extract_bias_add_body_zero :
  is_constant bias = true → data bias = [0] →
  extract_bias_add_body h g = (Ok tt, g1).
Proof using Hop Hname Hb Hbias.
  intros Hc Hd. rewrite extract_bias_add_body_prefix, Hc, Hd. reflexivity.
Qed.

(** Any other bias: a fresh output tensor and a [_bias_add] operation. *)
Lemma extract_bias_add_body_nonzero out t :
  ¬ (is_constant bias = true ∧ data bias = [0]) →
  outputs o = [out] →
  tensors g !! out = Some t →
  extract_bias_add_body h g =
    (Ok tt,
     mkGraph (tensors g ++ [mkTensor None (shape t) (dtype t) false []])
       (<[h := with_outputs o1 [length (tensors g)]]> (operations g)
        ++ [mkOperation "_bias_add" [length (tensors g); b] [out] ∅])).
Proof using Hop Hname Hb Hbias.
  intros Hnz Hout Ht. rewrite extract_bias_add_body_prefix.
  assert (Hc : negb (is_constant bias && is_zero_data (data bias)) = true).
  { apply negb_true_iff, andb_false_iff.
    destruct (is_constant bias); [right | by left].
    unfold is_zero_data. apply bool_decide_eq_false. intros Hd. by apply Hnz. }
  rewrite Hc. pose proof bias_g1_lookup as H1.
  assert (Hlt : (h < length (operations g))%nat) by by eapply lookup_lt_Some.
  rewrite (bind_Ok _ _ _ _ _ (get_op_Ok _ _ _ H1)).
  assert (Ho : output o1 = Ok out) by (unfold output; cbn; by rewrite Hout).
  rewrite (bind_Ok _ _ _ _ _ (lift_Ok _ _ _ Ho)).
  rewrite (bind_Ok _ _ _ _ _ (get_tensor_Ok g1 _ _ Ht)).
  unfold bind at 1, new_tensor at 1. cbn [tensors operations g1].
  set (g2 := mkGraph _ _).
  assert (H2 : operations g2 !! h = Some o1) by exact H1.
  rewrite (bind_Ok _ _ _ _ _ (set_outputs_Ok _ _ _ _ H2)).
  unfold bind, new_operation, ret. cbn [tensors operations g2].
  rewrite list_insert_insert_eq. reflexivity.
Qed.

End BiasStep.

Lemma extract_bias_add_body_skip g h o :
  operations g !! h = Some o →
  ¬ (In (name o) ["conv"; "deconv"] ∧ (3 ≤ length (inputs o))%nat) →
  extract_bias_add_body h g = (Ok tt, g).
Proof.
  intros Hop Hn. unfold extract_bias_add_body.
  rewrite (bind_Ok _ _ _ _ _ (get_op_Ok _ _ _ Hop)).
  destruct (str_elem (name o) ["conv"; "deconv"]) eqn:E; [| done].
  destruct (3 <=? length (inputs o))%nat eqn:L; [| done].
  exfalso. apply Hn. split; [by apply str_elem_In | by apply Nat.leb_le].
Qed.

(** ** The passes as loops *)

Lemma _transform_extract_padding_unfold g :
  _transform_extract_padding g = for_each (snapshot g) extract_padding_body g.
Proof. reflexivity. Qed.

Lemma _transform_extract_bias_add_unfold g :
  _transform_extract_bias_add g = for_each (snapshot g) extract_bias_add_body g.
Proof. reflexivity. Qed.

Lemma padded_shape_lookup sh d k s p q :
  sh !! k = Some s → d !! k = Some (p, q) →
  padded_shape sh d !! k = Some (s + p + q).
Proof.
  intros Hs Hd. unfold padded_shape. rewrite lookup_zip_with, Hs. cbn.
  by rewrite Hd.
Qed.

Lemma padded_shape_length sh d :
  length (padded_shape sh d) = Nat.min (length sh) (length d).
Proof. unfold padded_shape. apply length_zip_with. Qed.

(** ** A backward operator stops the padding pass *)

(** C1 (as stated, refuted): a deconvolution is a supported operator, and
    with a stored padding of 1 its decision carries an explicit descriptor;
    the pass then stops at the assertion on gradient kinds, and the graph it
    leaves has no padding operator and the same inputs on the
    deconvolution. *)
Lemma C1_counterexample :
  In "deconv" supported_ops ∧
  (outcome (_get_paddings 0) Sample.deconv =
     Ok (mk_Paddings "VALID" (Some [(0, 0); (0, 0); (1, 1); (1, 1)]))) ∧
  outcome _transform_extract_padding Sample.deconv = Err AssertionError ∧
  length (operations (final _transform_extract_padding Sample.deconv)) = 1%nat ∧
  (inputs <$> operations (final _transform_extract_padding Sample.deconv) !! 0%nat)
    = Some [0; 1]%nat.
Proof.
  split; [cbn; tauto |].
  split; [vm_compute; reflexivity |].
  split; [vm_compute; reflexivity |].
  split; vm_compute; reflexivity.
Qed.

(** The padding pass and the bias pass both complete on the sample
    convolution. *)
Example passes_complete :
  outcome _transform_extract_padding Sample.conv_zero_bias = Ok tt ∧
  outcome _transform_extract_bias_add Sample.conv_zero_bias = Ok tt ∧
  outcome _transform_extract_bias_add Sample.conv_with_bias = Ok tt ∧
  outcome _transform_extract_padding (Sample.pooling "max_pool" "ignore" []) = Ok tt.
Proof. repeat split; vm_compute; reflexivity. Qed.

(** ** Backward operators (C3, C9, C10) *)

Lemma recursive_any_resolve_Some nm pads b :
  recursive_any pads positive = true →
  ∃ d, out_of_op (resolve nm pads b) = Some d.
Proof.
  intros H. apply resolve_descriptor with (nm := nm) (b := b) in H.
  destruct (out_of_op (resolve nm pads b)) as [d |]; [eauto | done].
Qed.

Lemma recursive_any_resolve_None nm pads b :
  recursive_any pads positive = false →
  out_of_op (resolve nm pads b) = None.
Proof.
  intros H. destruct (out_of_op (resolve nm pads b)) as [d |] eqn:E; [| done].
  assert (out_of_op (resolve nm pads b) ≠ None) as Hn by (by rewrite E).
  apply resolve_descriptor in Hn. congruence.
Qed.

(** C3 (as stated, refuted): a pooling gradient whose stored padding has the
    non-zero pairs [(-1, 0)] is neither rejected nor given a descriptor: the
    pass succeeds, writes [VALID] and inserts nothing, because the resolver
    looks for positive entries only. *)
Lemma C3_counterexample :
  In "max_pool_grad" backward_ops ∧
  ((λ o, attribs o !! "padding") <$> operations Sample.pool_grad_cropped !! 0%nat)
    = Some (Some (APairs [(0, 0); (0, 0); (-1, 0); (-1, 0)])) ∧
  outcome (_get_paddings 0) Sample.pool_grad_cropped
    = Ok (mk_Paddings "VALID" None) ∧
  outcome _transform_extract_padding Sample.pool_grad_cropped = Ok tt ∧
  ((λ o, attribs o !! "padding") <$>
     operations (final _transform_extract_padding Sample.pool_grad_cropped) !! 0%nat)
    = Some (Some (AStr "VALID")) ∧
  length (operations (final _transform_extract_padding Sample.pool_grad_cropped))
    = 1%nat.
Proof.
  split; [cbn; tauto |].
  split; [vm_compute; reflexivity |].
  split; [vm_compute; reflexivity |].
  split; [vm_compute; reflexivity |].
  split; vm_compute; reflexivity.
Qed.

(** C3 (amended): for every backward/gradient-kind operator with a
    non-empty stored padding, the pass never inserts a separate padding
    operator.  The resolver's decision is tagged "valid" or "same"; it
    carries an explicit descriptor exactly when some entry of the stored
    padding is positive, and then the iteration, and with it the whole pass,
    fails with an assertion error; otherwise the iteration succeeds.  In both
    cases the iteration only writes the tag: no operator and no tensor is
    added. *)
Theorem C3_backward_never_padded g h o pads b :
  operations g !! h = Some o →
  In (name o) backward_ops →
  attribs o !! "padding" = Some (APairs pads) →
  pads ≠ [] →
  attribs o !! "border" = Some (AStr b) →
  ∃ p,
    _get_paddings h g = (Ok p, g) ∧
    (in_op p = _InOpPadding.VALID ∨ in_op p = _InOpPadding.SAME) ∧
    (out_of_op p ≠ None ↔ recursive_any pads positive = true) ∧
    (out_of_op p ≠ None →
       outcome (extract_padding_body h) g = Err AssertionError ∧
       ∀ g', _transform_extract_padding g ≠ (Ok tt, g')) ∧
    (out_of_op p = None →
       outcome (extract_padding_body h) g = Ok tt) ∧
    final (extract_padding_body h) g =
      mkGraph (tensors g)
        (<[h := with_attrib o "padding" (AStr (in_op p))]> (operations g)).
Proof.
  intros Hop Hbk Hp _ Hb.
  exists (resolve (name o) pads (lower b)).
  split; [by apply _get_paddings_resolve |].
  split; [apply resolve_in_op |].
  split; [apply resolve_descriptor |].
  destruct (out_of_op (resolve (name o) pads (lower b))) as [d |] eqn:Hd.
  - pose proof (extract_padding_body_backward_Some g h o pads b Hop Hp Hb d Hbk Hd)
      as Hstep.
    split; [| split; [done |]].
    + intros _. split; [unfold outcome; by rewrite Hstep |].
      intros g' Hrun. rewrite _transform_extract_padding_unfold in Hrun.
      destruct (for_each_snapshot_step _ framed_extract_padding_body g g' h Hrun)
        as (g1 & g2 & Hbody & Hop1 & _).
      { by eapply lookup_lt_Some. }
      rewrite Hop in Hop1.
      rewrite (extract_padding_body_backward_Some g1 h o pads b Hop1 Hp Hb d Hbk Hd)
        in Hbody.
      discriminate.
    + unfold final. by rewrite Hstep.
  - pose proof (extract_padding_body_None g h o pads b Hop Hp Hb
                  (backward_supported _ Hbk) Hd) as Hstep.
    split; [done |].
    split; [intros _; unfold outcome; by rewrite Hstep |].
    unfold final. by rewrite Hstep.
Qed.

Lemma C3_backward_never_padded_witness :
  ∃ p,
    _get_paddings 0 Sample.deconv = (Ok p, Sample.deconv) ∧
    (in_op p = _InOpPadding.VALID ∨ in_op p = _InOpPadding.SAME) ∧
    (out_of_op p ≠ None ↔ recursive_any [(1, 1); (1, 1)] positive = true) ∧
    (out_of_op p ≠ None →
       outcome (extract_padding_body 0) Sample.deconv = Err AssertionError ∧
       ∀ g', _transform_extract_padding Sample.deconv ≠ (Ok tt, g')) ∧
    (out_of_op p = None →
       outcome (extract_padding_body 0) Sample.deconv = Ok tt) ∧
    final (extract_padding_body 0) Sample.deconv =
      mkGraph (tensors Sample.deconv)
        (<[0%nat := with_attrib
                      (mkOperation "deconv" [0; 1]%nat [2%nat]
                         (Sample.attrs [(1, 1); (1, 1)] "constant" [1; 1]))
                      "padding" (AStr (in_op p))]>
           (operations Sample.deconv)).
Proof.
  apply (C3_backward_never_padded Sample.deconv 0
           (mkOperation "deconv" [0; 1]%nat [2%nat]
              (Sample.attrs [(1, 1); (1, 1)] "constant" [1; 1]))
           [(1, 1); (1, 1)] "constant").
  - reflexivity.
  - cbn. tauto.
  - vm_compute. reflexivity.
  - discriminate.
  - vm_compute. reflexivity.
Defined.

(** The shape arithmetic of the resolver is never consulted: on a pooling
    gradient with no stored padding and border [constant], the shapes imply
    a padding of 1 in both spatial dimensions, yet the decision is [VALID]
    with no descriptor. *)
Example empty_padding_skips_arithmetic :
  (∃ o, operations Sample.pool_grad_auto !! 0%nat = Some o ∧
        outcome (implied_padding o) Sample.pool_grad_auto
          = Ok [(0, 0); (0, 0); (1, 1); (1, 1)]) ∧
  outcome (_get_paddings 0) Sample.pool_grad_auto
    = Ok (mk_Paddings "VALID" None).
Proof.
  split.
  - eexists. split; [reflexivity |]. vm_compute. reflexivity.
  - vm_compute. reflexivity.
Qed.

(** C9: a backward operator with an empty stored padding goes through: a
    pooling gradient with border "ignore", or a deconvolution or
    convolution-filter gradient with border "constant", has "pool" (resp.
    "conv") in its name, is resolved to "same" with no descriptor, and its
    iteration succeeds, the assertion on gradient kinds holding. *)
Theorem C9_backward_empty_padding_same g h o b :
  operations g !! h = Some o →
  attribs o !! "padding" = Some (APairs []) →
  attribs o !! "border" = Some (AStr b) →
  (In (name o) ["max_pool_grad_with_index"; "avg_pool_grad"; "max_pool_grad"] ∧
   lower b = "ignore") ∨
  (In (name o) ["deconv"; "conv_grad_filter"] ∧ lower b = "constant") →
  In (name o) backward_ops ∧
  (str_in "pool" (name o) || str_in "conv" (name o) = true) ∧
  _get_paddings h g = (Ok (mk_Paddings _InOpPadding.SAME None), g) ∧
  extract_padding_body h g =
    (Ok tt,
     mkGraph (tensors g)
       (<[h := with_attrib o "padding" (AStr _InOpPadding.SAME)]> (operations g))).
Proof.
  intros Hop Hp Hb Hkind.
  assert (Hbk : In (name o) backward_ops).
  { destruct Hkind as [[Hn _] | [Hn _]]; cbn in Hn |- *; tauto. }
  assert (Hres : resolve (name o) [] (lower b) = mk_Paddings _InOpPadding.SAME None).
  { destruct Hkind as [[Hn ->] | [Hn ->]]; cbn in Hn;
      repeat (destruct Hn as [<- | Hn]; [reflexivity |]); contradiction. }
  split; [done |].
  split.
  { destruct Hkind as [[Hn _] | [Hn _]]; cbn in Hn;
      repeat (destruct Hn as [<- | Hn]; [reflexivity |]); contradiction. }
  split.
  { rewrite (_get_paddings_resolve _ _ _ _ _ Hop Hp Hb). by rewrite Hres. }
  rewrite (extract_padding_body_None g h o [] b Hop Hp Hb
             (backward_supported _ Hbk)); by rewrite Hres.
Qed.

Lemma C9_backward_empty_padding_same_witness :
  In "max_pool_grad" backward_ops ∧
  (str_in "pool" "max_pool_grad" || str_in "conv" "max_pool_grad" = true) ∧
  _get_paddings 0 (Sample.pooling "max_pool_grad" "ignore" [])
    = (Ok (mk_Paddings _InOpPadding.SAME None),
       Sample.pooling "max_pool_grad" "ignore" []) ∧
  extract_padding_body 0 (Sample.pooling "max_pool_grad" "ignore" []) =
    (Ok tt,
     mkGraph (tensors (Sample.pooling "max_pool_grad" "ignore" []))
       (<[0%nat := with_attrib
                     (mkOperation "max_pool_grad" [0; 1; 2]%nat [3%nat]
                        (Sample.attrs [] "ignore" [1; 1; 3; 3]))
                     "padding" (AStr _InOpPadding.SAME)]>
          (operations (Sample.pooling "max_pool_grad" "ignore" [])))).
Proof.
  apply (C9_backward_empty_padding_same
           (Sample.pooling "max_pool_grad" "ignore" []) 0
           (mkOperation "max_pool_grad" [0; 1; 2]%nat [3%nat]
              (Sample.attrs [] "ignore" [1; 1; 3; 3]))
           "ignore").
  - reflexivity.
  - vm_compute. reflexivity.
  - vm_compute. reflexivity.
  - left. split; [cbn; tauto | reflexivity].
Defined.

Lemma for_each_unsupported l g :
  (∀ k, k ∈ l → ∃ o, operations g !! k = Some o ∧ ¬ In (name o) supported_ops) →
  for_each l extract_padding_body g = (Ok tt, g).
Proof.
  induction l as [| k l IH]; intros Hl; cbn [for_each]; [done |].
  destruct (Hl k) as (o & Hop & Hn); [apply list_elem_of_here |].
  rewrite (bind_Ok _ _ _ _ _ (extract_padding_body_unsupported _ _ _ Hop Hn)).
  apply IH. intros k' Hk'. apply Hl. by apply list_elem_of_further.
Qed.

(** C10: the failure on a backward operator whose padding does not reduce
    is not atomic: the iteration first overwrites the padding attribute with
    the "valid" tag and then fails at the assertion, so the graph left behind
    differs from the one received, the stored padding being lost.  The loop
    stops there; when only unsupported operators precede it, this is the
    outcome of the whole pass. *)
Theorem C10_failure_not_atomic g h o pads b :
  operations g !! h = Some o →
  In (name o) backward_ops →
  attribs o !! "padding" = Some (APairs pads) →
  attribs o !! "border" = Some (AStr b) →
  recursive_any pads positive = true →
  ∃ g',
    extract_padding_body h g = (Err AssertionError, g') ∧
    g' ≠ g ∧
    (∃ o', operations g' !! h = Some o' ∧
           attribs o' !! "padding" = Some (AStr _InOpPadding.VALID) ∧
           attribs o' !! "padding" ≠ attribs o !! "padding") ∧
    (∀ l, for_each (h :: l) extract_padding_body g = (Err AssertionError, g')) ∧
    ((∀ k, (k < h)%nat →
        ∃ o', operations g !! k = Some o' ∧ ¬ In (name o') supported_ops) →
     _transform_extract_padding g = (Err AssertionError, g')).
Proof.
  intros Hop Hbk Hp Hb Hany.
  destruct (recursive_any_resolve_Some (name o) pads (lower b) Hany) as [d Hd].
  pose proof (extract_padding_body_backward_Some g h o pads b Hop Hp Hb d Hbk Hd)
    as Hstep.
  rewrite (resolve_Some_in_op _ _ _ _ Hd) in Hstep.
  assert (Hlt : (h < length (operations g))%nat) by by eapply lookup_lt_Some.
  eexists. split; [exact Hstep |].
  assert (Hnew : (<[h := with_attrib o "padding" (AStr _InOpPadding.VALID)]>
                    (operations g)) !! h
                 = Some (with_attrib o "padding" (AStr _InOpPadding.VALID)))
    by by apply list_lookup_insert_eq.
  split.
  { intros E. apply (f_equal (λ x, operations x !! h)) in E. cbn in E.
    rewrite Hnew, Hop in E. injection E as E.
    apply (f_equal (λ x, attribs x !! "padding")) in E. cbn in E.
    rewrite lookup_insert_eq, Hp in E. discriminate. }
  split.
  { eexists. split; [exact Hnew |]. cbn [attribs with_attrib].
    rewrite lookup_insert_eq, Hp. split; [done | discriminate]. }
  split.
  { intros l. cbn [for_each]. by rewrite (bind_Err _ _ _ _ _ Hstep). }
  intros Hbefore. rewrite _transform_extract_padding_unfold. unfold snapshot.
  replace (length (operations g)) with (h + S (length (operations g) - S h))%nat
    by lia.
  rewrite seq_app, for_each_app. cbn [seq for_each].
  rewrite (bind_Ok _ _ g tt g).
  - by rewrite (bind_Err _ _ _ _ _ Hstep).
  - apply for_each_unsupported. intros k Hk. apply Hbefore.
    apply list_elem_of_In, in_seq in Hk. lia.
Qed.

Lemma C10_failure_not_atomic_witness :
  ∃ g',
    extract_padding_body 0 Sample.deconv = (Err AssertionError, g') ∧
    g' ≠ Sample.deconv ∧
    (∃ o', operations g' !! 0%nat = Some o' ∧
           attribs o' !! "padding" = Some (AStr _InOpPadding.VALID) ∧
           attribs o' !! "padding"
             ≠ Sample.attrs [(1, 1); (1, 1)] "constant" [1; 1] !! "padding") ∧
    (∀ l, for_each (0%nat :: l) extract_padding_body Sample.deconv
            = (Err AssertionError, g')) ∧
    ((∀ k, (k < 0)%nat →
        ∃ o', operations Sample.deconv !! k = Some o' ∧
              ¬ In (name o') supported_ops) →
     _transform_extract_padding Sample.deconv = (Err AssertionError, g')).
Proof.
  apply (C10_failure_not_atomic Sample.deconv 0
           (mkOperation "deconv" [0; 1]%nat [2%nat]
              (Sample.attrs [(1, 1); (1, 1)] "constant" [1; 1]))
           [(1, 1); (1, 1)] "constant").
  - reflexivity.
  - cbn. tauto.
  - vm_compute. reflexivity.
  - vm_compute. reflexivity.
  - reflexivity.
Defined.

(** ** Decisions without a descriptor (C6, C7, C8) *)

Lemma _calculate_padding_elem_unit (i : Z) :
  _calculate_padding_elem i i 1 1 1 = Ok (0, 0).
Proof.
  rewrite _calculate_padding_elem_exact.
  - replace (padding_total i i 1 1 1) with 0 by (unfold padding_total; lia).
    reflexivity.
  - replace (padding_total i i 1 1 1) with 0 by (unfold padding_total; lia).
    vm_compute. discriminate.
Qed.

Lemma _calculate_padding_unit (sh fs ss ds : list Z) :
  Forall (λ f, f = 1) fs → Forall (λ s, s = 1) ss → Forall (λ d, d = 1) ds →
  ∃ ps, _calculate_padding sh sh fs ss ds = Ok ps ∧ Forall (λ p, p = (0, 0)) ps.
Proof.
  revert fs ss ds. induction sh as [| i sh IH]; intros fs ss ds Hf Hs Hd.
  - exists []. by destruct fs, ss, ds.
  - destruct Hf as [| f fs Ef Hf]; [by exists [] |].
    destruct Hs as [| s ss Es Hs]; [by exists [] |].
    destruct Hd as [| d ds Ed Hd]; [by exists [] |].
    subst f s d. cbn [_calculate_padding].
    rewrite _calculate_padding_elem_unit.
    destruct (IH fs ss ds Hf Hs Hd) as (ps & -> & Hps).
    exists ((0, 0) :: ps). split; [done | by constructor].
Qed.

Lemma recursive_any_zero pads :
  Forall (λ p, p = (0, 0)) pads → recursive_any pads positive = false.
Proof.
  induction 1 as [| p pads -> _ IH]; [done |]. cbn. exact IH.
Qed.

(** C6 (as stated, refuted): a 1x1 convolution with stride 1, dilation 1,
    equal input and output spatial shapes, no stored padding and border
    "constant": the computed padding is all-zero, but the decision is "same",
    not "valid". *)
Lemma C6_counterexample :
  _calculate_padding [10; 10] [10; 10] [1; 1] [1; 1] [1; 1] = Ok [(0, 0); (0, 0)] ∧
  outcome (_get_paddings 0) (Sample.pointwise "constant")
    = Ok (mk_Paddings "SAME" None) ∧
  in_op (mk_Paddings "SAME" None) ≠ _InOpPadding.VALID.
Proof.
  split; [vm_compute; reflexivity |].
  split; [vm_compute; reflexivity | discriminate].
Qed.

(** C6 (amended): for every convolution operator with stride 1, dilation 1
    and filter size 1 in every spatial dimension and equal input and output
    spatial shapes, whose stored padding is empty or all-zero, the computed
    padding is all-zero and the decision carries no explicit descriptor; it
    is "valid", except that an empty stored padding with border "constant"
    gives "same". *)
Theorem C6_pointwise_convolution g h o pads b ss ds i f rest out x w y :
  operations g !! h = Some o →
  name o = "conv" →
  attribs o !! "padding" = Some (APairs pads) →
  Forall (λ p, p = (0, 0)) pads →
  attribs o !! "border" = Some (AStr b) →
  attribs o !! "stride" = Some (AInts ss) → Forall (λ s, s = 1) ss →
  attribs o !! "dilation" = Some (AInts ds) → Forall (λ d, d = 1) ds →
  inputs o = i :: f :: rest → outputs o = [out] →
  tensors g !! i = Some x → tensors g !! f = Some w → tensors g !! out = Some y →
  Forall (λ s, s = 1) (drop 2 (shape w)) →
  drop 2 (shape y) = drop 2 (shape x) →
  (∃ ps, calculate_with_attribs o (drop 2 (shape x)) (drop 2 (shape y))
                                (drop 2 (shape w)) = Ok ps ∧
         Forall (λ p, p = (0, 0)) ps) ∧
  _get_paddings h g =
    (Ok (mk_Paddings
           (if bool_decide (pads = []) && String.eqb (lower b) "constant"
            then _InOpPadding.SAME else _InOpPadding.VALID)
           None), g).
Proof.
  intros Hop Hname Hp Hzero Hb Hs Hss Hd Hds Hin Hout Hx Hw Hy Hfs Heq.
  split.
  - unfold calculate_with_attribs, attrib. rewrite Hs, Hd. cbn [as_ints].
    rewrite Heq. by apply _calculate_padding_unit.
  - rewrite (_get_paddings_resolve _ _ _ _ _ Hop Hp Hb). f_equal. f_equal.
    unfold resolve. rewrite Hname, (recursive_any_zero _ Hzero).
    destruct pads as [| p pads']; [| reflexivity].
    cbn. by destruct (String.eqb (lower b) "constant").
Qed.

Lemma C6_pointwise_convolution_witness :
  (∃ ps, calculate_with_attribs
           (mkOperation "conv" [0; 1]%nat [2%nat] (Sample.attrs [] "replicate" [1; 1]))
           [10; 10] [10; 10] [1; 1] = Ok ps ∧
         Forall (λ p, p = (0, 0)) ps) ∧
  _get_paddings 0 (Sample.pointwise "replicate") =
    (Ok (mk_Paddings _InOpPadding.VALID None), Sample.pointwise "replicate").
Proof.
  apply (C6_pointwise_convolution (Sample.pointwise "replicate") 0
           (mkOperation "conv" [0; 1]%nat [2%nat] (Sample.attrs [] "replicate" [1; 1]))
           [] "replicate" [1; 1] [1; 1] 0%nat 1%nat [] 2%nat
           (Sample.tensor [1; 3; 10; 10]) (Sample.tensor [8; 3; 1; 1])
           (Sample.tensor [1; 8; 10; 10])).
  - reflexivity.
  - reflexivity.
  - vm_compute. reflexivity.
  - constructor.
  - vm_compute. reflexivity.
  - vm_compute. reflexivity.
  - repeat constructor.
  - vm_compute. reflexivity.
  - repeat constructor.
  - reflexivity.
  - reflexivity.
  - reflexivity.
  - reflexivity.
  - reflexivity.
  - repeat constructor.
  - reflexivity.
Defined.

(** C7: for every pooling-kind operator (a supported operator with "pool"
    in its name) whose stored padding is empty and whose border is "ignore",
    the decision is exactly ("same", no descriptor); its iteration succeeds
    and changes nothing in the graph but the operator's padding attribute,
    which becomes the "same" tag, and this is the operator found after a
    successful pass. *)
Theorem C7_pooling_ignore_same g h o b :
  operations g !! h = Some o →
  In (name o) supported_ops →
  str_in "pool" (name o) = true →
  attribs o !! "padding" = Some (APairs []) →
  attribs o !! "border" = Some (AStr b) →
  lower b = "ignore" →
  _get_paddings h g = (Ok (mk_Paddings _InOpPadding.SAME None), g) ∧
  extract_padding_body h g =
    (Ok tt,
     mkGraph (tensors g)
       (<[h := with_attrib o "padding" (AStr _InOpPadding.SAME)]> (operations g))) ∧
  ∀ g', _transform_extract_padding g = (Ok tt, g') →
        operations g' !! h = Some (with_attrib o "padding" (AStr _InOpPadding.SAME)).
Proof.
  intros Hop Hsup Hpool Hp Hb Hig.
  assert (Hres : resolve (name o) [] (lower b) = mk_Paddings _InOpPadding.SAME None).
  { unfold resolve. rewrite Hpool, Hig. reflexivity. }
  assert (Hstep : ∀ g0, operations g0 !! h = Some o →
            extract_padding_body h g0 =
              (Ok tt,
               mkGraph (tensors g0)
                 (<[h := with_attrib o "padding" (AStr _InOpPadding.SAME)]>
                    (operations g0)))).
  { intros g0 Hop0.
    rewrite (extract_padding_body_None g0 h o [] b Hop0 Hp Hb);
      [by rewrite Hres | by apply str_elem_In | by rewrite Hres]. }
  split.
  { rewrite (_get_paddings_resolve _ _ _ _ _ Hop Hp Hb). by rewrite Hres. }
  split; [by apply Hstep |].
  intros g' Hrun. rewrite _transform_extract_padding_unfold in Hrun.
  destruct (for_each_snapshot_step _ framed_extract_padding_body g g' h Hrun)
    as (g1 & g2 & Hbody & Hop1 & _ & _ & _ & Hrest).
  { by eapply lookup_lt_Some. }
  rewrite Hop in Hop1. rewrite (Hstep g1 Hop1) in Hbody. injection Hbody as <-.
  assert (Hlt : (h < length (operations g1))%nat) by by eapply lookup_lt_Some.
  rewrite Hrest; cbn [operations].
  - by apply list_lookup_insert_eq.
  - by left.
  - by rewrite length_insert.
Qed.

Lemma C7_pooling_ignore_same_witness :
  _get_paddings 0 (Sample.pooling "max_pool" "ignore" [])
    = (Ok (mk_Paddings _InOpPadding.SAME None),
       Sample.pooling "max_pool" "ignore" []) ∧
  extract_padding_body 0 (Sample.pooling "max_pool" "ignore" []) =
    (Ok tt,
     mkGraph (tensors (Sample.pooling "max_pool" "ignore" []))
       (<[0%nat := with_attrib
                     (mkOperation "max_pool" [0; 1; 2]%nat [3%nat]
                        (Sample.attrs [] "ignore" [1; 1; 3; 3]))
                     "padding" (AStr _InOpPadding.SAME)]>
          (operations (Sample.pooling "max_pool" "ignore" [])))) ∧
  ∀ g', _transform_extract_padding (Sample.pooling "max_pool" "ignore" [])
          = (Ok tt, g') →
        operations g' !! 0%nat
          = Some (with_attrib
                    (mkOperation "max_pool" [0; 1; 2]%nat [3%nat]
                       (Sample.attrs [] "ignore" [1; 1; 3; 3]))
                    "padding" (AStr _InOpPadding.SAME)).
Proof.
  apply (C7_pooling_ignore_same (Sample.pooling "max_pool" "ignore" []) 0
           (mkOperation "max_pool" [0; 1; 2]%nat [3%nat]
              (Sample.attrs [] "ignore" [1; 1; 3; 3]))
           "ignore").
  - reflexivity.
  - cbn. tauto.
  - reflexivity.
  - vm_compute. reflexivity.
  - vm_compute. reflexivity.
  - reflexivity.
Defined.

(** C8: the resolver leaves the graph as it found it, whatever its outcome;
    and on every operator of a supported kind whose padding and border
    attributes are a list of pairs and a string, it returns a decision,
    tagged "valid" or "same". *)
Theorem C8_resolver_does_not_mutate g h o pads b :
  operations g !! h = Some o →
  In (name o) supported_ops →
  attribs o !! "padding" = Some (APairs pads) →
  attribs o !! "border" = Some (AStr b) →
  (∃ p, outcome (_get_paddings h) g = Ok p ∧
        (in_op p = _InOpPadding.VALID ∨ in_op p = _InOpPadding.SAME)) ∧
  final (_get_paddings h) g = g ∧
  ∀ g0 h0, final (_get_paddings h0) g0 = g0.
Proof.
  intros Hop _ Hp Hb. split; [| split].
  - exists (resolve (name o) pads (lower b)). split; [| apply resolve_in_op].
    unfold outcome. by rewrite (_get_paddings_resolve _ _ _ _ _ Hop Hp Hb).
  - apply readonly__get_paddings.
  - intros g0 h0. apply readonly__get_paddings.
Qed.

Lemma C8_resolver_does_not_mutate_witness :
  (∃ p, outcome (_get_paddings 0) Sample.conv_zero_bias = Ok p ∧
        (in_op p = _InOpPadding.VALID ∨ in_op p = _InOpPadding.SAME)) ∧
  final (_get_paddings 0) Sample.conv_zero_bias = Sample.conv_zero_bias ∧
  ∀ g0 h0, final (_get_paddings h0) g0 = g0.
Proof.
  apply (C8_resolver_does_not_mutate Sample.conv_zero_bias 0 Sample.conv_op
           [(1, 1); (1, 1)] "constant").
  - reflexivity.
  - cbn. tauto.
  - vm_compute. reflexivity.
  - vm_compute. reflexivity.
Defined.

(** ** Operators the bias pass leaves alone *)

(** An operator the bias pass does not qualify is the same after a
    successful pass. *)
Lemma bias_pass_skips g g' k o' :
  _transform_extract_bias_add g = (Ok tt, g') →
  operations g !! k = Some o' →
  ¬ (In (name o') ["conv"; "deconv"] ∧ (3 ≤ length (inputs o'))%nat) →
  operations g' !! k = Some o'.
Proof.
  intros Hrun Hop Hn. rewrite _transform_extract_bias_add_unfold in Hrun.
  destruct (for_each_snapshot_step _ framed_extract_bias_add_body g g' k Hrun)
    as (g1 & g2 & Hbody & Hop1 & _ & _ & _ & Hrest).
  { by eapply lookup_lt_Some. }
  rewrite Hop in Hop1.
  rewrite (extract_bias_add_body_skip _ _ _ Hop1 Hn) in Hbody.
  injection Hbody as <-.
  rewrite Hrest; [done | by left | by eapply lookup_lt_Some].
Qed.

(** * Further properties of the code *)

(** ** The arithmetic beyond the exact range *)

Lemma round53_even (t : Z) :
  2 ^ 53 < Z.abs t → ∃ c, PyFloat.round53 t = 2 * c.
Proof.
  intros Ht. unfold PyFloat.round53. cbv zeta.
  assert (Hlog : 53 <= Z.log2 (Z.abs t)) by (apply Z.log2_le_pow2; lia).
  destruct (Z.leb_spec (Z.log2 (Z.abs t) + 1 - 53) 0) as [Hle | Hgt]; [lia |].
  set (e := Z.log2 (Z.abs t) + 1 - 53) in *.
  match goal with
  | |- context [if ?c then ?x else ?y] => set (q' := if c then x else y)
  end.
  exists (Z.sgn t * (q' * 2 ^ (e - 1))).
  replace (2 ^ e) with (2 * 2 ^ (e - 1)).
  - ring.
  - rewrite <- Z.pow_succ_r by lia. f_equal. lia.
Qed.

Lemma round53_bound (t : Z) : Z.abs (PyFloat.round53 t) <= 2 * Z.abs t.
Proof.
  unfold PyFloat.round53. cbv zeta.
  destruct (Z.leb_spec (Z.log2 (Z.abs t) + 1 - 53) 0) as [Hle | Hgt]; [lia |].
  set (a := Z.abs t) in *. set (e := Z.log2 a + 1 - 53) in *.
  assert (Ha : 0 < a).
  { destruct (Z.eq_dec a 0) as [E | N]; [| lia].
    unfold e in Hgt. rewrite E in Hgt. cbn in Hgt. lia. }
  assert (Hpow : 0 < 2 ^ e) by (apply Z.pow_pos_nonneg; lia).
  assert (Hea : 2 ^ e <= a).
  { transitivity (2 ^ Z.log2 a).
    - apply Z.pow_le_mono_r; lia.
    - apply Z.log2_spec. lia. }
  pose proof (Z.div_mod a (2 ^ e) ltac:(lia)) as Hdm.
  pose proof (Z.mod_pos_bound a (2 ^ e) Hpow) as Hmod.
  assert (Hq : 0 <= a / 2 ^ e) by (apply Z.div_pos; lia).
  set (q := a / 2 ^ e) in *.
  match goal with
  | |- context [if ?c then ?x else ?y] => set (q' := if c then x else y)
  end.
  assert (Hq' : 0 <= q' <= q + 1) by (unfold q'; destruct (_ || _)%bool; lia).
  assert (Hs : Z.abs (Z.sgn t) = 1).
  { destruct (Z.abs_eq_or_opp t) as [E | E]; fold a in E.
    - rewrite Z.sgn_pos by lia. reflexivity.
    - rewrite Z.sgn_neg by lia. reflexivity. }
  rewrite Z.abs_mul, Hs, Z.abs_eq by nia. nia.
Qed.

(** X1: whenever the per-dimension computation returns, [after - before] is 0
    or 1, whatever the magnitude of the inputs; and once the total exceeds
    [2^53] in absolute value the float quotient is a whole number, so
    [before] and [after] coincide. *)
Theorem padding_elem_gap (U D F S L before after : Z) :
  _calculate_padding_elem U D F S L = Ok (before, after) →
  (after - before = 0 ∨ after - before = 1) ∧
  (2 ^ 53 < Z.abs (padding_total U D F S L) → before = after).
Proof.
  unfold _calculate_padding_elem. fold (padding_total U D F S L).
  unfold PyFloat.true_div2.
  destruct (Z.abs (PyFloat.round53 (padding_total U D F S L)) <? 2 ^ 1025);
    [| discriminate].
  intros [= <- <-]. split; [apply floor_ceil_gap |].
  intros Hbig. destruct (round53_even _ Hbig) as [c ->].
  unfold PyFloat.floor, PyFloat.ceil.
  replace (- (2 * c)) with ((- c) * 2) by ring.
  replace (2 * c) with (c * 2) by ring.
  rewrite !Z.div_mul by lia. lia.
Qed.

Lemma padding_elem_gap_witness :
  (2 ^ 52 - 2 ^ 52 = 0 ∨ 2 ^ 52 - 2 ^ 52 = 1) ∧
  (2 ^ 53 < Z.abs (padding_total 0 1 (2 ^ 53 + 1) 1 1) → 2 ^ 52 = 2 ^ 52).
Proof.
  apply (padding_elem_gap 0 1 (2 ^ 53 + 1) 1 1 (2 ^ 52) (2 ^ 52)).
  vm_compute. reflexivity.
Defined.

(** X2: the per-dimension computation returns a pair whenever the total
    padding is below [2^1024] in absolute value; its only failure is the
    overflow of the float quotient. *)
Theorem padding_elem_returns (U D F S L : Z) :
  Z.abs (padding_total U D F S L) < 2 ^ 1024 →
  ∃ before after, _calculate_padding_elem U D F S L = Ok (before, after).
Proof.
  intros Ht. unfold _calculate_padding_elem. fold (padding_total U D F S L).
  unfold PyFloat.true_div2.
  pose proof (round53_bound (padding_total U D F S L)) as Hb.
  assert (Hp : 2 ^ 1025 = 2 * 2 ^ 1024) by (rewrite <- Z.pow_succ_r by lia; reflexivity).
  destruct (Z.ltb_spec (Z.abs (PyFloat.round53 (padding_total U D F S L))) (2 ^ 1025));
    [eauto | lia].
Qed.

Lemma padding_elem_returns_witness :
  ∃ before after, _calculate_padding_elem 0 1 (2 ^ 60) 3 7 = Ok (before, after).
Proof.
  apply (padding_elem_returns 0 1 (2 ^ 60) 3 7). vm_compute. reflexivity.
Defined.

(** X3: within the exact range, the computed pair has a positive entry
    exactly when the total padding is positive: a total that is zero or
    negative (the output is smaller than the padded extent) gives nothing the
    resolver's [x > 0] test would see. *)
Theorem padding_elem_positive_iff (U D F S L before after : Z) :
  Z.abs (padding_total U D F S L) <= 2 ^ 53 →
  _calculate_padding_elem U D F S L = Ok (before, after) →
  (recursive_any [(before, after)] positive = true ↔ 0 < padding_total U D F S L).
Proof.
  intros Ht. rewrite _calculate_padding_elem_exact by assumption.
  intros [= <- <-]. cbn. rewrite orb_false_r, orb_true_iff.
  unfold positive. rewrite !Z.ltb_lt.
  pose proof (floor_spec (padding_total U D F S L)).
  pose proof (ceil_spec (padding_total U D F S L)). lia.
Qed.

Lemma padding_elem_positive_iff_witness :
  recursive_any [(-1, 0)] positive = true ↔ 0 < padding_total 10 4 3 2 1.
Proof.
  apply (padding_elem_positive_iff 10 4 3 2 1 (-1) 0).
  - vm_compute. discriminate.
  - vm_compute. reflexivity.
Defined.

(** X4: [_calculate_padding] is the element computation mapped over the zip
    of its five arguments: a successful result has the length of the shortest
    argument, and its [k]-th pair is the element computation on the [k]-th
    entries. *)
Theorem _calculate_padding_zip (us ds fs ss dls : list Z) (ps : list (Z * Z)) :
  _calculate_padding us ds fs ss dls = Ok ps →
  length ps = Nat.min (length us) (Nat.min (length ds) (Nat.min (length fs)
                (Nat.min (length ss) (length dls)))) ∧
  ∀ k i o f s d,
    us !! k = Some i → ds !! k = Some o → fs !! k = Some f →
    ss !! k = Some s → dls !! k = Some d →
    ∃ p, ps !! k = Some p ∧ _calculate_padding_elem i o f s d = Ok p.
Proof.
  revert ds fs ss dls ps.
  induction us as [| i0 us IH]; intros ds fs ss dls ps.
  { cbn. intros [= <-]. split; [done |]. intros k ? ? ? ? ? Hk. by destruct k. }
  destruct ds as [| o0 ds];
    [cbn; intros [= <-]; split; [done |]; intros k ? ? ? ? ? _ Hk; by destruct k |].
  destruct fs as [| f0 fs];
    [cbn; intros [= <-]; split; [done |]; intros k ? ? ? ? ? _ _ Hk; by destruct k |].
  destruct ss as [| s0 ss];
    [cbn; intros [= <-]; split; [done |]; intros k ? ? ? ? ? _ _ _ Hk; by destruct k |].
  destruct dls as [| d0 dls];
    [cbn; intros [= <-]; split; [done |]; intros k ? ? ? ? ? _ _ _ _ Hk; by destruct k |].
  cbn [_calculate_padding].
  destruct (_calculate_padding_elem i0 o0 f0 s0 d0) as [p0 | e] eqn:He; [| discriminate].
  destruct (_calculate_padding us ds fs ss dls) as [ps' | e] eqn:Hrec; [| discriminate].
  intros [= <-]. destruct (IH _ _ _ _ _ Hrec) as [Hlen Hnth].
  split; [cbn; by rewrite Hlen |].
  intros [| k] i o f s d; cbn.
  - intros [= <-] [= <-] [= <-] [= <-] [= <-]. eauto.
  - apply Hnth.
Qed.

Lemma _calculate_padding_zip_witness :
  length [(1, 1); (0, 1)] = Nat.min (length [10; 10; 7]) (Nat.min (length [10; 5])
      (Nat.min (length [3; 3]) (Nat.min (length [1; 2; 1]) (length [1; 1])))) ∧
  ∀ k i o f s d,
    [10; 10; 7] !! k = Some i → [10; 5] !! k = Some o → [3; 3] !! k = Some f →
    [1; 2; 1] !! k = Some s → [1; 1] !! k = Some d →
    ∃ p, [(1, 1); (0, 1)] !! k = Some p ∧ _calculate_padding_elem i o f s d = Ok p.
Proof.
  apply (_calculate_padding_zip [10; 10; 7] [10; 5] [3; 3] [1; 2; 1] [1; 1]).
  vm_compute. reflexivity.
Defined.

(** ** The resolver, whatever the attributes *)

Lemma _get_paddings_typed g h o pv pads bv b :
  operations g !! h = Some o →
  attribs o !! "padding" = Some pv → as_pairs pv = Ok pads →
  attribs o !! "border" = Some bv → as_str bv = Ok b →
  _get_paddings h g = (Ok (resolve (name o) pads (lower b)), g).
Proof.
  intros Hop Hp Hpv Hb Hbv.
  destruct bv as [s | |]; try discriminate. injection Hbv as ->.
  destruct pv as [| l | l]; try discriminate.
  - destruct l; [| discriminate]. injection Hpv as <-.
    unfold _get_paddings.
    rewrite (bind_Ok _ _ _ _ _ (get_op_Ok _ _ _ Hop)).
    unfold attrib. rewrite Hp, Hb. unfold bind at 1 2 3 4.
    cbn [lift as_pairs as_str length Nat.eqb andb recursive_any existsb negb].
    unfold resolve. cbn [length Nat.eqb andb recursive_any existsb negb].
    destruct (str_in "pool" (name o) && String.eqb (lower b) "ignore"); [done |].
    by destruct (str_in "conv" (name o) && String.eqb (lower b) "constant").
  - injection Hpv as <-. by apply _get_paddings_resolve.
Qed.

(** A decision is only ever returned for an operator of the graph whose
    attributes have the expected types, and it is [resolve] of them. *)
Lemma _get_paddings_inv g h p g' :
  _get_paddings h g = (Ok p, g') →
  g' = g ∧
  ∃ o pv pads bv b,
    operations g !! h = Some o ∧
    attribs o !! "padding" = Some pv ∧ as_pairs pv = Ok pads ∧
    attribs o !! "border" = Some bv ∧ as_str bv = Ok b ∧
    p = resolve (name o) pads (lower b).
Proof.
  intros Hrun.
  pose proof (readonly__get_paddings h g) as Hro. rewrite Hrun in Hro.
  cbn in Hro. subst g'. split; [done |].
  pose proof Hrun as Hrun0.
  unfold _get_paddings in Hrun.
  apply bind_inv_Ok in Hrun as (o & g1 & Ho & Hrun).
  unfold get_op in Ho. destruct (operations g !! h) as [o0 |] eqn:Hop; [| discriminate].
  injection Ho as <- <-.
  apply bind_inv_Ok in Hrun as (pv & g1 & Hpv & Hrun).
  unfold lift, attrib in Hpv.
  destruct (attribs o0 !! "padding") as [pv0 |] eqn:Hp; [| discriminate].
  injection Hpv as <- <-.
  apply bind_inv_Ok in Hrun as (pads & g1 & Hpads & Hrun).
  unfold lift in Hpads. injection Hpads as Hpads <-.
  apply bind_inv_Ok in Hrun as (bv & g1 & Hbv & Hrun).
  unfold lift, attrib in Hbv.
  destruct (attribs o0 !! "border") as [bv0 |] eqn:Hb; [| discriminate].
  injection Hbv as <- <-.
  apply bind_inv_Ok in Hrun as (b & g1 & Hbs & _).
  unfold lift in Hbs. injection Hbs as Hbs <-.
  exists o0, pv0, pads, bv0, b. repeat split; try done.
  pose proof (_get_paddings_typed g h o0 pv0 pads bv0 b Hop Hp Hpads Hb Hbs) as Ht.
  congruence.
Qed.

(** X5: the resolver never looks at shapes, strides, dilations or sizes: two
    operators, in any two graphs, that agree on their name, their stored
    padding and their border up to letter case get the same decision. *)
Theorem resolver_ignores_shapes g1 h1 o1 g2 h2 o2 pads b1 b2 :
  operations g1 !! h1 = Some o1 →
  operations g2 !! h2 = Some o2 →
  name o1 = name o2 →
  attribs o1 !! "padding" = Some (APairs pads) →
  attribs o2 !! "padding" = Some (APairs pads) →
  attribs o1 !! "border" = Some (AStr b1) →
  attribs o2 !! "border" = Some (AStr b2) →
  lower b1 = lower b2 →
  ∃ p, outcome (_get_paddings h1) g1 = Ok p ∧ outcome (_get_paddings h2) g2 = Ok p.
Proof.
  intros Hop1 Hop2 Hn Hp1 Hp2 Hb1 Hb2 Hl.
  exists (resolve (name o1) pads (lower b1)). unfold outcome.
  rewrite (_get_paddings_resolve _ _ _ _ _ Hop1 Hp1 Hb1).
  rewrite (_get_paddings_resolve _ _ _ _ _ Hop2 Hp2 Hb2).
  by rewrite Hn, Hl.
Qed.

Lemma resolver_ignores_shapes_witness :
  ∃ p, outcome (_get_paddings 0) Sample.conv_zero_bias = Ok p ∧
       outcome (_get_paddings 0) Sample.conv_upper = Ok p.
Proof.
  apply (resolver_ignores_shapes Sample.conv_zero_bias 0 Sample.conv_op
           Sample.conv_upper 0
           (mkOperation "conv" [2; 0]%nat [1%nat]
              (Sample.attrs [(1, 1); (1, 1)] "CONSTANT" [5; 5]))
           [(1, 1); (1, 1)] "constant" "CONSTANT");
    try reflexivity; vm_compute; reflexivity.
Defined.

(** X6: the shape of a decision.  The tag is "VALID" or "SAME"; "SAME" never
    comes with a descriptor; a descriptor only arises from a non-empty stored
    padding with a positive entry, and it is that stored padding, preceded by
    two zero pairs when the operator's name contains "conv". *)
Theorem decision_shape g h p :
  outcome (_get_paddings h) g = Ok p →
  (in_op p = _InOpPadding.VALID ∨ in_op p = _InOpPadding.SAME) ∧
  (in_op p = _InOpPadding.SAME → out_of_op p = None) ∧
  ∀ d, out_of_op p = Some d →
    ∃ o pv pads,
      operations g !! h = Some o ∧
      attribs o !! "padding" = Some pv ∧ as_pairs pv = Ok pads ∧
      pads ≠ [] ∧ recursive_any pads positive = true ∧
      d = (if str_in "conv" (name o) then [(0, 0); (0, 0)] ++ pads else pads).
Proof.
  unfold outcome. destruct (_get_paddings h g) as [r g'] eqn:Hrun. cbn.
  intros ->.
  destruct (_get_paddings_inv _ _ _ _ Hrun)
    as (-> & o & pv & pads & bv & b & Hop & Hp & Hpv & Hb & Hbv & ->).
  split; [apply resolve_in_op |].
  split.
  - intros Hs. destruct (out_of_op _) as [d |] eqn:Hd; [| done].
    rewrite (resolve_Some_in_op _ _ _ _ Hd) in Hs. discriminate.
  - intros d Hd. exists o, pv, pads.
    assert (Hany : recursive_any pads positive = true).
    { apply (resolve_descriptor (name o) pads (lower b)). by rewrite Hd. }
    repeat split; try done.
    + intros ->. discriminate.
    + unfold resolve in Hd. rewrite Hany in Hd.
      destruct pads as [| q pads']; [discriminate |].
      cbn [length Nat.eqb andb negb] in Hd.
      destruct (str_in "conv" (name o)); by injection Hd as <-.
Qed.

Lemma decision_shape_witness :
  (in_op (mk_Paddings "VALID" (Some [(0, 0); (0, 0); (1, 1); (1, 1)]))
     = _InOpPadding.VALID ∨
   in_op (mk_Paddings "VALID" (Some [(0, 0); (0, 0); (1, 1); (1, 1)]))
     = _InOpPadding.SAME) ∧
  (in_op (mk_Paddings "VALID" (Some [(0, 0); (0, 0); (1, 1); (1, 1)]))
     = _InOpPadding.SAME →
   out_of_op (mk_Paddings "VALID" (Some [(0, 0); (0, 0); (1, 1); (1, 1)])) = None) ∧
  ∀ d, out_of_op (mk_Paddings "VALID" (Some [(0, 0); (0, 0); (1, 1); (1, 1)]))
         = Some d →
    ∃ o pv pads,
      operations Sample.conv_zero_bias !! 0%nat = Some o ∧
      attribs o !! "padding" = Some pv ∧ as_pairs pv = Ok pads ∧
      pads ≠ [] ∧ recursive_any pads positive = true ∧
      d = (if str_in "conv" (name o) then [(0, 0); (0, 0)] ++ pads else pads).
Proof.
  apply (decision_shape Sample.conv_zero_bias 0). vm_compute. reflexivity.
Defined.

(** X7: an operator without a [padding] attribute makes the resolver raise
    [KeyError], whatever else it carries; so does one with a padding list
    but no [border]. *)
Theorem resolver_missing_attribute g h o :
  operations g !! h = Some o →
  attribs o !! "padding" = None ∨
  ((∃ pads, attribs o !! "padding" = Some (APairs pads)) ∧
   attribs o !! "border" = None) →
  _get_paddings h g = (Err KeyError, g).
Proof.
  intros Hop Hmiss. unfold _get_paddings.
  rewrite (bind_Ok _ _ _ _ _ (get_op_Ok _ _ _ Hop)). unfold attrib.
  destruct Hmiss as [Hp | [[pads Hp] Hb]]; rewrite Hp; [reflexivity |].
  rewrite Hb. reflexivity.
Qed.

Lemma resolver_missing_attribute_witness :
  _get_paddings 0 Sample.bare = (Err KeyError, Sample.bare).
Proof.
  apply (resolver_missing_attribute Sample.bare 0
           (mkOperation "conv" [0; 1]%nat [2%nat] ∅)).
  - reflexivity.
  - left. reflexivity.
Defined.

(** X8: when the resolver raises on a supported operator, the iteration of
    the padding pass raises the same exception before it has written
    anything: the graph is the one received, and the loop ends there. *)
Theorem resolver_error_is_atomic g h o e :
  operations g !! h = Some o →
  In (name o) supported_ops →
  outcome (_get_paddings h) g = Err e →
  extract_padding_body h g = (Err e, g) ∧
  ∀ l, for_each (h :: l) extract_padding_body g = (Err e, g).
Proof.
  intros Hop Hs He.
  assert (Hrun : _get_paddings h g = (Err e, g)).
  { pose proof (readonly__get_paddings h g) as Hro. unfold outcome in He.
    destruct (_get_paddings h g) as [r g']. cbn in *. by subst. }
  assert (Hbody : extract_padding_body h g = (Err e, g)).
  { unfold extract_padding_body.
    rewrite (bind_Ok _ _ _ _ _ (get_op_Ok _ _ _ Hop)).
    apply str_elem_In in Hs. rewrite Hs.
    by rewrite (bind_Err _ _ _ _ _ Hrun). }
  split; [done |]. intros l. cbn [for_each]. by rewrite (bind_Err _ _ _ _ _ Hbody).
Qed.

Lemma resolver_error_is_atomic_witness :
  extract_padding_body 0 Sample.bare = (Err KeyError, Sample.bare) ∧
  ∀ l, for_each (0%nat :: l) extract_padding_body Sample.bare
         = (Err KeyError, Sample.bare).
Proof.
  apply (resolver_error_is_atomic Sample.bare 0
           (mkOperation "conv" [0; 1]%nat [2%nat] ∅) KeyError).
  - reflexivity.
  - cbn. tauto.
  - vm_compute. reflexivity.
Defined.

(** ** Every way an iteration of the padding pass can end *)

Lemma extract_padding_body_cases g h :
  ∃ r g', extract_padding_body h g = (r, g') ∧
    ((g' = g ∧
      (r = Ok tt → ∃ o, operations g !! h = Some o ∧ ¬ In (name o) supported_ops))
     ∨ (∃ o p, operations g !! h = Some o ∧ In (name o) supported_ops ∧
               _get_paddings h g = (Ok p, g) ∧
               g' = mkGraph (tensors g)
                      (<[h := with_attrib o "padding" (AStr (in_op p))]>
                         (operations g)) ∧
               (r = Ok tt → out_of_op p = None))
     ∨ (∃ o p d i x border,
          operations g !! h = Some o ∧ In (name o) supported_ops ∧
          ¬ In (name o) backward_ops ∧
          _get_paddings h g = (Ok p, g) ∧ out_of_op p = Some d ∧
          inputs o !! 0%nat = Some i ∧ tensors g !! i = Some x ∧
          attribs o !! "border" = Some border ∧ r = Ok tt ∧
          g' = mkGraph (tensors g ++ [pad_tensor x d])
                 (<[h := with_inputs (with_attrib o "padding" (AStr (in_op p)))
                           (length (tensors g) :: drop 1 (inputs o))]>
                    (operations g)
                  ++ [pad_operation i (length (tensors g)) x border d]))).
Proof.
  unfold extract_padding_body.
  destruct (operations g !! h) as [o |] eqn:Hop; cycle 1.
  { eexists _, _. split; [unfold bind, get_op; by rewrite Hop |].
    left. split; [done | discriminate]. }
  rewrite (bind_Ok _ _ _ _ _ (get_op_Ok _ _ _ Hop)).
  destruct (str_elem (name o) supported_ops) eqn:Hs; cycle 1.
  { eexists _, _. split; [reflexivity |]. left. split; [done |].
    intros _. exists o. split; [done | by apply str_elem_not_In]. }
  apply str_elem_In in Hs.
  destruct (_get_paddings h g) as [[p | e] g0] eqn:Hrun; cycle 1.
  { pose proof (readonly__get_paddings h g) as Hro. rewrite Hrun in Hro.
    cbn in Hro. subst g0. rewrite (bind_Err _ _ _ _ _ Hrun).
    eexists _, _. split; [reflexivity |]. left. split; [done | discriminate]. }
  destruct (_get_paddings_inv _ _ _ _ Hrun) as [-> _].
  rewrite (bind_Ok _ _ _ _ _ Hrun).
  rewrite (bind_Ok _ _ _ _ _ (set_attrib_Ok _ _ _ _ _ Hop)).
  set (o1 := with_attrib o "padding" (AStr (in_op p))).
  set (g1 := mkGraph (tensors g) (<[h := o1]> (operations g))).
  assert (Hlt : (h < length (operations g))%nat) by by eapply lookup_lt_Some.
  assert (H1 : operations g1 !! h = Some o1) by by apply list_lookup_insert_eq.
  destruct (out_of_op p) as [d |] eqn:Hd; cycle 1.
  { eexists _, g1. split.
    - destruct (str_elem (name o) backward_ops); reflexivity.
    - right; left. exists o, p. by repeat split. }
  destruct (str_elem (name o) backward_ops) eqn:Hbk.
  { eexists _, g1. split; [reflexivity |].
    right; left. exists o, p. repeat split; try done; try discriminate. }
  apply str_elem_not_In in Hbk.
  unfold bind at 1. cbn [ret].
  rewrite (bind_Ok _ _ _ _ _ (get_op_Ok _ _ _ H1)).
  unfold index. cbn [inputs o1 with_attrib].
  destruct (inputs o !! 0%nat) as [i |] eqn:Hi; cycle 1.
  { eexists _, g1. split; [reflexivity |].
    right; left. exists o, p. repeat split; try done; try discriminate. }
  unfold bind at 1. cbn [lift].
  destruct (tensors g !! i) as [x |] eqn:Hx; cycle 1.
  { eexists _, g1. split; [unfold bind, get_tensor; cbn; by rewrite Hx |].
    right; left. exists o, p. repeat split; try done; try discriminate. }
  rewrite (bind_Ok _ _ _ _ _ (get_tensor_Ok g1 _ _ Hx)).
  assert (Hbd : attrib o1 "border" = attrib o "border").
  { unfold attrib, o1, with_attrib. cbn [attribs].
    by rewrite lookup_insert_ne by done. }
  rewrite Hbd. unfold attrib.
  destruct (attribs o !! "border") as [border |] eqn:Hb; cycle 1.
  { eexists _, g1. split; [reflexivity |].
    right; left. exists o, p. repeat split; try done; try discriminate. }
  unfold bind at 1. cbn [lift].
  unfold bind at 1, new_tensor at 1. cbn [tensors operations g1].
  unfold bind at 1, new_operation at 1. cbn [tensors operations].
  fold (pad_tensor x d). fold (pad_operation i (length (tensors g)) x border d).
  set (pad := pad_operation _ _ _ _ _).
  set (ops1 := <[h := o1]> (operations g)).
  set (g3 := mkGraph _ (ops1 ++ [pad])).
  assert (Hpad : operations g3 !! length ops1 = Some pad).
  { cbn. rewrite lookup_app_r by lia. by rewrite Nat.sub_diag. }
  rewrite (bind_Ok _ _ _ _ _ (get_op_Ok _ _ _ Hpad)).
  unfold bind at 1. cbn [lift output outputs pad pad_operation].
  assert (Hh3 : operations g3 !! h = Some o1).
  { cbn. rewrite lookup_app_l; [exact H1 |]. unfold ops1. by rewrite length_insert. }
  rewrite (bind_Ok _ _ _ _ _ (get_op_Ok _ _ _ Hh3)).
  rewrite (set_inputs_Ok _ _ _ _ Hh3). cbn [tensors operations g3].
  eexists _, _. split; [reflexivity |].
  right; right. exists o, p, d, i, x, border. repeat split; try done.
  f_equal.
  rewrite insert_app_l by (unfold ops1; by rewrite length_insert).
  unfold ops1. by rewrite list_insert_insert_eq.
Qed.

(** ** Invariants of the padding pass *)

Lemma box_unsupported : ¬ In "box" supported_ops.
Proof. cbn. intros H. repeat (destruct H as [H | H]; [discriminate |]). done. Qed.

Lemma padding_keeps_refl o : padding_keeps o o.
Proof. by repeat split. Qed.

Lemma padding_keeps_trans o1 o2 o3 :
  padding_keeps o1 o2 → padding_keeps o2 o3 → padding_keeps o1 o3.
Proof.
  intros (Hn1 & Ho1 & Hi1 & Hl1 & Ha1 & Hu1) (Hn2 & Ho2 & Hi2 & Hl2 & Ha2 & Hu2).
  repeat split; try congruence.
  - intros key Hk. rewrite Ha2, Ha1; done.
  - intros Hns. rewrite Hu2; [by apply Hu1 |]. by rewrite Hn1.
Qed.

Ltac split_inv := split; [| split; [| split; [| split]]].

Lemma padding_inv_refl g : padding_inv g g.
Proof.
  split_inv.
  - done.
  - intros j o Ho. exists o. split; [done | apply padding_keeps_refl].
  - intros j o' Hj Ho. apply lookup_lt_Some in Ho. lia.
  - intros t x Ht Hx. apply lookup_lt_Some in Hx. lia.
  - done.
Qed.

Lemma padding_inv_trans g1 g2 g3 :
  padding_inv g1 g2 → padding_inv g2 g3 → padding_inv g1 g3.
Proof.
  intros (Hp1 & Ho1 & Hn1 & Ht1 & Hb1) (Hp2 & Ho2 & Hn2 & Ht2 & Hb2).
  pose proof (prefix_length _ _ Hp1) as Hlen1.
  split_inv.
  - by etrans.
  - intros j o Ho. destruct (Ho1 j o Ho) as (o' & Ho' & Hk1).
    destruct (Ho2 j o' Ho') as (o'' & Ho'' & Hk2).
    exists o''. split; [done | by eapply padding_keeps_trans].
  - intros j o3 Hj Ho3.
    destruct (decide (j < length (operations g2))%nat) as [Hlt | Hge].
    + destruct (lookup_lt_is_Some_2 _ _ Hlt) as [o2 Ho2'].
      destruct (Hn1 j o2 Hj Ho2') as (i & out & x & border & d & -> & Hout & Hto & Hti).
      destruct (Ho2 j _ Ho2') as (o3' & Ho3' & Hk).
      rewrite Ho3 in Ho3'. injection Ho3' as <-.
      destruct Hk as (_ & _ & _ & _ & _ & Hu).
      rewrite (Hu box_unsupported).
      exists i, out, x, border, d.
      split; [done |]. split; [done |].
      split; by eapply prefix_lookup_Some.
    + destruct (Hn2 j o3 ltac:(lia) Ho3)
        as (i & out & x & border & d & -> & Hout & Hto & Hti).
      exists i, out, x, border, d.
      split; [done |]. split; [lia |]. by split.
  - intros t x Ht Hx.
    destruct (decide (t < length (tensors g2))%nat) as [Hlt | Hge].
    + destruct (lookup_lt_is_Some_2 _ _ Hlt) as [x2 Hx2].
      pose proof (prefix_lookup_Some _ _ _ _ Hx2 Hp2) as Hx3.
      rewrite Hx in Hx3. injection Hx3 as <-. by apply (Ht1 t).
    + apply (Ht2 t); [lia | done].
  - lia.
Qed.

Lemma padding_inv_body h g : padding_inv g (extract_padding_body h g).2.
Proof.
  destruct (extract_padding_body_cases g h) as (r & g' & -> & Hcases). cbn [snd].
  destruct Hcases as [[-> _] | [(o & p & Hop & Hs & _ & -> & _)
    | (o & p & d & i & x & border & Hop & Hs & _ & _ & _ & Hi & Hx & _ & _ & ->)]].
  - apply padding_inv_refl.
  - assert (Hlt : (h < length (operations g))%nat) by by eapply lookup_lt_Some.
    split_inv; cbn [tensors operations].
    + done.
    + intros j o0 Ho0. destruct (decide (j = h)) as [-> | Hne].
      * rewrite Hop in Ho0. injection Ho0 as <-.
        eexists. split; [by apply list_lookup_insert_eq |].
        unfold padding_keeps. cbn [name inputs outputs attribs with_attrib].
        do 4 (split; [done |]). split; [| done].
        intros key Hk. by rewrite lookup_insert_ne.
      * exists o0. rewrite list_lookup_insert_ne by done.
        split; [done | apply padding_keeps_refl].
    + intros j o' Hj Ho'. apply lookup_lt_Some in Ho'.
      rewrite length_insert in Ho'. lia.
    + intros t x Ht Hx. apply lookup_lt_Some in Hx. lia.
    + rewrite length_insert. lia.
  - assert (Hlt : (h < length (operations g))%nat) by by eapply lookup_lt_Some.
    assert (Hlx : (i < length (tensors g))%nat) by by eapply lookup_lt_Some.
    split_inv; cbn [tensors operations].
    + by apply prefix_app_r.
    + intros j o0 Ho0.
      assert (Hj : (j < length (operations g))%nat) by by eapply lookup_lt_Some.
      rewrite lookup_app_l by (by rewrite length_insert).
      destruct (decide (j = h)) as [-> | Hne].
      * rewrite Hop in Ho0. injection Ho0 as <-.
        eexists. split; [by apply list_lookup_insert_eq |].
        unfold padding_keeps.
        cbn [name inputs outputs attribs with_attrib with_inputs].
        do 3 (split; [done |]).
        split; [cbn; destruct (inputs o); [discriminate | done] |].
        split; [| done].
        intros key Hk. by rewrite lookup_insert_ne.
      * exists o0. rewrite list_lookup_insert_ne by done.
        split; [done | apply padding_keeps_refl].
    + intros j o' Hj Ho'.
      assert (j = length (operations g)) as ->.
      { apply lookup_lt_Some in Ho'.
        rewrite length_app, length_insert in Ho'. cbn in Ho'. lia. }
      rewrite lookup_app_r in Ho' by (rewrite length_insert; lia).
      rewrite length_insert, Nat.sub_diag in Ho'. injection Ho' as <-.
      exists i, (length (tensors g)), x, border, d.
      split; [done |]. split; [done |]. split.
      * rewrite lookup_app_r by lia. by rewrite Nat.sub_diag.
      * by apply lookup_app_l_Some.
    + intros t x0 Ht Hx0.
      assert (t = length (tensors g)) as ->.
      { apply lookup_lt_Some in Hx0. rewrite length_app in Hx0. cbn in Hx0. lia. }
      rewrite lookup_app_r in Hx0 by lia. rewrite Nat.sub_diag in Hx0.
      by injection Hx0 as <-.
    + rewrite !length_app, length_insert. cbn. lia.
Qed.

(** A reflexive and transitive relation that every iteration keeps is kept
    by the loop, however it ends. *)
Lemma for_each_preserves (body : nat → M unit) (I : NNEFGraph → NNEFGraph → Prop) :
  (∀ g, I g g) →
  (∀ g1 g2 g3, I g1 g2 → I g2 g3 → I g1 g3) →
  (∀ k g, I g (body k g).2) →
  ∀ l g, I g (for_each l body g).2.
Proof.
  intros Hrefl Htrans Hbody l. induction l as [| k l IH]; intros g; cbn [for_each].
  - apply Hrefl.
  - unfold bind. pose proof (Hbody k g) as Hk.
    destruct (body k g) as [[[] | e] g1]; cbn [snd] in *; [| done].
    eapply Htrans; [exact Hk | apply IH].
Qed.

Lemma padding_inv_pass g : padding_inv g (final _transform_extract_padding g).
Proof.
  unfold final. rewrite _transform_extract_padding_unfold.
  apply for_each_preserves;
    [apply padding_inv_refl | apply padding_inv_trans | intros; apply padding_inv_body].
Qed.

(** X9: however the padding pass ends, every operation of the graph it
    received is still there under the same handle with the same name, the
    same outputs, the same inputs from the second on (and as many inputs),
    and the same attributes apart from [padding]; an operation of an
    unsupported kind is left exactly as it was. *)
Theorem padding_pass_keeps_operations g j o :
  operations g !! j = Some o →
  ∃ o', operations (final _transform_extract_padding g) !! j = Some o' ∧
        name o' = name o ∧
        outputs o' = outputs o ∧
        drop 1 (inputs o') = drop 1 (inputs o) ∧
        length (inputs o') = length (inputs o) ∧
        (∀ key, key ≠ "padding" → attribs o' !! key = attribs o !! key) ∧
        (¬ In (name o) supported_ops → o' = o).
Proof.
  intros Ho. destruct (padding_inv_pass g) as (_ & Hops & _).
  destruct (Hops j o Ho) as (o' & Ho' & Hk). by exists o'.
Qed.

Lemma padding_pass_keeps_operations_witness :
  ∃ o', operations (final _transform_extract_padding Sample.conv_zero_bias) !! 0%nat
          = Some o' ∧
        name o' = "conv" ∧
        outputs o' = [3%nat] ∧
        drop 1 (inputs o') = [1; 2]%nat ∧
        length (inputs o') = 3%nat ∧
        (∀ key, key ≠ "padding" →
                attribs o' !! key = attribs Sample.conv_op !! key) ∧
        (¬ In "conv" supported_ops → o' = Sample.conv_op).
Proof.
  apply (padding_pass_keeps_operations Sample.conv_zero_bias 0 Sample.conv_op).
  reflexivity.
Defined.

(** X10: however the padding pass ends, it has only appended to the graph:
    no tensor is changed or removed; every operation beyond the original ones
    is a padding operator [box] on a tensor of the graph, whose single output
    is a tensor added by the pass with the padded shape; every tensor added
    is unnamed and not a constant; and as many tensors were added as
    operations. *)
Theorem padding_pass_only_appends g :
  tensors g `prefix_of` tensors (final _transform_extract_padding g) ∧
  (∀ j o', (length (operations g) ≤ j)%nat →
           operations (final _transform_extract_padding g) !! j = Some o' →
           ∃ i out x border d,
             o' = mkOperation "box" [i] [out]
                    (<["size" := AInts (replicate (rank x) 1)]>
                       (<["border" := border]> (<["padding" := APairs d]> ∅))) ∧
             (length (tensors g) ≤ out)%nat ∧
             tensors (final _transform_extract_padding g) !! i = Some x ∧
             tensors (final _transform_extract_padding g) !! out
               = Some (mkTensor None (padded_shape (shape x) d) (dtype x) false [])) ∧
  (∀ t x, (length (tensors g) ≤ t)%nat →
          tensors (final _transform_extract_padding g) !! t = Some x →
          tensor_name x = None ∧ is_constant x = false) ∧
  (length (operations (final _transform_extract_padding g)) + length (tensors g)
   = length (operations g) + length (tensors (final _transform_extract_padding g)))%nat.
Proof.
  destruct (padding_inv_pass g) as (Hp & _ & Hn & Ht & Hb).
  split; [done |]. split; [| by split].
  intros j o' Hj Ho'.
  destruct (Hn j o' Hj Ho') as (i & out & x & border & d & -> & Hout & Hto & Hti).
  by exists i, out, x, border, d.
Qed.

(** X11: after a completed padding pass, every supported operator of the
    original graph had a padding list and a border string, and now carries
    as padding attribute the tag its decision gave, "VALID" or "SAME"; and
    if it is a backward operator, its stored padding had no positive
    entry. *)
Theorem padding_pass_writes_tags g g' h o :
  _transform_extract_padding g = (Ok tt, g') →
  operations g !! h = Some o →
  In (name o) supported_ops →
  ∃ o' pv pads bv b,
    attribs o !! "padding" = Some pv ∧ as_pairs pv = Ok pads ∧
    attribs o !! "border" = Some bv ∧ as_str bv = Ok b ∧
    operations g' !! h = Some o' ∧
    attribs o' !! "padding" = Some (AStr (in_op (resolve (name o) pads (lower b)))) ∧
    (attribs o' !! "padding" = Some (AStr "VALID") ∨
     attribs o' !! "padding" = Some (AStr "SAME")) ∧
    (In (name o) backward_ops → recursive_any pads positive = false).
Proof.
  intros Hrun Hop Hs. rewrite _transform_extract_padding_unfold in Hrun.
  destruct (for_each_snapshot_step _ framed_extract_padding_body g g' h Hrun)
    as (g1 & g2 & Hbody & Hop1 & _ & _ & _ & Hrest).
  { by eapply lookup_lt_Some. }
  rewrite Hop in Hop1.
  assert (Hlt : (h < length (operations g1))%nat) by by eapply lookup_lt_Some.
  destruct (extract_padding_body_cases g1 h) as (r & g2' & Hb' & Hcases).
  rewrite Hbody in Hb'. injection Hb' as <- <-.
  assert (Htag : ∀ pads b,
            attribs (with_attrib o "padding"
                       (AStr (in_op (resolve (name o) pads (lower b))))) !! "padding"
              = Some (AStr "VALID") ∨
            attribs (with_attrib o "padding"
                       (AStr (in_op (resolve (name o) pads (lower b))))) !! "padding"
              = Some (AStr "SAME")).
  { intros pads b. cbn. rewrite lookup_insert_eq.
    destruct (resolve_in_op (name o) pads (lower b)) as [-> | ->]; auto. }
  destruct Hcases as [[_ Hu] | [(o0 & p & Hop0 & _ & Hget & -> & Hnone)
    | (o0 & p & d & i & x & border & Hop0 & _ & Hnb & Hget & Hd & _ & _ & _ & _ & ->)]].
  - destruct (Hu eq_refl) as (o0 & Hop0 & Hn). congruence.
  - rewrite Hop1 in Hop0. injection Hop0 as <-.
    destruct (_get_paddings_inv _ _ _ _ Hget)
      as (_ & o0 & pv & pads & bv & b & Hop0 & Hp & Hpv & Hb & Hbv & ->).
    rewrite Hop1 in Hop0. injection Hop0 as <-.
    eexists _, pv, pads, bv, b. do 4 (split; [done |]).
    split.
    { rewrite Hrest; cbn [operations];
        [by apply list_lookup_insert_eq | by left | by rewrite length_insert]. }
    split; [cbn; by rewrite lookup_insert_eq |].
    split; [apply Htag |].
    intros _. apply not_true_is_false. intros Hany.
    apply (resolve_descriptor (name o) pads (lower b)) in Hany.
    by apply Hany, Hnone.
  - rewrite Hop1 in Hop0. injection Hop0 as <-.
    destruct (_get_paddings_inv _ _ _ _ Hget)
      as (_ & o0 & pv & pads & bv & b & Hop0 & Hp & Hpv & Hb & Hbv & ->).
    rewrite Hop1 in Hop0. injection Hop0 as <-.
    eexists _, pv, pads, bv, b. do 4 (split; [done |]).
    split.
    { rewrite Hrest; cbn [operations].
      - rewrite lookup_app_l by (by rewrite length_insert).
        by apply list_lookup_insert_eq.
      - by left.
      - rewrite length_app, length_insert. lia. }
    split; [cbn; by rewrite lookup_insert_eq |].
    split; [apply Htag | done].
Qed.

Lemma padding_pass_writes_tags_witness :
  ∃ o' pv pads bv b,
    attribs Sample.conv_op !! "padding" = Some pv ∧ as_pairs pv = Ok pads ∧
    attribs Sample.conv_op !! "border" = Some bv ∧ as_str bv = Ok b ∧
    operations (final _transform_extract_padding Sample.conv_zero_bias) !! 0%nat
      = Some o' ∧
    attribs o' !! "padding" = Some (AStr (in_op (resolve "conv" pads (lower b)))) ∧
    (attribs o' !! "padding" = Some (AStr "VALID") ∨
     attribs o' !! "padding" = Some (AStr "SAME")) ∧
    (In "conv" backward_ops → recursive_any pads positive = false).
Proof.
  apply (padding_pass_writes_tags Sample.conv_zero_bias
           (final _transform_extract_padding Sample.conv_zero_bias) 0 Sample.conv_op).
  - vm_compute. reflexivity.
  - reflexivity.
  - cbn. tauto.
Defined.

(** ** When a pass completes *)

Lemma for_each_completes (body : nat → M unit) (good : NNEFGraph → nat → Prop) :
  (∀ k, framed [k] (body k)) →
  (∀ g k, good g k → (body k g).1 = Ok tt) →
  (∀ g g' k j, frame [k] g g' → j ≠ k → good g j → good g' j) →
  ∀ l g, NoDup l → (∀ k, k ∈ l → good g k) → (for_each l body g).1 = Ok tt.
Proof.
  intros Hframed Hgood Hstable l.
  induction l as [| k l IH]; intros g Hnd Hall; cbn [for_each]; [done |].
  apply NoDup_cons in Hnd as [Hk Hnd].
  pose proof (Hgood g k (Hall k (list_elem_of_here _ _))) as Hrun.
  pose proof (Hframed k g) as Hfr.
  unfold bind. destruct (body k g) as [[[] | e] g1]; cbn [fst snd] in *;
    [| discriminate].
  apply IH; [done |]. intros j Hj.
  apply (Hstable g g1 k j Hfr).
  - intros ->. done.
  - apply Hall. by apply list_elem_of_further.
Qed.

Lemma padding_ready_body g k : padding_ready g k → (extract_padding_body k g).1 = Ok tt.
Proof.
  intros (o & Hop & Hready).
  destruct (str_elem (name o) supported_ops) eqn:Hs; cycle 1.
  { apply str_elem_not_In in Hs.
    by rewrite (extract_padding_body_unsupported _ _ _ Hop Hs). }
  apply str_elem_In in Hs.
  destruct (Hready Hs) as (pads & b & Hp & Hb & Hpos).
  destruct (recursive_any pads positive) eqn:Hany.
  - destruct (Hpos eq_refl) as (Hfw & i & x & Hi & Hx).
    destruct (recursive_any_resolve_Some (name o) pads (lower b) Hany) as [d Hd].
    destruct (inputs o) as [| i0 rest] eqn:Hin; [discriminate |].
    injection Hi as ->.
    by rewrite (extract_padding_body_forward_Some g k o pads b Hop Hp Hb d i rest x).
  - pose proof (recursive_any_resolve_None (name o) pads (lower b) Hany) as Hd.
    rewrite (extract_padding_body_None g k o pads b Hop Hp Hb); [done | | done].
    by apply str_elem_In.
Qed.

Lemma padding_ready_stable g g' k j :
  frame [k] g g' → j ≠ k → padding_ready g j → padding_ready g' j.
Proof.
  intros (Hpre & _ & Hops) Hne (o & Hop & Hready).
  exists o. split.
  - rewrite Hops; [done | | by eapply lookup_lt_Some].
    by intros ->%list_elem_of_singleton.
  - intros Hs. destruct (Hready Hs) as (pads & b & Hp & Hb & Hpos).
    exists pads, b. do 2 (split; [done |]).
    intros Hany. destruct (Hpos Hany) as (Hfw & i & x & Hi & Hx).
    split; [done |]. exists i, x. split; [done |]. by eapply prefix_lookup_Some.
Qed.

(** X12: the padding pass completes on every graph in which each supported
    operator has a padding list and a border string, no backward operator
    has a positive entry in its stored padding, and each operator that has
    one has a first input that is a tensor of the graph. *)
Theorem padding_pass_completes g :
  (∀ h o, operations g !! h = Some o → In (name o) supported_ops →
     ∃ pads b,
       attribs o !! "padding" = Some (APairs pads) ∧
       attribs o !! "border" = Some (AStr b) ∧
       (recursive_any pads positive = true →
        In (name o) forward_ops ∧
        ∃ i x, inputs o !! 0%nat = Some i ∧ tensors g !! i = Some x)) →
  outcome _transform_extract_padding g = Ok tt.
Proof.
  intros Hall. unfold outcome. rewrite _transform_extract_padding_unfold.
  apply (for_each_completes _ padding_ready).
  - apply framed_extract_padding_body.
  - apply padding_ready_body.
  - apply padding_ready_stable.
  - apply NoDup_seq.
  - intros k Hk. apply list_elem_of_In, in_seq in Hk.
    destruct (lookup_lt_is_Some_2 (operations g) k ltac:(lia)) as [o Hop].
    exists o. split; [done | exact (Hall k o Hop)].
Qed.

Lemma padding_pass_completes_witness :
  outcome _transform_extract_padding Sample.conv_zero_bias = Ok tt.
Proof.
  apply (padding_pass_completes Sample.conv_zero_bias).
  intros [| h] o Ho; [| discriminate]. injection Ho as <-. intros _.
  exists [(1, 1); (1, 1)], "constant".
  split; [vm_compute; reflexivity |].
  split; [vm_compute; reflexivity |].
  intros _. split; [cbn; tauto |].
  exists 0%nat, (Sample.tensor [1; 3; 10; 10]). split; reflexivity.
Defined.

(** ** Every way an iteration of the bias pass can end *)

Lemma has_bias_test o :
  str_elem (name o) ["conv"; "deconv"] && (3 <=? length (inputs o))%nat = true
  ↔ has_bias o.
Proof.
  unfold has_bias. rewrite andb_true_iff, str_elem_In, Nat.leb_le. done.
Qed.

Lemma extract_bias_add_body_cases g h :
  ∃ r g', extract_bias_add_body h g = (r, g') ∧
    ((g' = g ∧ (r = Ok tt → ∃ o, operations g !! h = Some o ∧ ¬ has_bias o))
     ∨ (∃ o, operations g !! h = Some o ∧ has_bias o ∧
             g' = mkGraph (tensors g)
                    (<[h := with_inputs o (take 2 (inputs o))]> (operations g)))
     ∨ (∃ o b bias out t,
          operations g !! h = Some o ∧ has_bias o ∧
          inputs o !! 2%nat = Some b ∧ tensors g !! b = Some bias ∧
          ¬ (is_constant bias = true ∧ data bias = [0]) ∧
          outputs o = [out] ∧ tensors g !! out = Some t ∧ r = Ok tt ∧
          g' = mkGraph (tensors g ++ [mkTensor None (shape t) (dtype t) false []])
                 (<[h := mkOperation (name o) (take 2 (inputs o))
                           [length (tensors g)] (attribs o)]> (operations g)
                  ++ [mkOperation "_bias_add" [length (tensors g); b] [out] ∅]))).
Proof.
  destruct (operations g !! h) as [o |] eqn:Hop; cycle 1.
  { eexists _, _. split.
    - unfold extract_bias_add_body, bind, get_op. by rewrite Hop.
    - left. split; [done | discriminate]. }
  destruct (str_elem (name o) ["conv"; "deconv"] && (3 <=? length (inputs o))%nat)
    eqn:Hq; cycle 1.
  { eexists _, _. split.
    - unfold extract_bias_add_body.
      rewrite (bind_Ok _ _ _ _ _ (get_op_Ok _ _ _ Hop)). by rewrite Hq.
    - left. split; [done |]. intros _. exists o. split; [done |].
      intros Hb. apply has_bias_test in Hb. congruence. }
  pose proof (proj1 (has_bias_test o) Hq) as Hhas.
  destruct Hhas as [Hname Hlen].
  destruct (lookup_lt_is_Some_2 (inputs o) 2 ltac:(lia)) as [b Hb].
  destruct (tensors g !! b) as [bias |] eqn:Hbias; cycle 1.
  { eexists _, _. split.
    - unfold extract_bias_add_body.
      rewrite (bind_Ok _ _ _ _ _ (get_op_Ok _ _ _ Hop)). rewrite Hq.
      assert (Hi : index (inputs o) 2 = Ok b) by (unfold index; by rewrite Hb).
      rewrite (bind_Ok _ _ _ _ _ (lift_Ok _ _ _ Hi)).
      rewrite (bind_Ok _ _ _ _ _ (set_inputs_Ok _ _ _ _ Hop)).
      unfold bind, get_tensor. cbn [tensors]. rewrite Hbias. reflexivity.
    - right; left. exists o. by repeat split. }
  rewrite (extract_bias_add_body_prefix g h o b bias Hop Hname Hb Hbias).
  set (o1 := with_inputs o (take 2 (inputs o))).
  set (g1 := mkGraph (tensors g) (<[h := o1]> (operations g))).
  destruct (negb (is_constant bias && is_zero_data (data bias))) eqn:Hnz; cycle 1.
  { eexists _, _. split; [reflexivity |]. right; left. exists o. by repeat split. }
  pose proof (bias_g1_lookup g h o Hop) as H1. fold o1 g1 in H1.
  rewrite (bind_Ok _ _ _ _ _ (get_op_Ok _ _ _ H1)).
  unfold output. cbn [outputs o1 with_inputs].
  destruct (outputs o) as [| out [| out2 outs]] eqn:Hout.
  { eexists _, _. split; [reflexivity |]. right; left. exists o. by repeat split. }
  2: { eexists _, _. split; [reflexivity |]. right; left. exists o. by repeat split. }
  unfold bind at 1. cbn [lift].
  destruct (tensors g !! out) as [t |] eqn:Ht; cycle 1.
  { eexists _, _. split.
    - unfold bind, get_tensor. cbn [tensors g1]. rewrite Ht. reflexivity.
    - right; left. exists o. by repeat split. }
  assert (Hnz' : ¬ (is_constant bias = true ∧ data bias = [0])).
  { intros [Hc Hd]. rewrite Hc, Hd in Hnz. discriminate. }
  pose proof (extract_bias_add_body_nonzero g h o b bias Hop Hname Hb Hbias out t
                Hnz' Hout Ht) as Hfull.
  rewrite (extract_bias_add_body_prefix g h o b bias Hop Hname Hb Hbias) in Hfull.
  rewrite Hnz in Hfull. fold o1 g1 in Hfull.
  rewrite (bind_Ok _ _ _ _ _ (get_op_Ok _ _ _ H1)) in Hfull.
  unfold output in Hfull. cbn [outputs o1 with_inputs] in Hfull.
  rewrite Hout in Hfull. unfold bind at 1 in Hfull. cbn [lift] in Hfull.
  rewrite Hfull.
  eexists _, _. split; [reflexivity |]. right; right.
  exists o, b, bias, out, t. by repeat split.
Qed.

(** ** Invariants of the bias pass *)

Lemma bias_add_has_no_bias fresh b out :
  ¬ has_bias (mkOperation "_bias_add" [fresh; b] [out] ∅).
Proof.
  intros [Hn _]. cbn in Hn. repeat (destruct Hn as [Hn | Hn]; [discriminate |]). done.
Qed.

Lemma bias_keeps_refl o : bias_keeps o o.
Proof. unfold bias_keeps. repeat split; auto. Qed.

Lemma bias_keeps_trans o1 o2 o3 :
  bias_keeps o1 o2 → bias_keeps o2 o3 → bias_keeps o1 o3.
Proof.
  intros (Hn1 & Ha1 & Ht1 & Hi1 & Ho1 & Hu1) (Hn2 & Ha2 & Ht2 & Hi2 & Ho2 & Hu2).
  unfold bias_keeps.
  split; [congruence |]. split; [congruence |]. split; [congruence |].
  split; [| split].
  - destruct Hi2 as [-> | ->]; [done |]. right.
    destruct Hi1 as [-> | ->]; [done |]. by rewrite take_take.
  - destruct Ho2 as [-> | [t ->]]; [done | right; eauto].
  - intros Hnb. rewrite Hu2; [by apply Hu1 |]. by rewrite (Hu1 Hnb).
Qed.

Lemma bias_inv_refl g : bias_inv g g.
Proof.
  split_inv.
  - done.
  - intros j o Ho. exists o. split; [done | apply bias_keeps_refl].
  - intros j o' Hj Ho. apply lookup_lt_Some in Ho. lia.
  - intros t x Ht Hx. apply lookup_lt_Some in Hx. lia.
  - done.
Qed.

Lemma bias_inv_trans g1 g2 g3 : bias_inv g1 g2 → bias_inv g2 g3 → bias_inv g1 g3.
Proof.
  intros (Hp1 & Ho1 & Hn1 & Ht1 & Hb1) (Hp2 & Ho2 & Hn2 & Ht2 & Hb2).
  pose proof (prefix_length _ _ Hp1) as Hlen1.
  split_inv.
  - by etrans.
  - intros j o Ho. destruct (Ho1 j o Ho) as (o' & Ho' & Hk1).
    destruct (Ho2 j o' Ho') as (o'' & Ho'' & Hk2).
    exists o''. split; [done | by eapply bias_keeps_trans].
  - intros j o3 Hj Ho3.
    destruct (decide (j < length (operations g2))%nat) as [Hlt | Hge].
    + destruct (lookup_lt_is_Some_2 _ _ Hlt) as [o2 Ho2'].
      destruct (Hn1 j o2 Hj Ho2') as (fresh & b & out & t & -> & Hfr & Hto & Htf).
      destruct (Ho2 j _ Ho2') as (o3' & Ho3' & Hk).
      rewrite Ho3 in Ho3'. injection Ho3' as <-.
      destruct Hk as (_ & _ & _ & _ & _ & Hu).
      rewrite (Hu (bias_add_has_no_bias _ _ _)).
      exists fresh, b, out, t.
      split; [done |]. split; [done |].
      split; by eapply prefix_lookup_Some.
    + destruct (Hn2 j o3 ltac:(lia) Ho3) as (fresh & b & out & t & -> & Hfr & Hto & Htf).
      exists fresh, b, out, t.
      split; [done |]. split; [lia |]. by split.
  - intros t x Ht Hx.
    destruct (decide (t < length (tensors g2))%nat) as [Hlt | Hge].
    + destruct (lookup_lt_is_Some_2 _ _ Hlt) as [x2 Hx2].
      pose proof (prefix_lookup_Some _ _ _ _ Hx2 Hp2) as Hx3.
      rewrite Hx in Hx3. injection Hx3 as <-. by apply (Ht1 t).
    + apply (Ht2 t); [lia | done].
  - lia.
Qed.

Lemma bias_inv_body h g : bias_inv g (extract_bias_add_body h g).2.
Proof.
  destruct (extract_bias_add_body_cases g h) as (r & g' & -> & Hcases). cbn [snd].
  destruct Hcases as [[-> _] | [(o & Hop & Hhas & ->)
    | (o & b & bias & out & t & Hop & Hhas & Hb & Hbias & _ & Hout & Ht & _ & ->)]].
  - apply bias_inv_refl.
  - assert (Hlt : (h < length (operations g))%nat) by by eapply lookup_lt_Some.
    split_inv; cbn [tensors operations].
    + done.
    + intros j o0 Ho0. destruct (decide (j = h)) as [-> | Hne].
      * rewrite Hop in Ho0. injection Ho0 as <-.
        eexists. split; [by apply list_lookup_insert_eq |].
        unfold bias_keeps. cbn [name inputs outputs attribs with_inputs].
        do 2 (split; [done |]). split; [by rewrite take_take |].
        split; [by right |]. split; [by left | done].
      * exists o0. rewrite list_lookup_insert_ne by done.
        split; [done | apply bias_keeps_refl].
    + intros j o' Hj Ho'. apply lookup_lt_Some in Ho'.
      rewrite length_insert in Ho'. lia.
    + intros t x Ht Hx. apply lookup_lt_Some in Hx. lia.
    + rewrite length_insert. lia.
  - assert (Hlt : (h < length (operations g))%nat) by by eapply lookup_lt_Some.
    assert (Hlo : (out < length (tensors g))%nat) by by eapply lookup_lt_Some.
    split_inv; cbn [tensors operations].
    + by apply prefix_app_r.
    + intros j o0 Ho0.
      assert (Hj : (j < length (operations g))%nat) by by eapply lookup_lt_Some.
      rewrite lookup_app_l by (by rewrite length_insert).
      destruct (decide (j = h)) as [-> | Hne].
      * rewrite Hop in Ho0. injection Ho0 as <-.
        eexists. split; [by apply list_lookup_insert_eq |].
        unfold bias_keeps. cbn [name inputs outputs attribs].
        do 2 (split; [done |]). split; [by rewrite take_take |].
        split; [by right |]. split; [right; eauto | done].
      * exists o0. rewrite list_lookup_insert_ne by done.
        split; [done | apply bias_keeps_refl].
    + intros j o' Hj Ho'.
      assert (j = length (operations g)) as ->.
      { apply lookup_lt_Some in Ho'.
        rewrite length_app, length_insert in Ho'. cbn in Ho'. lia. }
      rewrite lookup_app_r in Ho' by (rewrite length_insert; lia).
      rewrite length_insert, Nat.sub_diag in Ho'. injection Ho' as <-.
      exists (length (tensors g)), b, out, t.
      split; [done |]. split; [done |]. split.
      * by apply lookup_app_l_Some.
      * rewrite lookup_app_r by lia. by rewrite Nat.sub_diag.
    + intros t0 x0 Ht0 Hx0.
      assert (t0 = length (tensors g)) as ->.
      { apply lookup_lt_Some in Hx0. rewrite length_app in Hx0. cbn in Hx0. lia. }
      rewrite lookup_app_r in Hx0 by lia. rewrite Nat.sub_diag in Hx0.
      by injection Hx0 as <-.
    + rewrite !length_app, length_insert. cbn. lia.
Qed.

Lemma bias_inv_pass g : bias_inv g (final _transform_extract_bias_add g).
Proof.
  unfold final. rewrite _transform_extract_bias_add_unfold.
  apply for_each_preserves;
    [apply bias_inv_refl | apply bias_inv_trans | intros; apply bias_inv_body].
Qed.

(** X13: however the bias pass ends, every operation of the graph it
    received is still there under the same handle with the same name and
    attributes and the same first two inputs; its inputs are either all kept
    or cut to the first two, its outputs either kept or replaced by a single
    tensor; an operation that is not a convolution or deconvolution with
    three inputs or more is left exactly as it was. *)
Theorem bias_pass_keeps_operations g j o :
  operations g !! j = Some o →
  ∃ o', operations (final _transform_extract_bias_add g) !! j = Some o' ∧
        name o' = name o ∧
        attribs o' = attribs o ∧
        take 2 (inputs o') = take 2 (inputs o) ∧
        (inputs o' = inputs o ∨ inputs o' = take 2 (inputs o)) ∧
        (outputs o' = outputs o ∨ ∃ t, outputs o' = [t]) ∧
        (¬ (In (name o) ["conv"; "deconv"] ∧ (3 ≤ length (inputs o))%nat) → o' = o).
Proof.
  intros Ho. destruct (bias_inv_pass g) as (_ & Hops & _).
  destruct (Hops j o Ho) as (o' & Ho' & Hk). by exists o'.
Qed.

Lemma bias_pass_keeps_operations_witness :
  ∃ o', operations (final _transform_extract_bias_add Sample.conv_with_bias) !! 0%nat
          = Some o' ∧
        name o' = "conv" ∧
        attribs o' = attribs Sample.conv_op ∧
        take 2 (inputs o') = [0; 1]%nat ∧
        (inputs o' = [0; 1; 2]%nat ∨ inputs o' = [0; 1]%nat) ∧
        (outputs o' = [3%nat] ∨ ∃ t, outputs o' = [t]) ∧
        (¬ (In "conv" ["conv"; "deconv"] ∧ (3 ≤ 3)%nat) → o' = Sample.conv_op).
Proof.
  apply (bias_pass_keeps_operations Sample.conv_with_bias 0 Sample.conv_op).
  reflexivity.
Defined.

(** X14: however the bias pass ends, it has only appended to the graph: no
    tensor is changed or removed; every operation beyond the original ones is
    a [_bias_add] without attributes, whose first input is a tensor added by
    the pass, unnamed, with the shape and element type of its output tensor;
    every tensor added is unnamed and not a constant; and as many tensors
    were added as operations. *)
Theorem bias_pass_only_appends g :
  tensors g `prefix_of` tensors (final _transform_extract_bias_add g) ∧
  (∀ j o', (length (operations g) ≤ j)%nat →
           operations (final _transform_extract_bias_add g) !! j = Some o' →
           ∃ fresh b out t,
             o' = mkOperation "_bias_add" [fresh; b] [out] ∅ ∧
             (length (tensors g) ≤ fresh)%nat ∧
             tensors (final _transform_extract_bias_add g) !! out = Some t ∧
             tensors (final _transform_extract_bias_add g) !! fresh
               = Some (mkTensor None (shape t) (dtype t) false [])) ∧
  (∀ t x, (length (tensors g) ≤ t)%nat →
          tensors (final _transform_extract_bias_add g) !! t = Some x →
          tensor_name x = None ∧ is_constant x = false) ∧
  (length (operations (final _transform_extract_bias_add g)) + length (tensors g)
   = length (operations g) + length (tensors (final _transform_extract_bias_add g)))%nat.
Proof.
  destruct (bias_inv_pass g) as (Hp & _ & Hn & Ht & Hb).
  split; [done |]. split; [exact Hn |]. by split.
Qed.

(** ** A completed bias pass *)

Lemma extract_bias_add_body_done g h g' o :
  extract_bias_add_body h g = (Ok tt, g') →
  operations g !! h = Some o →
  ∃ o', operations g' !! h = Some o' ∧ ¬ has_bias o' ∧
        (length (operations g) ≤ length (operations g'))%nat.
Proof.
  intros Hbody Hop.
  assert (Hlt : (h < length (operations g))%nat) by by eapply lookup_lt_Some.
  destruct (extract_bias_add_body_cases g h) as (r & g2 & Hb' & Hcases).
  rewrite Hbody in Hb'. injection Hb' as <- <-.
  assert (Hshort : ∀ outs,
            ¬ has_bias (mkOperation (name o) (take 2 (inputs o)) outs (attribs o))).
  { intros outs [_ Hl]. cbn in Hl. rewrite length_take in Hl. lia. }
  destruct Hcases as [[-> Hu] | [(o0 & Hop0 & _ & ->)
    | (o0 & b & bias & out & t & Hop0 & _ & _ & _ & _ & _ & _ & _ & ->)]].
  - destruct (Hu eq_refl) as (o0 & Hop0 & Hn). exists o0. split; [done |].
    split; [done | lia].
  - rewrite Hop in Hop0. injection Hop0 as <-.
    eexists. split; [by apply list_lookup_insert_eq |].
    split; [apply Hshort | cbn; by rewrite length_insert].
  - rewrite Hop in Hop0. injection Hop0 as <-.
    eexists. split.
    + cbn. rewrite lookup_app_l by (by rewrite length_insert).
      by apply list_lookup_insert_eq.
    + split; [apply Hshort | cbn; rewrite length_app, length_insert; lia].
Qed.

Lemma for_each_bias_skip l g :
  (∀ k, k ∈ l → ∃ o, operations g !! k = Some o ∧ ¬ has_bias o) →
  for_each l extract_bias_add_body g = (Ok tt, g).
Proof.
  induction l as [| k l IH]; intros Hl; cbn [for_each]; [done |].
  destruct (Hl k) as (o & Hop & Hn); [apply list_elem_of_here |].
  rewrite (bind_Ok _ _ _ _ _ (extract_bias_add_body_skip _ _ _ Hop Hn)).
  apply IH. intros k' Hk'. apply Hl. by apply list_elem_of_further.
Qed.

(** X15: after a completed bias pass no operation of the graph, old or new,
    is a convolution or deconvolution with three inputs or more; the pass is
    therefore idempotent: run again on its result, it completes and returns
    that same graph. *)
Theorem bias_pass_idempotent g g' :
  _transform_extract_bias_add g = (Ok tt, g') →
  (∀ j o', operations g' !! j = Some o' →
           ¬ (In (name o') ["conv"; "deconv"] ∧ (3 ≤ length (inputs o'))%nat)) ∧
  _transform_extract_bias_add g' = (Ok tt, g').
Proof.
  intros Hrun.
  assert (Hnone : ∀ j o', operations g' !! j = Some o' → ¬ has_bias o').
  { intros j o' Ho'.
    destruct (decide (j < length (operations g))%nat) as [Hlt | Hge].
    - pose proof Hrun as Hrun'. rewrite _transform_extract_bias_add_unfold in Hrun'.
      destruct (for_each_snapshot_step _ framed_extract_bias_add_body g g' j Hrun' Hlt)
        as (g1 & g2 & Hbody & Hop1 & _ & Hlen1 & _ & Hrest).
      destruct (lookup_lt_is_Some_2 (operations g) j Hlt) as [o Hop].
      rewrite Hop in Hop1.
      destruct (extract_bias_add_body_done _ _ _ _ Hbody Hop1) as (o2 & Ho2 & Hn & Hl2).
      rewrite Hrest in Ho'; [| by left | by eapply lookup_lt_Some]. congruence.
    - pose proof (bias_inv_pass g) as (_ & _ & Hnew & _).
      unfold final in Hnew. rewrite Hrun in Hnew. cbn [snd] in Hnew.
      destruct (Hnew j o' ltac:(lia) Ho') as (fresh & b & out & t & -> & _).
      apply bias_add_has_no_bias. }
  split; [exact Hnone |].
  rewrite _transform_extract_bias_add_unfold. apply for_each_bias_skip.
  intros k Hk. apply list_elem_of_In, in_seq in Hk.
  destruct (lookup_lt_is_Some_2 (operations g') k ltac:(lia)) as [o Hop].
  exists o. split; [done | by eapply Hnone].
Qed.

Lemma bias_pass_idempotent_witness :
  (∀ j o', operations (final _transform_extract_bias_add Sample.conv_with_bias) !! j
             = Some o' →
           ¬ (In (name o') ["conv"; "deconv"] ∧ (3 ≤ length (inputs o'))%nat)) ∧
  _transform_extract_bias_add (final _transform_extract_bias_add Sample.conv_with_bias)
    = (Ok tt, final _transform_extract_bias_add Sample.conv_with_bias).
Proof.
  apply (bias_pass_idempotent Sample.conv_with_bias). vm_compute. reflexivity.
Defined.

Lemma bias_ready_body g k : bias_ready g k → (extract_bias_add_body k g).1 = Ok tt.
Proof.
  intros (o & Hop & Hready).
  destruct (str_elem (name o) ["conv"; "deconv"] && (3 <=? length (inputs o))%nat)
    eqn:Hq; cycle 1.
  { rewrite (extract_bias_add_body_skip _ _ _ Hop); [done |].
    intros Hb. apply has_bias_test in Hb. congruence. }
  apply has_bias_test in Hq.
  destruct (Hready Hq) as (b & bias & Hb & Hbias & Hcase).
  destruct Hq as [Hname _].
  destruct (is_constant bias) eqn:Hc, (decide (data bias = [0])) as [Hd | Hd].
  - by rewrite (extract_bias_add_body_zero g k o b bias Hop Hname Hb Hbias Hc Hd).
  - destruct Hcase as [[_ Hd'] | (out & t & Hout & Ht)]; [done |].
    rewrite (extract_bias_add_body_nonzero g k o b bias Hop Hname Hb Hbias out t);
      [done | | done | done].
    by intros [_ ?].
  - destruct Hcase as [[Hc' _] | (out & t & Hout & Ht)]; [congruence |].
    rewrite (extract_bias_add_body_nonzero g k o b bias Hop Hname Hb Hbias out t);
      [done | | done | done].
    intros [? _]. congruence.
  - destruct Hcase as [[Hc' _] | (out & t & Hout & Ht)]; [congruence |].
    rewrite (extract_bias_add_body_nonzero g k o b bias Hop Hname Hb Hbias out t);
      [done | | done | done].
    intros [? _]. congruence.
Qed.

Lemma bias_ready_stable g g' k j :
  frame [k] g g' → j ≠ k → bias_ready g j → bias_ready g' j.
Proof.
  intros (Hpre & _ & Hops) Hne (o & Hop & Hready).
  exists o. split.
  - rewrite Hops; [done | | by eapply lookup_lt_Some].
    by intros ->%list_elem_of_singleton.
  - intros Hs. destruct (Hready Hs) as (b & bias & Hb & Hbias & Hcase).
    exists b, bias. split; [done |].
    split; [by eapply prefix_lookup_Some |].
    destruct Hcase as [Hz | (out & t & Hout & Ht)]; [by left | right].
    exists out, t. split; [done | by eapply prefix_lookup_Some].
Qed.

(** X16: the bias pass completes on every graph in which each convolution or
    deconvolution with three inputs or more has a bias tensor in the graph
    and, unless that bias is the constant [[0]], a single output that is a
    tensor of the graph. *)
Theorem bias_pass_completes g :
  (∀ h o, operations g !! h = Some o →
     In (name o) ["conv"; "deconv"] ∧ (3 ≤ length (inputs o))%nat →
     ∃ b bias,
       inputs o !! 2%nat = Some b ∧ tensors g !! b = Some bias ∧
       ((is_constant bias = true ∧ data bias = [0]) ∨
        ∃ out t, outputs o = [out] ∧ tensors g !! out = Some t)) →
  outcome _transform_extract_bias_add g = Ok tt.
Proof.
  intros Hall. unfold outcome. rewrite _transform_extract_bias_add_unfold.
  apply (for_each_completes _ bias_ready).
  - apply framed_extract_bias_add_body.
  - apply bias_ready_body.
  - apply bias_ready_stable.
  - apply NoDup_seq.
  - intros k Hk. apply list_elem_of_In, in_seq in Hk.
    destruct (lookup_lt_is_Some_2 (operations g) k ltac:(lia)) as [o Hop].
    exists o. split; [done | exact (Hall k o Hop)].
Qed.

Lemma bias_pass_completes_witness :
  outcome _transform_extract_bias_add Sample.conv_with_bias = Ok tt.
Proof.
  apply (bias_pass_completes Sample.conv_with_bias).
  intros [| h] o Ho; [| discriminate]. injection Ho as <-. intros _.
  exists 2%nat, (Sample.tensor [1; 8]).
  split; [reflexivity |]. split; [reflexivity |].
  right. exists 3%nat, (Sample.tensor [1; 8; 10; 10]). split; reflexivity.
Defined.

(** ** The two rewrites in sequence *)

Lemma has_bias_supported o : has_bias o → In (name o) supported_ops.
Proof.
  intros [Hn _]. cbn in Hn |- *.
  destruct Hn as [<- | [<- | []]]; tauto.
Qed.

(** X17: the entry point runs the padding pass, then the bias pass, then the
    two finalisers, and stops at the first failure.  Whatever graph the two
    rewrites leave (to the finalisers, or at the failure), they have only
    appended tensors to it, and every operation of the original graph is
    still there with its name, its attributes apart from [padding] and its
    second input; an operation of an unsupported kind is exactly as it
    was. *)
Theorem pre_conversion_pass_stages (generate_missing_names assert_consistent : M unit) g :
  ∃ r g2,
    (_transform_extract_padding;;; _transform_extract_bias_add) g = (r, g2) ∧
    pre_conversion_pass generate_missing_names assert_consistent g =
      match r with
      | Ok _ => (generate_missing_names;;; assert_consistent) g2
      | Err e => (Err e, g2)
      end ∧
    tensors g `prefix_of` tensors g2 ∧
    ∀ j o, operations g !! j = Some o →
      ∃ o', operations g2 !! j = Some o' ∧
            name o' = name o ∧
            (∀ key, key ≠ "padding" → attribs o' !! key = attribs o !! key) ∧
            inputs o' !! 1%nat = inputs o !! 1%nat ∧
            (¬ In (name o) supported_ops → o' = o).
Proof.
  pose proof (padding_inv_pass g) as (Hp1 & Hops1 & _). unfold final in *.
  unfold pre_conversion_pass.
  assert (Hidx : ∀ o o', drop 1 (inputs o') = drop 1 (inputs o) →
                         inputs o' !! 1%nat = inputs o !! 1%nat).
  { intros o o' Hd.
    assert (Hl : ∀ l : list nat, l !! 1%nat = drop 1 l !! 0%nat)
      by (intros l; by rewrite lookup_drop).
    by rewrite !Hl, Hd. }
  destruct (_transform_extract_padding g) as [[[] | e] g1] eqn:Hpad; cbn [snd] in *.
  - pose proof (bias_inv_pass g1) as (Hp2 & Hops2 & _). unfold final in *.
    destruct (_transform_extract_bias_add g1) as [r2 g2] eqn:Hbias; cbn [snd] in *.
    exists r2, g2. split; [unfold bind; by rewrite Hpad, Hbias |].
    split.
    { unfold bind. rewrite Hpad, Hbias. by destruct r2 as [[] |]. }
    split; [by etrans |].
    intros j o Ho.
    destruct (Hops1 j o Ho) as (o1 & Ho1 & Hn1 & _ & Hd1 & _ & Ha1 & Hu1).
    destruct (Hops2 j o1 Ho1) as (o2 & Ho2 & Hn2 & Ha2 & Ht2 & _ & _ & Hu2).
    exists o2. split; [done |]. split; [congruence |].
    split; [intros key Hk; rewrite Ha2; by apply Ha1 |].
    split.
    + rewrite <- (Hidx o o1 Hd1).
      rewrite <- (lookup_take_lt (inputs o2) 2 1), <- (lookup_take_lt (inputs o1) 2 1)
        by lia.
      by rewrite Ht2.
    + intros Hns. rewrite Hu2; [by apply Hu1 |].
      intros Hb. apply Hns. rewrite <- Hn1. by apply has_bias_supported.
  - exists (Err e), g1. split; [unfold bind; by rewrite Hpad |].
    split; [unfold bind; by rewrite Hpad |].
    split; [done |].
    intros j o Ho.
    destruct (Hops1 j o Ho) as (o1 & Ho1 & Hn1 & _ & Hd1 & _ & Ha1 & Hu1).
    exists o1. split; [done |]. split; [done |]. split; [done |].
    split; [by apply Hidx | done].
Qed.

Lemma padding_pass_forward_result g g' h o pads b d i rest x :
  operations g !! h = Some o →
  In (name o) forward_ops →
  attribs o !! "padding" = Some (APairs pads) →
  attribs o !! "border" = Some (AStr b) →
  out_of_op (resolve (name o) pads (lower b)) = Some d →
  inputs o = i :: rest →
  tensors g !! i = Some x →
  _transform_extract_padding g = (Ok tt, g') →
  ∃ j t,
    (length (operations g) ≤ j)%nat ∧ (length (tensors g) ≤ t)%nat ∧
    operations g' !! j = Some (pad_operation i t x (AStr b) d) ∧
    tensors g' !! t = Some (pad_tensor x d) ∧
    operations g' !! h =
      Some (mkOperation (name o) (t :: rest) (outputs o)
              (<["padding" := AStr _InOpPadding.VALID]> (attribs o))).
Proof.
  intros Hop Hfw Hp Hb Hd Hin Hx Hrun.
  rewrite _transform_extract_padding_unfold in Hrun.
  destruct (for_each_snapshot_step _ framed_extract_padding_body g g' h Hrun)
    as (g1 & g2 & Hbody & Hop1 & Hpre1 & Hlen1 & Hpre2 & Hrest).
  { by eapply lookup_lt_Some. }
  rewrite Hop in Hop1.
  assert (Hx1 : tensors g1 !! i = Some x) by by eapply prefix_lookup_Some.
  rewrite (extract_padding_body_forward_Some g1 h o pads b Hop1 Hp Hb d i rest x
             Hfw Hd Hin Hx1) in Hbody.
  rewrite (resolve_Some_in_op _ _ _ _ Hd) in Hbody.
  injection Hbody as <-. cbn [tensors operations] in *.
  assert (Hh1 : (h < length (operations g1))%nat) by by eapply lookup_lt_Some.
  exists (length (operations g1)), (length (tensors g1)).
  split; [done |]. split; [by apply prefix_length |].
  split.
  { rewrite Hrest.
    - rewrite lookup_app_r by (rewrite length_insert; lia).
      rewrite length_insert, Nat.sub_diag. reflexivity.
    - right. lia.
    - rewrite length_app, length_insert. cbn. lia. }
  split.
  { eapply prefix_lookup_Some; [| exact Hpre2].
    rewrite lookup_app_r by lia. by rewrite Nat.sub_diag. }
  rewrite Hrest.
  - rewrite lookup_app_l by (by rewrite length_insert).
    by apply list_lookup_insert_eq.
  - by left.
  - rewrite length_app, length_insert. lia.
Qed.

Lemma bias_pass_split_result g g' h o b bias out t :
  operations g !! h = Some o →
  In (name o) ["conv"; "deconv"] →
  inputs o !! 2%nat = Some b →
  tensors g !! b = Some bias →
  ¬ (is_constant bias = true ∧ data bias = [0]) →
  outputs o = [out] →
  tensors g !! out = Some t →
  _transform_extract_bias_add g = (Ok tt, g') →
  ∃ fresh j,
    (length (tensors g) ≤ fresh)%nat ∧ (length (operations g) ≤ j)%nat ∧
    operations g' !! h =
      Some (mkOperation (name o) (take 2 (inputs o)) [fresh] (attribs o)) ∧
    tensors g' !! fresh = Some (mkTensor None (shape t) (dtype t) false []) ∧
    operations g' !! j = Some (mkOperation "_bias_add" [fresh; b] [out] ∅).
Proof.
  intros Hop Hname Hb Hbias Hnz Hout Ht Hrun.
  rewrite _transform_extract_bias_add_unfold in Hrun.
  destruct (for_each_snapshot_step _ framed_extract_bias_add_body g g' h Hrun)
    as (g1 & g2 & Hbody & Hop1 & Hpre1 & Hlen1 & Hpre2 & Hrest).
  { by eapply lookup_lt_Some. }
  rewrite Hop in Hop1.
  assert (Hbias1 : tensors g1 !! b = Some bias) by by eapply prefix_lookup_Some.
  assert (Ht1 : tensors g1 !! out = Some t) by by eapply prefix_lookup_Some.
  rewrite (extract_bias_add_body_nonzero g1 h o b bias Hop1 Hname Hb Hbias1 out t
             Hnz Hout Ht1) in Hbody.
  injection Hbody as <-. cbn [tensors operations] in *.
  assert (Hh1 : (h < length (operations g1))%nat) by by eapply lookup_lt_Some.
  exists (length (tensors g1)), (length (operations g1)).
  split; [by apply prefix_length |]. split; [done |].
  split.
  { rewrite Hrest.
    - rewrite lookup_app_l by (by rewrite length_insert).
      by apply list_lookup_insert_eq.
    - by left.
    - rewrite length_app, length_insert. lia. }
  split.
  { eapply prefix_lookup_Some; [| exact Hpre2].
    rewrite lookup_app_r by lia. by rewrite Nat.sub_diag. }
  rewrite Hrest.
  - rewrite lookup_app_r by (rewrite length_insert; lia).
    rewrite length_insert, Nat.sub_diag. reflexivity.
  - right. lia.
  - rewrite length_app, length_insert. cbn. lia.
Qed.

(** X18: the two rewrites compose.  For a convolution whose stored padding
    has a positive entry and whose third input is a bias other than the
    constant [[0]], once both passes have completed the convolution reads
    the padding operator's output and its filter only, carries the "VALID"
    tag, and writes a fresh tensor; the padding operator built by the first
    pass is untouched by the second; and a [_bias_add] turns the fresh
    tensor and the bias into the original output tensor. *)
Theorem rewrites_compose g g1 g2 h o pads b i f c rest x bias out t :
  operations g !! h = Some o →
  name o = "conv" →
  attribs o !! "padding" = Some (APairs pads) →
  attribs o !! "border" = Some (AStr b) →
  recursive_any pads positive = true →
  inputs o = i :: f :: c :: rest →
  outputs o = [out] →
  tensors g !! i = Some x →
  tensors g !! c = Some bias →
  ¬ (is_constant bias = true ∧ data bias = [0]) →
  tensors g !! out = Some t →
  _transform_extract_padding g = (Ok tt, g1) →
  _transform_extract_bias_add g1 = (Ok tt, g2) →
  ∃ padded fresh jp ja,
    operations g2 !! h =
      Some (mkOperation "conv" [padded; f] [fresh]
              (<["padding" := AStr "VALID"]> (attribs o))) ∧
    operations g2 !! jp =
      Some (mkOperation "box" [i] [padded]
              (<["size" := AInts (replicate (rank x) 1)]>
                 (<["border" := AStr b]>
                    (<["padding" := APairs ([(0, 0); (0, 0)] ++ pads)]> ∅)))) ∧
    tensors g2 !! padded =
      Some (mkTensor None (padded_shape (shape x) ([(0, 0); (0, 0)] ++ pads))
              (dtype x) false []) ∧
    operations g2 !! ja = Some (mkOperation "_bias_add" [fresh; c] [out] ∅) ∧
    tensors g2 !! fresh = Some (mkTensor None (shape t) (dtype t) false []) ∧
    tensors g2 !! out = Some t ∧
    padded ≠ fresh ∧ tensors g !! padded = None ∧ tensors g !! fresh = None.
Proof.
  intros Hop Hname Hp Hb Hany Hin Hout Hx Hc Hnz Ht Hrun1 Hrun2.
  assert (Hfw : In (name o) forward_ops) by (rewrite Hname; cbn; tauto).
  assert (Hd : out_of_op (resolve (name o) pads (lower b))
               = Some ([(0, 0); (0, 0)] ++ pads)).
  { unfold resolve. rewrite Hname, Hany.
    destruct pads as [| q pads']; [discriminate |]. reflexivity. }
  destruct (padding_pass_forward_result g g1 h o pads b _ i (f :: c :: rest) x
              Hop Hfw Hp Hb Hd Hin Hx Hrun1)
    as (jp & padded & Hjp & Hpadded & Hpad & Htp & Hop1).
  pose proof (padding_inv_pass g) as (Hpre1 & _).
  unfold final in Hpre1. rewrite Hrun1 in Hpre1. cbn [snd] in Hpre1.
  pose proof (bias_inv_pass g1) as (Hpre2 & Hops2 & _).
  unfold final in Hpre2, Hops2. rewrite Hrun2 in Hpre2, Hops2. cbn [snd] in *.
  set (o1 := mkOperation (name o) (padded :: f :: c :: rest) (outputs o)
               (<["padding" := AStr _InOpPadding.VALID]> (attribs o))) in *.
  destruct (bias_pass_split_result g1 g2 h o1 c bias out t Hop1)
    as (fresh & ja & Hfresh & Hja & Hop2 & Htf & Hadd); try done.
  { cbn. rewrite Hname. tauto. }
  { by eapply prefix_lookup_Some. }
  { by eapply prefix_lookup_Some. }
  pose proof (prefix_length _ _ Hpre1) as Hlen1.
  assert (Hpl : (padded < length (tensors g1))%nat) by by eapply lookup_lt_Some.
  exists padded, fresh, jp, ja.
  split; [by rewrite Hop2; cbn; rewrite Hname |].
  split.
  { destruct (Hops2 jp _ Hpad) as (o' & Ho' & _ & _ & _ & _ & _ & Hu).
    rewrite Ho', Hu; [done |].
    intros [Hn _]. cbn in Hn. destruct Hn as [Hn | [Hn | []]]; discriminate. }
  split; [by eapply prefix_lookup_Some |].
  split; [done |]. split; [done |].
  split; [eapply prefix_lookup_Some; [| exact Hpre2]; by eapply prefix_lookup_Some |].
  split; [lia |].
  split; apply lookup_ge_None; lia.
Qed.

Lemma rewrites_compose_witness :
  ∃ padded fresh jp ja,
    operations (final _transform_extract_bias_add
                  (final _transform_extract_padding Sample.conv_with_bias)) !! 0%nat =
      Some (mkOperation "conv" [padded; 1%nat] [fresh]
              (<["padding" := AStr "VALID"]> (attribs Sample.conv_op))) ∧
    operations (final _transform_extract_bias_add
                  (final _transform_extract_padding Sample.conv_with_bias)) !! jp =
      Some (mkOperation "box" [0%nat] [padded]
              (<["size" := AInts (replicate 4 1)]>
                 (<["border" := AStr "constant"]>
                    (<["padding" := APairs ([(0, 0); (0, 0)] ++ [(1, 1); (1, 1)])]> ∅)))) ∧
    tensors (final _transform_extract_bias_add
               (final _transform_extract_padding Sample.conv_with_bias)) !! padded =
      Some (mkTensor None
              (padded_shape [1; 3; 10; 10] ([(0, 0); (0, 0)] ++ [(1, 1); (1, 1)]))
              "scalar" false []) ∧
    operations (final _transform_extract_bias_add
                  (final _transform_extract_padding Sample.conv_with_bias)) !! ja
      = Some (mkOperation "_bias_add" [fresh; 2%nat] [3%nat] ∅) ∧
    tensors (final _transform_extract_bias_add
               (final _transform_extract_padding Sample.conv_with_bias)) !! fresh
      = Some (mkTensor None [1; 8; 10; 10] "scalar" false []) ∧
    tensors (final _transform_extract_bias_add
               (final _transform_extract_padding Sample.conv_with_bias)) !! 3%nat
      = Some (Sample.tensor [1; 8; 10; 10]) ∧
    padded ≠ fresh ∧
    tensors Sample.conv_with_bias !! padded = None ∧
    tensors Sample.conv_with_bias !! fresh = None.
Proof.
  apply (rewrites_compose Sample.conv_with_bias
           (final _transform_extract_padding Sample.conv_with_bias)
           (final _transform_extract_bias_add
              (final _transform_extract_padding Sample.conv_with_bias))
           0 Sample.conv_op [(1, 1); (1, 1)] "constant" 0%nat 1%nat 2%nat []
           (Sample.tensor [1; 3; 10; 10]) (Sample.tensor [1; 8]) 3%nat
           (Sample.tensor [1; 8; 10; 10]));
    first [ reflexivity
          | vm_compute; reflexivity
          | cbn; intros [H _]; discriminate ].
Defined.

(** ** Edge cases of the padding pass *)

(** X19: a forward operator whose decision carries a descriptor but which
    has no input makes the iteration raise [IndexError] at
    [nnefop.inputs[0]], after the padding attribute was overwritten with
    "VALID": the stored padding is lost, and no tensor or operation was
    added. *)
Theorem padding_without_input_fails g h o pads b :
  operations g !! h = Some o →
  In (name o) forward_ops →
  attribs o !! "padding" = Some (APairs pads) →
  attribs o !! "border" = Some (AStr b) →
  recursive_any pads positive = true →
  inputs o = [] →
  extract_padding_body h g =
    (Err IndexError,
     mkGraph (tensors g)
       (<[h := with_attrib o "padding" (AStr _InOpPadding.VALID)]> (operations g))).
Proof.
  intros Hop Hfw Hp Hb Hany Hin.
  destruct (recursive_any_resolve_Some (name o) pads (lower b) Hany) as [d Hd].
  rewrite (extract_padding_body_prefix g h o pads b Hop Hp Hb (forward_supported _ Hfw)).
  rewrite Hd, (forward_not_backward _ Hfw), (resolve_Some_in_op _ _ _ _ Hd).
  unfold bind at 1. cbn [ret].
  assert (H1 : operations
                 (mkGraph (tensors g)
                    (<[h := with_attrib o "padding" (AStr _InOpPadding.VALID)]>
                       (operations g))) !! h
               = Some (with_attrib o "padding" (AStr _InOpPadding.VALID))).
  { cbn. apply list_lookup_insert_eq. by eapply lookup_lt_Some. }
  rewrite (bind_Ok _ _ _ _ _ (get_op_Ok _ _ _ H1)).
  unfold bind, lift, index. cbn [inputs with_attrib]. by rewrite Hin.
Qed.

Lemma padding_without_input_fails_witness :
  extract_padding_body 0 Sample.no_input =
    (Err IndexError,
     mkGraph (tensors Sample.no_input)
       (<[0%nat := with_attrib
                     (mkOperation "max_pool" [] [0%nat]
                        (Sample.attrs [(0, 0); (0, 0); (1, 1); (1, 1)] "ignore"
                           [1; 1; 3; 3]))
                     "padding" (AStr _InOpPadding.VALID)]>
          (operations Sample.no_input))).
Proof.
  apply (padding_without_input_fails Sample.no_input 0
           (mkOperation "max_pool" [] [0%nat]
              (Sample.attrs [(0, 0); (0, 0); (1, 1); (1, 1)] "ignore" [1; 1; 3; 3]))
           [(0, 0); (0, 0); (1, 1); (1, 1)] "ignore").
  - reflexivity.
  - cbn. tauto.
  - vm_compute. reflexivity.
  - vm_compute. reflexivity.
  - reflexivity.
  - reflexivity.
Defined.

Lemma supported_family nm :
  In nm supported_ops → xorb (str_in "pool" nm) (str_in "conv" nm) = true.
Proof.
  intros H. cbn in H.
  repeat (destruct H as [<- | H]; [reflexivity |]). contradiction.
Qed.

(** X20: with an empty stored padding, no supported operator ever gets a
    descriptor, whatever its shapes: every supported name contains exactly
    one of "pool" and "conv", and the decision is "SAME" when the border is
    the one of that family ("ignore" for "pool", "constant" for "conv") and
    "VALID" otherwise; the iteration then only writes that tag. *)
Theorem empty_padding_never_padded g h o b :
  operations g !! h = Some o →
  In (name o) supported_ops →
  attribs o !! "padding" = Some (APairs []) →
  attribs o !! "border" = Some (AStr b) →
  xorb (str_in "pool" (name o)) (str_in "conv" (name o)) = true ∧
  _get_paddings h g =
    (Ok (mk_Paddings
           (if (str_in "pool" (name o) && String.eqb (lower b) "ignore")
               || (str_in "conv" (name o) && String.eqb (lower b) "constant")
            then _InOpPadding.SAME else _InOpPadding.VALID)
           None), g) ∧
  extract_padding_body h g =
    (Ok tt,
     mkGraph (tensors g)
       (<[h := with_attrib o "padding"
                 (AStr (if (str_in "pool" (name o) && String.eqb (lower b) "ignore")
                           || (str_in "conv" (name o)
                               && String.eqb (lower b) "constant")
                        then _InOpPadding.SAME else _InOpPadding.VALID))]>
          (operations g))).
Proof.
  intros Hop Hs Hp Hb.
  split; [by apply supported_family |].
  assert (Hres : resolve (name o) [] (lower b) =
            mk_Paddings
              (if (str_in "pool" (name o) && String.eqb (lower b) "ignore")
                  || (str_in "conv" (name o) && String.eqb (lower b) "constant")
               then _InOpPadding.SAME else _InOpPadding.VALID) None).
  { unfold resolve. cbn [length Nat.eqb andb recursive_any existsb negb].
    destruct (str_in "pool" (name o) && String.eqb (lower b) "ignore"); [done |].
    by destruct (str_in "conv" (name o) && String.eqb (lower b) "constant"). }
  split.
  { rewrite (_get_paddings_resolve _ _ _ _ _ Hop Hp Hb). by rewrite Hres. }
  rewrite (extract_padding_body_None g h o [] b Hop Hp Hb);
    [by rewrite Hres | by apply str_elem_In | by rewrite Hres].
Qed.

Lemma empty_padding_never_padded_witness :
  xorb (str_in "pool" "max_pool_grad") (str_in "conv" "max_pool_grad") = true ∧
  _get_paddings 0 Sample.pool_grad_auto =
    (Ok (mk_Paddings _InOpPadding.VALID None), Sample.pool_grad_auto) ∧
  extract_padding_body 0 Sample.pool_grad_auto =
    (Ok tt,
     mkGraph (tensors Sample.pool_grad_auto)
       (<[0%nat := with_attrib
                     (mkOperation "max_pool_grad" [0; 1; 2]%nat [3%nat]
                        (Sample.attrs [] "constant" [1; 1; 3; 3]))
                     "padding" (AStr _InOpPadding.VALID)]>
          (operations Sample.pool_grad_auto))).
Proof.
  apply (empty_padding_never_padded Sample.pool_grad_auto 0
           (mkOperation "max_pool_grad" [0; 1; 2]%nat [3%nat]
              (Sample.attrs [] "constant" [1; 1; 3; 3]))
           "constant").
  - reflexivity.
  - cbn. tauto.
  - vm_compute. reflexivity.
  - vm_compute. reflexivity.
Defined.

(** ** Counting what a completed padding pass inserts *)

Lemma for_each_count (body : nat → M unit) (w : NNEFOperation → nat)
    (J : NNEFGraph → Prop) (P : NNEFOperation → Prop) :
  (∀ k, framed [k] (body k)) →
  (∀ g k, J g → J (body k g).2) →
  (∀ g k g' o, J g → P o → body k g = (Ok tt, g') → operations g !! k = Some o →
               length (operations g') = (length (operations g) + w o)%nat) →
  ∀ l g g', NoDup l →
    (∀ k, k ∈ l → ∃ o, operations g !! k = Some o ∧ P o) →
    J g →
    for_each l body g = (Ok tt, g') →
    length (operations g') =
      (length (operations g)
       + sum_list_with (λ k, default 0%nat (w <$> operations g !! k)) l)%nat.
Proof.
  intros Hframed HJ Hstep l.
  induction l as [| k l IH]; intros g g' Hnd Hall Hg Hrun; cbn [for_each] in Hrun.
  { injection Hrun as <-. cbn. lia. }
  apply NoDup_cons in Hnd as [Hk Hnd].
  apply bind_inv_Ok in Hrun as ([] & g1 & Hbody & Hrun).
  destruct (Hall k (list_elem_of_here _ _)) as (o & Hop & HP).
  pose proof (Hstep g k g1 o Hg HP Hbody Hop) as Hlen.
  pose proof (HJ g k Hg) as Hg1.
  pose proof (Hframed k g) as (_ & Hle & Hsame).
  rewrite Hbody in Hle, Hsame, Hg1. cbn [snd] in *.
  assert (Hkeep : ∀ j, j ∈ l → operations g1 !! j = operations g !! j).
  { intros j Hj. destruct (Hall j (list_elem_of_further _ _ _ Hj)) as (oj & Hoj & _).
    apply Hsame; [| by eapply lookup_lt_Some].
    intros ->%list_elem_of_singleton. done. }
  rewrite (IH g1 g' Hnd); [| | done | done].
  - cbn [sum_list_with]. rewrite Hop. cbn [fmap option_fmap option_map default].
    rewrite Hlen.
    assert (Heq : sum_list_with (λ k0, default 0%nat (w <$> operations g1 !! k0)) l
                  = sum_list_with (λ k0, default 0%nat (w <$> operations g !! k0)) l).
    { clear IH Hrun Hnd Hk Hall. induction l as [| j l IHl]; [done |].
      cbn [sum_list_with].
      rewrite IHl by (intros j' Hj'; by apply Hkeep, list_elem_of_further).
      by rewrite (Hkeep j (list_elem_of_here _ _)). }
    rewrite Heq. unfold id. lia.
  - intros j Hj. rewrite (Hkeep j Hj). apply Hall. by apply list_elem_of_further.
Qed.

Lemma sum_over_snapshot (w : NNEFOperation → nat) (ops : list NNEFOperation) :
  sum_list_with (λ k, default 0%nat (w <$> ops !! k)) (seq 0 (length ops))
  = sum_list_with w ops.
Proof.
  induction ops as [| o ops IH] using rev_ind; [done |].
  rewrite length_app. cbn [length]. rewrite Nat.add_1_r, seq_S.
  rewrite !sum_list_with_app. cbn [sum_list_with plus].
  rewrite lookup_app_r by lia. rewrite Nat.sub_diag. cbn.
  f_equal. rewrite <- IH.
  assert (Hext : ∀ n, (n ≤ length ops)%nat →
            sum_list_with (λ k, default 0%nat (w <$> (ops ++ [o]) !! k)) (seq 0 n)
            = sum_list_with (λ k, default 0%nat (w <$> ops !! k)) (seq 0 n)).
  { induction n as [| n IHn]; [done |]. intros Hn.
    rewrite seq_S, !sum_list_with_app. cbn [sum_list_with plus].
    rewrite IHn by lia. by rewrite lookup_app_l by lia. }
  by apply Hext.
Qed.

Lemma extract_padding_body_count g k g' o :
  extract_padding_body k g = (Ok tt, g') →
  operations g !! k = Some o →
  length (operations g') =
    (length (operations g) + (if needs_padding o then 1 else 0))%nat.
Proof.
  intros Hbody Hop.
  destruct (extract_padding_body_cases g k) as (r & g2 & Hb' & Hcases).
  rewrite Hbody in Hb'. injection Hb' as <- <-.
  destruct Hcases as [[-> Hu] | [(o0 & p & Hop0 & _ & Hget & -> & Hnone)
    | (o0 & p & d & i & x & border & Hop0 & Hs & Hnb & Hget & Hd & _ & _ & _ & _ & ->)]].
  - destruct (Hu eq_refl) as (o0 & Hop0 & Hn).
    rewrite Hop in Hop0. injection Hop0 as <-.
    assert (Hf : str_elem (name o) forward_ops = false).
    { apply str_elem_not_In. intros Hfw. apply Hn, str_elem_In.
      by apply forward_supported. }
    unfold needs_padding. rewrite Hf. cbn. lia.
  - rewrite Hop in Hop0. injection Hop0 as <-.
    destruct (_get_paddings_inv _ _ _ _ Hget)
      as (_ & o0 & pv & pads & bv & b & Hop0 & Hp & Hpv & Hb & Hbv & ->).
    rewrite Hop in Hop0. injection Hop0 as <-.
    assert (Hany : recursive_any pads positive = false).
    { apply not_true_is_false. intros Hany.
      apply (resolve_descriptor (name o) pads (lower b)) in Hany.
      by apply Hany, Hnone. }
    unfold needs_padding. rewrite Hp, Hpv, Hany, andb_false_r.
    cbn. rewrite length_insert. lia.
  - rewrite Hop in Hop0. injection Hop0 as <-.
    destruct (_get_paddings_inv _ _ _ _ Hget)
      as (_ & o0 & pv & pads & bv & b & Hop0 & Hp & Hpv & Hb & Hbv & ->).
    rewrite Hop in Hop0. injection Hop0 as <-.
    assert (Hany : recursive_any pads positive = true).
    { apply (resolve_descriptor (name o) pads (lower b)). by rewrite Hd. }
    assert (Hf : str_elem (name o) forward_ops = true).
    { apply str_elem_In. unfold supported_ops in Hs.
      apply in_app_or in Hs as [Hfw | Hbk]; [done | by destruct Hnb]. }
    unfold needs_padding. rewrite Hf, Hp, Hpv, Hany.
    cbn. rewrite length_app, length_insert. cbn. lia.
Qed.

(** X21: a completed padding pass has inserted exactly one padding operator
    (and one tensor) for each forward operator whose stored padding has a
    positive entry, and nothing else. *)
Theorem padding_pass_count g g' :
  _transform_extract_padding g = (Ok tt, g') →
  length (operations g') =
    (length (operations g)
     + sum_list_with (λ o, if needs_padding o then 1 else 0) (operations g))%nat ∧
  length (tensors g') =
    (length (tensors g)
     + sum_list_with (λ o, if needs_padding o then 1 else 0) (operations g))%nat.
Proof.
  intros Hrun.
  assert (Hops : length (operations g') =
            (length (operations g)
             + sum_list_with (λ o, if needs_padding o then 1 else 0)
                 (operations g))%nat).
  { pose proof Hrun as Hrun'. rewrite _transform_extract_padding_unfold in Hrun'.
    rewrite <- sum_over_snapshot.
    apply (for_each_count extract_padding_body
             (λ o, if needs_padding o then 1 else 0)%nat
             (λ _, True) (λ _, True) framed_extract_padding_body);
      [done | | apply NoDup_seq | | done | done].
    - intros g0 k g0' o _ _. apply extract_padding_body_count.
    - intros k Hk. apply list_elem_of_In, in_seq in Hk.
      destruct (lookup_lt_is_Some_2 (operations g) k ltac:(lia)) as [o Hop]. eauto. }
  split; [done |].
  pose proof (padding_inv_pass g) as (_ & _ & _ & _ & Hbal).
  unfold final in Hbal. rewrite Hrun in Hbal. cbn [snd] in Hbal. lia.
Qed.

Lemma padding_pass_count_witness :
  length (operations (final _transform_extract_padding Sample.conv_zero_bias)) =
    (length (operations Sample.conv_zero_bias)
     + sum_list_with (λ o, if needs_padding o then 1 else 0)
         (operations Sample.conv_zero_bias))%nat ∧
  length (tensors (final _transform_extract_padding Sample.conv_zero_bias)) =
    (length (tensors Sample.conv_zero_bias)
     + sum_list_with (λ o, if needs_padding o then 1 else 0)
         (operations Sample.conv_zero_bias))%nat.
Proof.
  apply (padding_pass_count Sample.conv_zero_bias). vm_compute. reflexivity.
Defined.

(** ** Counting what a completed bias pass inserts *)

Lemma extract_bias_add_body_count g0 g k g' o :
  tensors g0 `prefix_of` tensors g →
  (∀ b, inputs o !! 2%nat = Some b → (b < length (tensors g0))%nat) →
  extract_bias_add_body k g = (Ok tt, g') →
  operations g !! k = Some o →
  length (operations g') =
    (length (operations g) + (if splits_bias g0 o then 1 else 0))%nat.
Proof.
  intros Hpre Hvalid Hbody Hop. unfold splits_bias.
  destruct (str_elem (name o) ["conv"; "deconv"] && (3 <=? length (inputs o))%nat)
    eqn:Hq; cycle 1.
  { rewrite (extract_bias_add_body_skip _ _ _ Hop) in Hbody.
    - injection Hbody as <-. cbn. lia.
    - intros Hb. apply has_bias_test in Hb. congruence. }
  pose proof (proj1 (has_bias_test o) Hq) as [Hname Hlen].
  destruct (lookup_lt_is_Some_2 (inputs o) 2 ltac:(lia)) as [b Hb].
  destruct (lookup_lt_is_Some_2 (tensors g0) b (Hvalid b Hb)) as [bias Hbias0].
  pose proof (prefix_lookup_Some _ _ _ _ Hbias0 Hpre) as Hbias.
  rewrite Hb, Hbias0. cbn [andb].
  rewrite (extract_bias_add_body_prefix g k o b bias Hop Hname Hb Hbias) in Hbody.
  destruct (negb (is_constant bias && is_zero_data (data bias))) eqn:Hnz.
  - pose proof (bias_g1_lookup g k o Hop) as H1.
    rewrite (bind_Ok _ _ _ _ _ (get_op_Ok _ _ _ H1)) in Hbody.
    unfold output in Hbody. cbn [outputs with_inputs] in Hbody.
    destruct (outputs o) as [| out [| out2 outs]] eqn:Hout; try discriminate.
    unfold bind at 1 in Hbody. cbn [lift] in Hbody.
    destruct (tensors g !! out) as [t |] eqn:Ht; cycle 1.
    { unfold bind, get_tensor in Hbody. cbn [tensors] in Hbody.
      rewrite Ht in Hbody. discriminate. }
    assert (Hnz' : ¬ (is_constant bias = true ∧ data bias = [0])).
    { intros [Hc Hd]. rewrite Hc, Hd in Hnz. discriminate. }
    pose proof (extract_bias_add_body_nonzero g k o b bias Hop Hname Hb Hbias out t
                  Hnz' Hout Ht) as Hfull.
    rewrite (extract_bias_add_body_prefix g k o b bias Hop Hname Hb Hbias) in Hfull.
    rewrite Hnz in Hfull.
    rewrite (bind_Ok _ _ _ _ _ (get_op_Ok _ _ _ H1)) in Hfull.
    unfold output in Hfull. cbn [outputs with_inputs] in Hfull.
    rewrite Hout in Hfull. unfold bind at 1 in Hfull. cbn [lift] in Hfull.
    rewrite Hfull in Hbody. injection Hbody as <-.
    cbn. rewrite length_app, length_insert. cbn. lia.
  - injection Hbody as <-. cbn. rewrite length_insert. lia.
Qed.

(** X22: on a graph whose bias handles are tensors of the graph, a completed
    bias pass has inserted exactly one [_bias_add] (and one tensor) for each
    convolution or deconvolution with three inputs or more whose third input
    is not the constant [[0]], and nothing else. *)
Theorem bias_pass_count g g' :
  (∀ k o b, operations g !! k = Some o → inputs o !! 2%nat = Some b →
            (b < length (tensors g))%nat) →
  _transform_extract_bias_add g = (Ok tt, g') →
  length (operations g') =
    (length (operations g)
     + sum_list_with (λ o, if splits_bias g o then 1 else 0) (operations g))%nat ∧
  length (tensors g') =
    (length (tensors g)
     + sum_list_with (λ o, if splits_bias g o then 1 else 0) (operations g))%nat.
Proof.
  intros Hvalid Hrun.
  assert (Hops : length (operations g') =
            (length (operations g)
             + sum_list_with (λ o, if splits_bias g o then 1 else 0)
                 (operations g))%nat).
  { pose proof Hrun as Hrun'. rewrite _transform_extract_bias_add_unfold in Hrun'.
    rewrite <- sum_over_snapshot.
    apply (for_each_count extract_bias_add_body
             (λ o, if splits_bias g o then 1 else 0)%nat
             (λ g1, tensors g `prefix_of` tensors g1)
             (λ o, ∀ b, inputs o !! 2%nat = Some b → (b < length (tensors g))%nat)
             framed_extract_bias_add_body);
      [| | apply NoDup_seq | | done | done].
    - intros g1 k Hpre.
      destruct (framed_extract_bias_add_body k g1) as (Hp & _). by etrans.
    - intros g1 k g1' o Hpre HP. by apply extract_bias_add_body_count.
    - intros k Hk. apply list_elem_of_In, in_seq in Hk.
      destruct (lookup_lt_is_Some_2 (operations g) k ltac:(lia)) as [o Hop].
      exists o. split; [done |]. intros b. by apply (Hvalid k). }
  split; [done |].
  pose proof (bias_inv_pass g) as (_ & _ & _ & _ & Hbal).
  unfold final in Hbal. rewrite Hrun in Hbal. cbn [snd] in Hbal. lia.
Qed.

Lemma bias_pass_count_witness :
  length (operations (final _transform_extract_bias_add Sample.conv_with_bias)) =
    (length (operations Sample.conv_with_bias)
     + sum_list_with (λ o, if splits_bias Sample.conv_with_bias o then 1 else 0)
         (operations Sample.conv_with_bias))%nat ∧
  length (tensors (final _transform_extract_bias_add Sample.conv_with_bias)) =
    (length (tensors Sample.conv_with_bias)
     + sum_list_with (λ o, if splits_bias Sample.conv_with_bias o then 1 else 0)
         (operations Sample.conv_with_bias))%nat.
Proof.
  apply (bias_pass_count Sample.conv_with_bias).
  - intros [| k] o b Ho Hb; [| discriminate]. injection Ho as <-.
    injection Hb as <-. cbn. lia.
  - vm_compute. reflexivity.
Defined.

(** * The rewrites on a graph where the pass completes (C1, C4, C5) *)

Lemma padding_pass_runs g :
  (∀ k, (k < length (operations g))%nat → padding_ready g k) →
  ∃ g', _transform_extract_padding g = (Ok tt, g').
Proof.
  intros Hall.
  assert (Hout : (_transform_extract_padding g).1 = Ok tt).
  { rewrite _transform_extract_padding_unfold.
    apply (for_each_completes _ padding_ready).
    - apply framed_extract_padding_body.
    - apply padding_ready_body.
    - apply padding_ready_stable.
    - apply NoDup_seq.
    - intros k Hk. apply list_elem_of_In, in_seq in Hk. apply Hall. lia. }
  destruct (_transform_extract_padding g) as [r g']. cbn in Hout. subst r. eauto.
Qed.

Lemma bias_pass_runs g :
  (∀ k, (k < length (operations g))%nat → bias_ready g k) →
  ∃ g', _transform_extract_bias_add g = (Ok tt, g').
Proof.
  intros Hall.
  assert (Hout : (_transform_extract_bias_add g).1 = Ok tt).
  { rewrite _transform_extract_bias_add_unfold.
    apply (for_each_completes _ bias_ready).
    - apply framed_extract_bias_add_body.
    - apply bias_ready_body.
    - apply bias_ready_stable.
    - apply NoDup_seq.
    - intros k Hk. apply list_elem_of_In, in_seq in Hk. apply Hall. lia. }
  destruct (_transform_extract_bias_add g) as [r g']. cbn in Hout. subst r. eauto.
Qed.

(** C1 (amended): on a graph where every supported operator has a padding
    list and a border string, no backward operator has a positive entry in
    its stored padding, and every operator that has one has a first input in
    the graph, the padding-extraction pass completes; and for every forward
    operator whose padding decision carries an explicit descriptor, the graph
    it returns has a new padding operator (name [box], window size 1 in every
    dimension of the input, the consumer's border attribute, the descriptor
    as padding attribute) whose new output tensor has shape
    [input_shape[k] + before[k] + after[k]] in every dimension [k] and the
    input's element type; the consumer's first input is that new tensor, its
    other inputs, its name and its outputs are unchanged, and its padding
    attribute is the "VALID" tag. *)
Theorem C1_padding_operator_inserted g h o pads b p d i rest x :
  (∀ k o', operations g !! k = Some o' → In (name o') supported_ops →
     ∃ pads' b',
       attribs o' !! "padding" = Some (APairs pads') ∧
       attribs o' !! "border" = Some (AStr b') ∧
       (recursive_any pads' positive = true →
        In (name o') forward_ops ∧
        ∃ i' x', inputs o' !! 0%nat = Some i' ∧ tensors g !! i' = Some x')) →
  operations g !! h = Some o →
  In (name o) forward_ops →
  attribs o !! "padding" = Some (APairs pads) →
  attribs o !! "border" = Some (AStr b) →
  outcome (_get_paddings h) g = Ok p →
  out_of_op p = Some d →
  inputs o = i :: rest →
  tensors g !! i = Some x →
  ∃ g', _transform_extract_padding g = (Ok tt, g') ∧
    ∃ j t pad out o',
      (length (operations g) ≤ j)%nat ∧ (length (tensors g) ≤ t)%nat ∧
      operations g' !! j = Some pad ∧
      name pad = "box" ∧ inputs pad = [i] ∧ outputs pad = [t] ∧
      attribs pad !! "size" = Some (AInts (replicate (rank x) 1)) ∧
      attribs pad !! "border" = attribs o !! "border" ∧
      attribs pad !! "padding" = Some (APairs d) ∧
      tensors g' !! t = Some out ∧
      (∀ k s before after,
          shape x !! k = Some s → d !! k = Some (before, after) →
          shape out !! k = Some (s + before + after)) ∧
      length (shape out) = Nat.min (length (shape x)) (length d) ∧
      dtype out = dtype x ∧
      operations g' !! h = Some o' ∧
      inputs o' = t :: rest ∧
      name o' = name o ∧ outputs o' = outputs o ∧
      attribs o' = <["padding" := AStr _InOpPadding.VALID]> (attribs o).
Proof.
  intros Hready Hop Hfw Hp Hb Hdec Hd Hin Hx.
  unfold outcome in Hdec.
  rewrite (_get_paddings_resolve _ _ _ _ _ Hop Hp Hb) in Hdec.
  injection Hdec as <-.
  destruct (padding_pass_runs g) as [g' Hrun].
  { intros k Hk. destruct (lookup_lt_is_Some_2 (operations g) k Hk) as [o' Ho'].
    exists o'. split; [done | exact (Hready k o' Ho')]. }
  exists g'. split; [done |].
  destruct (padding_pass_forward_result g g' h o pads b d i rest x
              Hop Hfw Hp Hb Hd Hin Hx Hrun)
    as (j & t & Hj & Ht & Hpad & Htens & Hoph).
  exists j, t. eexists _, _, _.
  split; [done |]. split; [done |]. split; [exact Hpad |].
  do 4 (split; [reflexivity |]).
  split.
  { cbn [attribs pad_operation]. rewrite lookup_insert_ne by done.
    rewrite lookup_insert_eq. by rewrite Hb. }
  split.
  { cbn [attribs pad_operation].
    rewrite !lookup_insert_ne by done. by rewrite lookup_insert_eq. }
  split; [exact Htens |].
  split; [intros k s q1 q2; apply padded_shape_lookup |].
  split; [apply padded_shape_length |].
  split; [reflexivity |].
  split; [exact Hoph |]. done.
Qed.

Lemma C1_padding_operator_inserted_witness :
  ∃ g', _transform_extract_padding Sample.conv_zero_bias = (Ok tt, g') ∧
    ∃ j t pad out o',
      (length (operations Sample.conv_zero_bias) ≤ j)%nat ∧
      (length (tensors Sample.conv_zero_bias) ≤ t)%nat ∧
      operations g' !! j = Some pad ∧
      name pad = "box" ∧ inputs pad = [0%nat] ∧ outputs pad = [t] ∧
      attribs pad !! "size" = Some (AInts (replicate 4 1)) ∧
      attribs pad !! "border" = attribs Sample.conv_op !! "border" ∧
      attribs pad !! "padding" = Some (APairs [(0, 0); (0, 0); (1, 1); (1, 1)]) ∧
      tensors g' !! t = Some out ∧
      (∀ k s before after,
          [1; 3; 10; 10] !! k = Some s →
          [(0, 0); (0, 0); (1, 1); (1, 1)] !! k = Some (before, after) →
          shape out !! k = Some (s + before + after)) ∧
      length (shape out) = 4%nat ∧
      dtype out = "scalar" ∧
      operations g' !! 0%nat = Some o' ∧
      inputs o' = [t; 1; 2]%nat ∧
      name o' = "conv" ∧ outputs o' = [3%nat] ∧
      attribs o' = <["padding" := AStr _InOpPadding.VALID]> (attribs Sample.conv_op).
Proof.
  apply (C1_padding_operator_inserted Sample.conv_zero_bias 0 Sample.conv_op
           [(1, 1); (1, 1)] "constant"
           (mk_Paddings "VALID" (Some [(0, 0); (0, 0); (1, 1); (1, 1)]))
           [(0, 0); (0, 0); (1, 1); (1, 1)] 0 [1; 2]%nat
           (Sample.tensor [1; 3; 10; 10])).
  - intros [| k] o' Ho'; [| discriminate]. injection Ho' as <-. intros _.
    exists [(1, 1); (1, 1)], "constant".
    split; [vm_compute; reflexivity |].
    split; [vm_compute; reflexivity |].
    intros _. split; [cbn; tauto |].
    exists 0%nat, (Sample.tensor [1; 3; 10; 10]). split; reflexivity.
  - reflexivity.
  - cbn. tauto.
  - vm_compute. reflexivity.
  - vm_compute. reflexivity.
  - vm_compute. reflexivity.
  - reflexivity.
  - reflexivity.
  - reflexivity.
Defined.

(** C4: on a graph where every convolution or deconvolution with three or
    more inputs has its bias tensor in the graph and, unless that bias is the
    constant [[0]], a single output in the graph, the bias-splitting pass
    completes; and for every such operator whose third input is not a
    constant tensor of value [[0]], in the graph the pass returns the
    operator keeps its first two inputs, its output is a fresh tensor,
    distinct from the original output and absent from the original graph,
    with the original output's shape and element type, and a new [_bias_add]
    operator has inputs (fresh tensor, bias tensor) and the original output
    tensor, itself unchanged, as its output; the operators the pass does not
    qualify are as they were.  The iteration on the operator only appends one
    tensor and one operation and updates this operator, so no other
    operator's wiring changes. *)
Theorem C4_bias_split g h o b bias out t :
  (∀ k o', operations g !! k = Some o' →
     In (name o') ["conv"; "deconv"] ∧ (3 ≤ length (inputs o'))%nat →
     ∃ b' bias',
       inputs o' !! 2%nat = Some b' ∧ tensors g !! b' = Some bias' ∧
       ((is_constant bias' = true ∧ data bias' = [0]) ∨
        ∃ out' t', outputs o' = [out'] ∧ tensors g !! out' = Some t')) →
  operations g !! h = Some o →
  In (name o) ["conv"; "deconv"] →
  inputs o !! 2%nat = Some b →
  tensors g !! b = Some bias →
  ¬ (is_constant bias = true ∧ data bias = [0]) →
  outputs o = [out] →
  tensors g !! out = Some t →
  extract_bias_add_body h g =
    (Ok tt,
     mkGraph (tensors g ++ [mkTensor None (shape t) (dtype t) false []])
       (<[h := mkOperation (name o) (take 2 (inputs o)) [length (tensors g)]
                 (attribs o)]> (operations g)
        ++ [mkOperation "_bias_add" [length (tensors g); b] [out] ∅])) ∧
  ∃ g', _transform_extract_bias_add g = (Ok tt, g') ∧
    ∃ fresh j new,
      operations g' !! h =
        Some (mkOperation (name o) (take 2 (inputs o)) [fresh] (attribs o)) ∧
      fresh ≠ out ∧ tensors g !! fresh = None ∧
      tensors g' !! fresh = Some new ∧
      shape new = shape t ∧ dtype new = dtype t ∧
      (length (operations g) ≤ j)%nat ∧
      operations g' !! j = Some (mkOperation "_bias_add" [fresh; b] [out] ∅) ∧
      tensors g' !! out = Some t ∧
      ∀ k o', operations g !! k = Some o' →
              ¬ (In (name o') ["conv"; "deconv"] ∧ (3 ≤ length (inputs o'))%nat) →
              operations g' !! k = Some o'.
Proof.
  intros Hready Hop Hname Hb Hbias Hnz Hout Ht.
  split.
  { by rewrite (extract_bias_add_body_nonzero g h o b bias Hop Hname Hb Hbias out t). }
  destruct (bias_pass_runs g) as [g' Hrun].
  { intros k Hk. destruct (lookup_lt_is_Some_2 (operations g) k Hk) as [o' Ho'].
    exists o'. split; [done | exact (Hready k o' Ho')]. }
  exists g'. split; [done |].
  destruct (bias_pass_split_result g g' h o b bias out t
              Hop Hname Hb Hbias Hnz Hout Ht Hrun)
    as (fresh & j & Hfresh & Hj & Hoph & Htf & Hadd).
  pose proof (bias_inv_pass g) as (Hpre & _).
  unfold final in Hpre. rewrite Hrun in Hpre. cbn [snd] in Hpre.
  assert (Hlt : (out < length (tensors g))%nat) by by eapply lookup_lt_Some.
  exists fresh, j. eexists.
  split; [exact Hoph |].
  split; [lia |].
  split; [apply lookup_ge_None; lia |].
  split; [exact Htf |].
  do 2 (split; [reflexivity |]).
  split; [done |]. split; [exact Hadd |].
  split; [by eapply prefix_lookup_Some |].
  intros k o' Ho' Hn. by eapply bias_pass_skips.
Qed.

Lemma C4_bias_split_witness :
  extract_bias_add_body 0 Sample.conv_with_bias =
    (Ok tt,
     mkGraph (tensors Sample.conv_with_bias
                ++ [mkTensor None [1; 8; 10; 10] "scalar" false []])
       (<[0%nat := mkOperation "conv" [0; 1]%nat [4%nat]
                     (Sample.attrs [(1, 1); (1, 1)] "constant" [1; 1])]>
          (operations Sample.conv_with_bias)
        ++ [mkOperation "_bias_add" [4; 2]%nat [3%nat] ∅])) ∧
  ∃ g', _transform_extract_bias_add Sample.conv_with_bias = (Ok tt, g') ∧
    ∃ fresh j new,
      operations g' !! 0%nat =
        Some (mkOperation "conv" [0; 1]%nat [fresh]
                (Sample.attrs [(1, 1); (1, 1)] "constant" [1; 1])) ∧
      fresh ≠ 3%nat ∧ tensors Sample.conv_with_bias !! fresh = None ∧
      tensors g' !! fresh = Some new ∧
      shape new = [1; 8; 10; 10] ∧ dtype new = "scalar" ∧
      (1 ≤ j)%nat ∧
      operations g' !! j = Some (mkOperation "_bias_add" [fresh; 2%nat] [3%nat] ∅) ∧
      tensors g' !! 3%nat = Some (Sample.tensor [1; 8; 10; 10]) ∧
      ∀ k o', operations Sample.conv_with_bias !! k = Some o' →
              ¬ (In (name o') ["conv"; "deconv"] ∧ (3 ≤ length (inputs o'))%nat) →
              operations g' !! k = Some o'.
Proof.
  apply (C4_bias_split Sample.conv_with_bias 0 Sample.conv_op 2
           (Sample.tensor [1; 8]) 3 (Sample.tensor [1; 8; 10; 10])).
  - intros [| k] o' Ho'; [| discriminate]. injection Ho' as <-. intros _.
    exists 2%nat, (Sample.tensor [1; 8]).
    split; [reflexivity |]. split; [reflexivity |].
    right. exists 3%nat, (Sample.tensor [1; 8; 10; 10]). split; reflexivity.
  - reflexivity.
  - cbn. tauto.
  - reflexivity.
  - reflexivity.
  - cbn. intros [H _]. discriminate.
  - reflexivity.
  - reflexivity.
Defined.

(** C5: on a graph where every convolution or deconvolution with three or
    more inputs has its bias tensor in the graph and, unless that bias is the
    constant [[0]], a single output in the graph, the bias-splitting pass
    completes; and for every such operator whose third input is a constant
    tensor of value [[0]], in the graph the pass returns the operator has
    exactly two inputs, its first two, and its original outputs, name and
    attributes.  The iteration on the operator changes nothing in the graph
    but this operator's inputs: no operator and no tensor is created. *)
Theorem C5_zero_bias_dropped g h o b bias :
  (∀ k o', operations g !! k = Some o' →
     In (name o') ["conv"; "deconv"] ∧ (3 ≤ length (inputs o'))%nat →
     ∃ b' bias',
       inputs o' !! 2%nat = Some b' ∧ tensors g !! b' = Some bias' ∧
       ((is_constant bias' = true ∧ data bias' = [0]) ∨
        ∃ out' t', outputs o' = [out'] ∧ tensors g !! out' = Some t')) →
  operations g !! h = Some o →
  In (name o) ["conv"; "deconv"] →
  inputs o !! 2%nat = Some b →
  tensors g !! b = Some bias →
  is_constant bias = true →
  data bias = [0] →
  extract_bias_add_body h g =
    (Ok tt,
     mkGraph (tensors g)
       (<[h := mkOperation (name o) (take 2 (inputs o)) (outputs o) (attribs o)]>
          (operations g))) ∧
  length (take 2 (inputs o)) = 2%nat ∧
  ∃ g', _transform_extract_bias_add g = (Ok tt, g') ∧
    operations g' !! h =
      Some (mkOperation (name o) (take 2 (inputs o)) (outputs o) (attribs o)).
Proof.
  intros Hready Hop Hname Hb Hbias Hc Hd.
  split.
  { by rewrite (extract_bias_add_body_zero g h o b bias Hop Hname Hb Hbias Hc Hd). }
  split.
  { rewrite length_take. apply lookup_lt_Some in Hb. lia. }
  destruct (bias_pass_runs g) as [g' Hrun].
  { intros k Hk. destruct (lookup_lt_is_Some_2 (operations g) k Hk) as [o' Ho'].
    exists o'. split; [done | exact (Hready k o' Ho')]. }
  exists g'. split; [done |].
  pose proof Hrun as Hrun'. rewrite _transform_extract_bias_add_unfold in Hrun'.
  destruct (for_each_snapshot_step _ framed_extract_bias_add_body g g' h Hrun')
    as (g1 & g2 & Hbody & Hop1 & Hpre1 & _ & _ & Hrest).
  { by eapply lookup_lt_Some. }
  rewrite Hop in Hop1.
  assert (Hbias1 : tensors g1 !! b = Some bias) by by eapply prefix_lookup_Some.
  rewrite (extract_bias_add_body_zero g1 h o b bias Hop1 Hname Hb Hbias1 Hc Hd)
    in Hbody.
  injection Hbody as <-.
  assert (Hh1 : (h < length (operations g1))%nat) by by eapply lookup_lt_Some.
  rewrite Hrest; cbn [operations].
  - by apply list_lookup_insert_eq.
  - by left.
  - by rewrite length_insert.
Qed.

Lemma C5_zero_bias_dropped_witness :
  extract_bias_add_body 0 Sample.conv_zero_bias =
    (Ok tt,
     mkGraph (tensors Sample.conv_zero_bias)
       (<[0%nat := mkOperation "conv" [0; 1]%nat [3%nat]
                     (Sample.attrs [(1, 1); (1, 1)] "constant" [1; 1])]>
          (operations Sample.conv_zero_bias))) ∧
  length (take 2 [0; 1; 2]%nat) = 2%nat ∧
  ∃ g', _transform_extract_bias_add Sample.conv_zero_bias = (Ok tt, g') ∧
    operations g' !! 0%nat =
      Some (mkOperation "conv" [0; 1]%nat [3%nat]
              (Sample.attrs [(1, 1); (1, 1)] "constant" [1; 1])).
Proof.
  apply (C5_zero_bias_dropped Sample.conv_zero_bias 0 Sample.conv_op 2
           (Sample.constant [1; 8] [0])).
  - intros [| k] o' Ho'; [| discriminate]. injection Ho' as <-. intros _.
    exists 2%nat, (Sample.constant [1; 8] [0]).
    split; [reflexivity |]. split; [reflexivity |].
    left. split; reflexivity.
  - reflexivity.
  - cbn. tauto.
  - reflexivity.
  - reflexivity.
  - reflexivity.
  - reflexivity.
Defined.
